(** * unqlocked: the state machine and the word highlighter

    A shallow embedding of [script.unqlocked/unqlocked/statemachine.py]:
    the periodic [StateMachine], the [QlockThread] controller and its
    [highlight] / [highlightRow] pair, followed by the properties the
    specification states about them.

    Python integers are [Z]; Python floats are the doubles of
    [SpecFloat], with their rounding; Python lists are [list] with
    Python's indexing (negative indices count from the end, an index out
    of range raises [IndexError]); Python strings are lists of characters
    over an arbitrary character type with decidable equality. *)

From Stdlib Require Import ZArith QArith Qpower Qabs Lqa Ascii String.
From Stdlib Require Import Floats.SpecFloat.
From stdpp Require Import base decidable option list numbers sorting gmap.

Local Open Scope Z_scope.

(** ** Exceptions and results *)

(** [DanglingRef] is not a Python exception: it marks a read through a
    reference that the store does not hold, which no run reaches. *)
Inductive exn := IndexError | TypeError | ZeroDivisionError | DanglingRef.

(** A computation returns a value, raises, or (for the models of the
    [while] loops) exhausts the fuel it was given. *)
Inductive result (A : Type) :=
  | Ok (a : A)
  | Raise (e : exn)
  | OutOfFuel.
Arguments Ok {A} a.
Arguments Raise {A} e.
Arguments OutOfFuel {A}.

#[global] Instance result_ret : MRet result := λ A a, Ok a.
#[global] Instance result_bind : MBind result := λ A B f m,
  match m with
  | Ok a => f a
  | Raise e => Raise e
  | OutOfFuel => OutOfFuel
  end.

(** The computation returns. *)
Definition is_Ok {A} (m : result A) : Prop := ∃ a, m = Ok a.

(** The computation returns or raises: its fuel was enough. *)
Definition terminates {A} (m : result A) : Prop := m ≠ OutOfFuel.

(** ** Python list primitives *)

Module Py.
Section list_ops.
Context {A : Type}.

(** The position that index [i] denotes in a list of length [n]: a
    negative index counts from the end. *)
Definition norm_index (n : nat) (i : Z) : option nat :=
  if bool_decide (0 ≤ i < Z.of_nat n) then Some (Z.to_nat i)
  else if bool_decide (- Z.of_nat n ≤ i < 0) then
    Some (Z.to_nat (Z.of_nat n + i))
  else None.

(** [l[i]] *)
Definition getitem (l : list A) (i : Z) : result A :=
  match norm_index (length l) i with
  | Some k => match l !! k with Some x => Ok x | None => Raise IndexError end
  | None => Raise IndexError
  end.

(** [l[i] = v] *)
Definition setitem (l : list A) (i : Z) (v : A) : result (list A) :=
  match norm_index (length l) i with
  | Some k => Ok (<[k:=v]> l)
  | None => Raise IndexError
  end.

(** [l[i:]] *)
Definition slice_from (l : list A) (i : Z) : list A :=
  if bool_decide (0 ≤ i) then drop (Z.to_nat i) l
  else drop (Z.to_nat (Z.max 0 (Z.of_nat (length l) + i))) l.

(** [len(l)] *)
Definition len (l : list A) : Z := Z.of_nat (length l).
End list_ops.

(** [range(n)] *)
Definition range (n : Z) : list Z := seqZ 0 n.
End Py.

(** ** Loops

    [while cond: body] and [for x in xs: body], where the body may
    [break].  A [while] loop is given fuel; the loops of this program are
    shown below to finish within the fuel they are given. *)

Inductive flow (S : Type) :=
  | Next (st : S)     (* fall through to the next iteration *)
  | Break (st : S).   (* [break] *)
Arguments Next {S} st.
Arguments Break {S} st.

Fixpoint while {S : Type} (fuel : nat) (cond : S → bool)
    (body : S → result (flow S)) (st : S) : result S :=
  match fuel with
  | O => OutOfFuel
  | S fuel =>
      if cond st then
        r ← body st;
        match r with
        | Next st => while fuel cond body st
        | Break st => Ok st
        end
      else Ok st
  end.

Fixpoint for_in {S X : Type} (xs : list X)
    (body : X → S → result (flow S)) (st : S) : result S :=
  match xs with
  | [] => Ok st
  | x :: xs =>
      r ← body x st;
      match r with
      | Next st => for_in xs body st
      | Break st => Ok st
      end
  end.

(** ** The highlighter

    Token lists are immutable values here; [Module Ref] further down keeps
    them in a store of list objects and shows that this view loses
    nothing. *)

Section highlighter.
Context {char : Type} `{!EqDecision char}.

Local Abbreviation str := (list char).
Local Abbreviation truth := (list (list bool)).

(** [s.startswith(token)] *)
Definition startswith (s token : str) : bool :=
  bool_decide (token `prefix_of` s).

(** [''.join(cells)] *)
Definition join (cells : list str) : str := concat cells.

(** [truthMatrix[row][i] = True]; the row object is updated in place,
    which state passing renders as writing the new row back (the rows of
    a truth grid are distinct objects). *)
Definition set_true (truthMatrix : truth) (row i : Z) : result truth :=
  r ← Py.getitem truthMatrix row;
  r' ← Py.setitem r i true;
  Py.setitem truthMatrix row r'.

(** The inner loop of [highlightRow], on the variables
    [(truthMatrix, token, i)]:
<<
    while len(token):
        truthMatrix[row][i] = True
        token = token[len(charRow[i]):]
        i = i + 1
>> *)
Definition mark_cond (st : truth * str * Z) : bool :=
  let '(_, token, _) := st in negb (bool_decide (Py.len token = 0)).

Definition mark_body (charRow : list str) (row : Z)
    (st : truth * str * Z) : result (flow (truth * str * Z)) :=
  let '(truthMatrix, token, i) := st in
  truthMatrix ← set_true truthMatrix row i;
  cell ← Py.getitem charRow i;
  let token := Py.slice_from token (Py.len cell) in
  let i := i + 1 in
  Ok (Next (truthMatrix, token, i)).

Definition mark_token (charRow : list str) (row : Z)
    (truthMatrix : truth) (token : str) (i : Z) : result (truth * Z) :=
  '(truthMatrix, _, i) ←
     while (S (2 * length charRow)) mark_cond (mark_body charRow row)
       (truthMatrix, token, i);
  Ok (truthMatrix, i).

(** The outer loop of [highlightRow], on the variables
    [(truthMatrix, tokens, i)]: one pass from the test
    [i < len(charRow)] to the final [i = i + 1]. *)
Definition highlightRow_cond (charRow : list str)
    (st : truth * list str * Z) : bool :=
  let '(_, _, i) := st in bool_decide (i < Py.len charRow).

Definition highlightRow_body (charRow : list str) (row : Z)
    (forceSpace : bool) (st : truth * list str * Z)
    : result (flow (truth * list str * Z)) :=
  let '(truthMatrix, tokens, i) := st in
  if bool_decide (Py.len tokens = 0) then Ok (Break st)
  else
    token ← Py.getitem tokens 0;
    if startswith (join (Py.slice_from charRow i)) token then
      '(truthMatrix, i) ← mark_token charRow row truthMatrix token i;
      let i := if negb forceSpace then i - 1 else i in
      let tokens := Py.slice_from tokens 1 in
      let i := i + 1 in
      Ok (Next (truthMatrix, tokens, i))
    else
      let i := i + 1 in
      Ok (Next (truthMatrix, tokens, i)).

(** [QlockThread.highlightRow]: the truth matrix after the call and the
    number of tokens consumed. *)
Definition highlightRow (charRow : list str) (row : Z)
    (truthMatrix : truth) (tokens : list str) (forceSpace : bool)
    : result (truth * Z) :=
  let tokensCopy := tokens in
  let i := 0 in
  '(truthMatrix, tokens, _) ←
     while (S (length charRow + length tokens))
       (highlightRow_cond charRow)
       (highlightRow_body charRow row forceSpace)
       (truthMatrix, tokens, i);
  Ok (truthMatrix, Py.len tokensCopy - Py.len tokens).

(** The body of [for row in range(self.layout.height)] in [highlight],
    on the variables [(truthMatrix, tokens)]. *)
Definition highlight_body (charMatrix : list (list str))
    (forceSpace : bool) (row : Z) (st : truth * list str)
    : result (flow (truth * list str)) :=
  let '(truthMatrix, tokens) := st in
  if bool_decide (Py.len tokens = 0) then Ok (Break st)
  else
    charRow ← Py.getitem charMatrix row;
    '(truthMatrix, consumed) ←
       highlightRow charRow row truthMatrix tokens forceSpace;
    let tokens := Py.slice_from tokens consumed in
    Ok (Next (truthMatrix, tokens)).

(** [QlockThread.highlight]; [height] is [self.layout.height]. *)
Definition highlight (height : Z) (charMatrix : list (list str))
    (truthMatrix : truth) (tokens : list str) (forceSpace : bool)
    : result (truth * bool) :=
  '(truthMatrix, tokens) ←
     for_in (Py.range height) (highlight_body charMatrix forceSpace)
       (truthMatrix, tokens);
  Ok (truthMatrix, bool_decide (Py.len tokens = 0)).

End highlighter.

(** ** The highlighter over a store of list objects

    The same two methods, with [tokens] a reference to a list object in a
    store.  [len(tokens)] and [tokens[0]] read the object; a slice
    [tokens[k:]] allocates a new object; an assignment [tokens = ...]
    rebinds the local variable.  Nothing else touches token lists. *)

Module Ref.
Section highlighter.
Context {char : Type} `{!EqDecision char}.

Local Abbreviation str := (list char).
Local Abbreviation truth := (list (list bool)).

(** References to list objects, and the store that holds them. *)
Local Abbreviation loc := positive.
Local Abbreviation store := (gmap positive (list str)).

(** Reading through a reference.  A reference absent from the store
    has no counterpart in Python and is reported as [DanglingRef]. *)
Definition deref (h : store) (l : loc) : result (list str) :=
  match h !! l with
  | Some v => Ok v
  | None => Raise DanglingRef
  end.

(** A new list object. *)
Definition alloc (h : store) (v : list str) : loc * store :=
  let l := fresh (dom h) in (l, <[l:=v]> h).

(** [len(l)] *)
Definition len (h : store) (l : loc) : result Z :=
  v ← deref h l; Ok (Py.len v).

(** [l[i]] *)
Definition getitem (h : store) (l : loc) (i : Z) : result str :=
  v ← deref h l; Py.getitem v i.

(** [l[i:]] *)
Definition slice_from (h : store) (l : loc) (i : Z)
    : result (loc * store) :=
  v ← deref h l; Ok (alloc h (Py.slice_from v i)).

Definition highlightRow_cond (charRow : list str)
    (st : truth * loc * Z * store) : bool :=
  let '(_, _, i, _) := st in bool_decide (i < Py.len charRow).

Definition highlightRow_body (charRow : list str) (row : Z)
    (forceSpace : bool) (st : truth * loc * Z * store)
    : result (flow (truth * loc * Z * store)) :=
  let '(truthMatrix, tokens, i, h) := st in
  n ← len h tokens;
  if bool_decide (n = 0) then Ok (Break st)
  else
    token ← getitem h tokens 0;
    if startswith (join (Py.slice_from charRow i)) token then
      '(truthMatrix, i) ← mark_token charRow row truthMatrix token i;
      let i := if negb forceSpace then i - 1 else i in
      '(tokens, h) ← slice_from h tokens 1;
      let i := i + 1 in
      Ok (Next (truthMatrix, tokens, i, h))
    else
      let i := i + 1 in
      Ok (Next (truthMatrix, tokens, i, h)).

Definition highlightRow (charRow : list str) (row : Z)
    (truthMatrix : truth) (tokens : loc) (forceSpace : bool) (h : store)
    : result (truth * Z * store) :=
  let tokensCopy := tokens in
  let i := 0 in
  '(truthMatrix, tokens, _, h) ←
     while (S (length charRow + length (default [] (h !! tokens))))
       (highlightRow_cond charRow)
       (highlightRow_body charRow row forceSpace)
       (truthMatrix, tokens, i, h);
  a ← len h tokensCopy;
  b ← len h tokens;
  Ok (truthMatrix, a - b, h).

Definition highlight_body (charMatrix : list (list str))
    (forceSpace : bool) (row : Z) (st : truth * loc * store)
    : result (flow (truth * loc * store)) :=
  let '(truthMatrix, tokens, h) := st in
  n ← len h tokens;
  if bool_decide (n = 0) then Ok (Break st)
  else
    charRow ← Py.getitem charMatrix row;
    '(truthMatrix, consumed, h) ←
       highlightRow charRow row truthMatrix tokens forceSpace h;
    '(tokens, h) ← slice_from h tokens consumed;
    Ok (Next (truthMatrix, tokens, h)).

Definition highlight (height : Z) (charMatrix : list (list str))
    (truthMatrix : truth) (tokens : loc) (forceSpace : bool) (h : store)
    : result (truth * bool * store) :=
  '(truthMatrix, tokens, h) ←
     for_in (Py.range height) (highlight_body charMatrix forceSpace)
       (truthMatrix, tokens, h);
  n ← len h tokens;
  Ok (truthMatrix, bool_decide (n = 0), h).

End highlighter.
End Ref.

(** ** Collaborators that live outside [statemachine.py] *)

(** Modelled from the spec: class [Time] of package [unqlocked] is not in
    this file.  The spec gives it as a time of day in seconds since
    midnight, [fromSeconds] normalising modulo 86400 and [toSeconds]
    returning the seconds. *)
Record Time := mkTime { seconds : Z }.

Definition fromSeconds (s : Z) : Time := mkTime (s `mod` 86400).
Definition toSeconds (t : Time) : Z := seconds t.

#[global] Instance Time_eq_dec : EqDecision Time.
Proof. solve_decision. Defined.
#[global] Instance Time_countable : Countable Time :=
  inj_countable' seconds mkTime (λ t, match t with mkTime _ => eq_refl end).

(** Modelled from the spec: [gcd] of package [unqlocked] is not in this
    file; the spec calls it the greatest common divisor. *)
Definition gcd (a b : Z) : Z := Z.gcd a b.

(** Modelled from the spec: [createTruthMatrix] of package [unqlocked]
    is not in this file; the spec gives a [height] by [width] grid of
    cells, all false, created afresh for each use. *)
Definition createTruthMatrix (height width : Z) : list (list bool) :=
  replicate (Z.to_nat height) (replicate (Z.to_nat width) false).

(** [datetime.datetime.now()]: the fields the program reads. *)
Record datetime := {
  hour : Z;
  minute : Z;
  second : Z;
  microsecond : Z;
}.

(** The ranges [datetime] guarantees for its fields. *)
Definition datetime_valid (now : datetime) : Prop :=
  0 ≤ hour now < 24 ∧ 0 ≤ minute now < 60 ∧ 0 ≤ second now < 60 ∧
  0 ≤ microsecond now < 1000000.

(** [a / b] on Python 2 integers: floor division. *)
Definition floordiv (a b : Z) : result Z :=
  if bool_decide (b = 0) then Raise ZeroDivisionError else Ok (a `div` b).

(** [reduce(f, l)] without an initial value. *)
Definition reduce {A} (f : A → A → A) (l : list A) : result A :=
  match l with
  | [] => Raise TypeError
  | x :: l => Ok (foldl f x l)
  end.

(** ** Floats

    A Python [float] is a double of IEEE 754: 53 bits of precision,
    exponents below 1024, results rounded to the nearest double, ties to
    even.  The operations are those of the Standard Library's
    [SpecFloat]. *)
Definition float : Type := spec_float.

(** [float(n)]: the conversion that mixed arithmetic applies to an
    [int] operand, and the value of a literal such as [1000000.0].
    Python raises [OverflowError] for an [int] beyond the range of
    doubles; the integers converted in this file are fields of a
    [datetime], seconds of a day and literals, all far below [2^53],
    where the conversion is exact. *)
Definition float_of_int (n : Z) : float :=
  binary_normalize 53 1024 n 0 false.

(** [x + y] and [x - y] *)
Definition float_add (x y : float) : float := SFadd 53 1024 x y.
Definition float_sub (x y : float) : float := SFsub 53 1024 x y.

(** [x / y] *)
Definition float_truediv (x y : float) : result float :=
  if SFeqb y (float_of_int 0) then Raise ZeroDivisionError
  else Ok (SFdiv 53 1024 x y).

(** [x < y] *)
Definition float_lt (x y : float) : bool := SFltb x y.

(** What a thread does to the outside world. *)
Inductive log_msg :=
  | LogVisiting | LogSleeping | LogSolving | LogSolution
  | LogUnable | LogSuccess | LogFailedAgain.

Inductive event :=
  | Log (m : log_msg)
  | DrawMatrix (truthMatrix : list (list bool))
  | Wait (delay : float).

(** ** StateMachine *)

Record StateMachine := {
  _stop : bool;
  delay : Z;
  state : Time;
  windowSighted : bool;
}.

(** [StateMachine.__init__]; [now] is the clock reading it takes. *)
Definition StateMachine_init (now : datetime) (delay : Z)
    : result StateMachine :=
  let seconds := hour now * 60 * 60 + minute now * 60 + second now in
  q ← floordiv seconds delay;
  Ok {| _stop := false; delay := delay;
        state := fromSeconds (q * delay); windowSighted := false |}.

(** [StateMachine.shouldStop]; [visible] is what
    [xbmc.getCondVisibility] answers. *)
Definition shouldStop (visible : bool) (self : StateMachine)
    : bool * StateMachine :=
  if windowSighted self && negb visible then (true, self)
  else
    let self :=
      if visible then
        {| _stop := _stop self; delay := delay self; state := state self;
           windowSighted := true |}
      else self in
    (_stop self, self).

(** [StateMachine.stop] *)
Definition stop (self : StateMachine) : StateMachine :=
  {| _stop := true; delay := delay self; state := state self;
     windowSighted := windowSighted self |}.

(** The clock reading of [run]:
    [now.hour * 60 * 60 + now.minute * 60 + now.second
     + now.microsecond / 1000000.0].  The sum of the three integers is
    converted to a float and added to the float quotient. *)
Definition wall_seconds (now : datetime) : result float :=
  micro ← float_truediv (float_of_int (microsecond now))
             (float_of_int 1000000);
  Ok (float_add
        (float_of_int (hour now * 60 * 60 + minute now * 60 + second now))
        micro).

(** One pass through the body of the loop of [StateMachine.run]; [step]
    is the subclass's method and [now] the clock reading after it. *)
Definition run_iteration (step : Time → result (list event))
    (now : datetime) (self : StateMachine)
    : result (StateMachine * list event * float) :=
  evs ← step (state self);
  let next := (toSeconds (state self) + delay self) `mod` (24 * 60 * 60) in
  let self :=
    {| _stop := _stop self; delay := delay self;
       state := fromSeconds next; windowSighted := windowSighted self |} in
  seconds ← wall_seconds now;
  let delay := float_sub (float_of_int (toSeconds (state self))) seconds in
  let delay :=
    if float_lt delay (float_of_int 0)
    then float_add delay (float_of_int (24 * 60 * 60))
    else delay in
  Ok (self, Log LogVisiting :: evs ++ [Log LogSleeping; Wait delay], delay).

(** The operations that act on a running state machine. *)
Inductive op :=
  | OpShouldStop (visible : bool)
  | OpStop
  | OpIteration (now : datetime).

(** ** QlockThread *)

Section qlock.
Context {char : Type} `{!EqDecision char}.

Local Abbreviation str := (list char).

(** The attributes of a layout that the program reads. *)
Record Layout := {
  height : Z;
  width : Z;
  matrix : list (list str);
  times : gmap Time str;
}.

(** [str.lower], character by character. *)
Variable lower_char : char → char.

(** [solver.Solver(layout, delay).resolveTime] *)
Variable Solver : Layout → Z → Time → list str.

Record QlockThread := {
  base : StateMachine;
  layout : Layout;
  solver : Time → list str;
}.

(** [layout.times.keys()] *)
Definition keys (layout : Layout) : list Time :=
  (map_to_list (times layout)).*1.

(** [QlockThread.calcDelay] *)
Definition calcDelay (layout : Layout) : result Z :=
  reduce gcd (toSeconds <$> keys layout).

(** The lower-casing loops of [QlockThread.__init__], on the matrix of
    the copied layout. *)
Definition lower_cell (row col : Z) (m : list (list str))
    : result (flow (list (list str))) :=
  r ← Py.getitem m row;
  c ← Py.getitem (r : list str) col;
  r' ← Py.setitem r col (lower_char <$> (c : str));
  m ← Py.setitem m row r';
  Ok (Next m).

Definition lower_row (width : Z) (row : Z) (m : list (list str))
    : result (flow (list (list str))) :=
  m ← for_in (Py.range width) (lower_cell row) m;
  Ok (Next m).

(** [QlockThread.__init__] *)
Definition QlockThread_init (now : datetime) (layout : Layout)
    : result QlockThread :=
  delay ← calcDelay layout;
  base ← StateMachine_init now delay;
  m ← for_in (Py.range (height layout)) (lower_row (width layout))
        (matrix layout);
  let self_layout :=
    {| height := height layout; width := width layout; matrix := m;
       times := times layout |} in
  Ok {| base := base; layout := self_layout;
        solver := Solver layout delay |}.

(** [QlockThread.step] *)
Definition step (self : QlockThread) (time : Time)
    : result (list event) :=
  let solution := solver self time in
  let truthMatrix :=
    createTruthMatrix (height (layout self)) (width (layout self)) in
  '(truthMatrix, success) ←
     highlight (height (layout self)) (matrix (layout self)) truthMatrix
       solution true;
  '(truthMatrix, logs) ←
     (if negb success then
        let truthMatrix :=
          createTruthMatrix (height (layout self)) (width (layout self)) in
        '(truthMatrix, success) ←
           highlight (height (layout self)) (matrix (layout self))
             truthMatrix solution false;
        Ok (truthMatrix,
            [Log LogUnable;
             Log (if success : bool then LogSuccess else LogFailedAgain)])
      else Ok (truthMatrix, []) : result (list (list bool) * list event));
  Ok ([Log LogSolving; Log LogSolution] ++ logs ++ [DrawMatrix truthMatrix]).

(** [QlockThread.cleanup] *)
Definition cleanup (self : QlockThread) : list event :=
  let truthMatrix :=
    createTruthMatrix (height (layout self)) (width (layout self)) in
  [DrawMatrix truthMatrix].

End qlock.

(** An operation of a running machine, applied to its state. *)
Definition exec (step : Time → result (list event)) (o : op)
    (self : StateMachine) : StateMachine :=
  match o with
  | OpShouldStop visible => (shouldStop visible self).2
  | OpStop => stop self
  | OpIteration now =>
      match run_iteration step now self with
      | Ok (self, _, _) => self
      | _ => self
      end
  end.

(** ** Vocabulary for the highlighter's results *)

(** A run of [sp_len] cells of row [sp_row], from column [sp_start]. *)
Record span := { sp_row : nat; sp_start : nat; sp_len : nat }.

(** The cell at row [r], column [c] lies in the span. *)
Definition in_span (sp : span) (r c : nat) : Prop :=
  r = sp_row sp ∧ (sp_start sp ≤ c < sp_start sp + sp_len sp)%nat.

(** Row-major order of spans that do not overlap. *)
Definition span_before (sp1 sp2 : span) : Prop :=
  (sp_row sp1 < sp_row sp2)%nat ∨
  (sp_row sp1 = sp_row sp2 ∧
   (sp_start sp1 + sp_len sp1 ≤ sp_start sp2)%nat).

(** The truth grid holds [True] at row [r], column [c]. *)
Definition marked (truthMatrix : list (list bool)) (r c : nat) : bool :=
  match truthMatrix !! r with
  | Some row => default false (row !! c)
  | None => false
  end.

(** The row lengths of a grid. *)
Definition shape {A} (m : list (list A)) : list nat := length <$> m.

Section spans.
Context {char : Type} `{!EqDecision char}.

Local Abbreviation str := (list char).

(** The cells of a span, and their text. *)
Definition span_cells (charMatrix : list (list str)) (sp : span)
    : list str :=
  match charMatrix !! sp_row sp with
  | Some charRow => take (sp_len sp) (drop (sp_start sp) charRow)
  | None => []
  end.

Definition span_text (charMatrix : list (list str)) (sp : span) : str :=
  join (span_cells charMatrix sp).

(** The span lies within the grid. *)
Definition span_fits (charMatrix : list (list str)) (sp : span) : Prop :=
  ∃ charRow, charMatrix !! sp_row sp = Some charRow ∧
             (sp_start sp + sp_len sp ≤ length charRow)%nat.

(** The span spells the token: its text is the token. *)
Definition span_spells (charMatrix : list (list str)) (token : str)
    (sp : span) : Prop :=
  span_fits charMatrix sp ∧ span_text charMatrix sp = token.

(** The span covers the token: the token is found at the span's first
    cell ([startswith]), the span starts inside the row, and the span
    is the shortest run of cells that holds the whole token. *)
Definition row_covers (charRow : list str) (token : str)
    (start len : nat) : Prop :=
  (start < length charRow)%nat ∧
  (start + len ≤ length charRow)%nat ∧
  token `prefix_of` join (drop start charRow) ∧
  token `prefix_of` join (take len (drop start charRow)) ∧
  ∀ m, (m < len)%nat →
    (length (join (take m (drop start charRow))) < length token)%nat.

Definition span_covers (charMatrix : list (list str)) (token : str)
    (sp : span) : Prop :=
  ∃ charRow, charMatrix !! sp_row sp = Some charRow ∧
             row_covers charRow token (sp_start sp) (sp_len sp).

(** The positions [highlight] has marked: true after the call and not
    before. *)
Definition newly_marked (before after : list (list bool)) (r c : nat)
    : Prop :=
  marked after r c = true ∧ marked before r c = false.

(** The property of a successful [highlight] as the specification words
    it: every position the call marked lies in a span that spells a
    token, with one span per token, in the tokens' order. *)
Definition spells_in_order (height : Z) (charMatrix : list (list str))
    (truthMatrix : list (list bool)) (tokens : list str)
    (forceSpace : bool) : Prop :=
  ∀ truthMatrix',
    highlight height charMatrix truthMatrix tokens forceSpace
      = Ok (truthMatrix', true) →
    ∃ spans,
      Forall2 (span_spells charMatrix) tokens spans ∧
      StronglySorted span_before spans ∧
      ∀ r c, newly_marked truthMatrix truthMatrix' r c →
             ∃ sp, sp ∈ spans ∧ in_span sp r c.

(** The same with "covers" for "spells". *)
Definition covers_in_order (height : Z) (charMatrix : list (list str))
    (truthMatrix : list (list bool)) (tokens : list str)
    (forceSpace : bool) : Prop :=
  ∀ truthMatrix',
    highlight height charMatrix truthMatrix tokens forceSpace
      = Ok (truthMatrix', true) →
    ∃ spans,
      Forall2 (span_covers charMatrix) tokens spans ∧
      StronglySorted span_before spans ∧
      ∀ r c, marked truthMatrix' r c = true ↔
             marked truthMatrix r c = true ∨
             ∃ sp, sp ∈ spans ∧ in_span sp r c.
End spans.

(** ** Loop invariants of the highlighter *)

Section invariants.
Context {char : Type} `{!EqDecision char}.

Local Abbreviation str := (list char).
Local Abbreviation truth := (list (list bool)).

(** What the loop has done when it has marked [n] cells from column
    [k0] on. *)
Definition mark_inv (charRow : list str) (r : nat) (tm0 : truth)
    (token0 : str) (k0 : nat)
    (st : list (list bool) * list char * Z) (n : nat) : Prop :=
  let '(tm, token, i) := st in
  i = Z.of_nat (k0 + n) ∧
  (k0 + n ≤ length charRow)%nat ∧
  token = drop (length (join (take n (drop k0 charRow)))) token0 ∧
  (∀ m, (m < n)%nat →
     (length (join (take m (drop k0 charRow))) < length token0)%nat) ∧
  (∀ r' c', marked tm r' c' = true ↔
            marked tm0 r' c' = true ∨ (r' = r ∧ (k0 ≤ c' < k0 + n)%nat)) ∧
  shape tm = shape tm0.

(** Row [r] of the truth grid is at least as wide as [charRow]. *)
Definition row_wide (tm : truth) (r : nat) (charRow : list str) : Prop :=
  ∃ w, shape tm !! r = Some w ∧ (length charRow ≤ w)%nat.

(** The grids fit [highlight]: the first [height] rows exist in both,
    and each truth row is at least as wide as its character row. *)
Definition grid_ok (height : Z) (charMatrix : list (list str))
    (tm : truth) : Prop :=
  ∀ r, Z.of_nat r < height →
    ∃ charRow, charMatrix !! r = Some charRow ∧ row_wide tm r charRow.

(** A span of row [r] that covers the token. *)
Definition row_span (charRow : list str) (r : nat) (token : str)
    (sp : span) : Prop :=
  sp_row sp = r ∧ row_covers charRow token (sp_start sp) (sp_len sp).

(** The truth grid [tm] is [tm0] with the cells of [spans] set. *)
Definition marks (tm0 tm : truth) (spans : list span) : Prop :=
  (∀ r c, marked tm r c = true ↔
          marked tm0 r c = true ∨ ∃ sp, sp ∈ spans ∧ in_span sp r c) ∧
  shape tm = shape tm0.

(** The outer loop of [highlightRow], at column [i]: the tokens gone
    from the head of the list each have their span, left to right,
    all ending by [i]. *)
Definition row_inv (charRow : list str) (r : nat) (tm0 : truth)
    (tokens0 : list str) (st : truth * list str * Z) : Prop :=
  let '(tm, tokens, i) := st in
  ∃ consumed spans k,
    i = Z.of_nat k ∧
    tokens0 = consumed ++ tokens ∧
    Forall2 (row_span charRow r) consumed spans ∧
    StronglySorted span_before spans ∧
    Forall (λ sp, sp_row sp = r ∧ (sp_start sp + sp_len sp ≤ k)%nat) spans ∧
    marks tm0 tm spans.

(** What [highlightRow] has done when it returns. *)
Definition row_post (charRow : list str) (r : nat) (tm0 : truth)
    (tokens0 : list str) (tm : truth) (tokens : list str) : Prop :=
  ∃ consumed spans,
    tokens0 = consumed ++ tokens ∧
    Forall2 (row_span charRow r) consumed spans ∧
    StronglySorted span_before spans ∧
    marks tm0 tm spans.

(** The loop of [highlight], with the rows [rows] still to visit. *)
Definition grid_inv (charMatrix : list (list str)) (tm0 : truth)
    (tokens0 : list str) (rows : list Z) (st : truth * list str) : Prop :=
  let '(tm, tokens) := st in
  StronglySorted Z.lt rows ∧ Forall (λ x, 0 ≤ x) rows ∧
  ∃ consumed spans,
    tokens0 = consumed ++ tokens ∧
    Forall2 (span_covers charMatrix) consumed spans ∧
    StronglySorted span_before spans ∧
    Forall (λ sp, Forall (λ x, Z.of_nat (sp_row sp) < x) rows) spans ∧
    marks tm0 tm spans.

Definition grid_post (charMatrix : list (list str)) (tm0 : truth)
    (tokens0 : list str) (st : truth * list str) : Prop :=
  let '(tm, tokens) := st in
  ∃ consumed spans,
    tokens0 = consumed ++ tokens ∧
    Forall2 (span_covers charMatrix) consumed spans ∧
    StronglySorted span_before spans ∧
    marks tm0 tm spans.
End invariants.

(** ** The rows that [highlight] visits *)

Section rows.
Context {char : Type} `{!EqDecision char}.

Local Abbreviation str := (list char).
Local Abbreviation truth := (list (list bool)).

(** In the words of the specification: the rows are taken in order; a
    row is visited only while tokens are left, so that nothing happens
    once the list is empty; a visit hands the row's cells and the tokens
    that are left to [highlightRow], which consumes tokens from the head
    of the list, each in a span of that row; the tokens it does not
    consume go on, as they are, to the next row.  [rows_visited rows
    (tm, tokens) (tm', rest)]: from the truth grid [tm] and the tokens
    [tokens], going through [rows] in this way ends with [tm'] and
    [rest]. *)
Inductive rows_visited (charMatrix : list (list str)) (forceSpace : bool)
    : list Z → truth * list str → truth * list str → Prop :=
  | rows_end tm tokens :
      rows_visited charMatrix forceSpace [] (tm, tokens) (tm, tokens)
  | rows_stop row rows tm :
      rows_visited charMatrix forceSpace (row :: rows) (tm, []) (tm, [])
  | rows_visit r rows tm tokens charRow tm1 consumed rest spans st' :
      tokens ≠ [] →
      charMatrix !! r = Some charRow →
      highlightRow charRow (Z.of_nat r) tm tokens forceSpace
        = Ok (tm1, Z.of_nat (length consumed)) →
      tokens = consumed ++ rest →
      Forall2 (row_span charRow r) consumed spans →
      marks tm tm1 spans →
      rows_visited charMatrix forceSpace rows (tm1, rest) st' →
      rows_visited charMatrix forceSpace (Z.of_nat r :: rows)
        (tm, tokens) st'.
End rows.

(** ** Relating the two views of the highlighter *)

(** Two runs end alike: both return, with related values, or both raise
    the same exception, or both exhaust their fuel. *)
Definition result_rel {A B} (R : A → B → Prop)
    (m1 : result A) (m2 : result B) : Prop :=
  match m1, m2 with
  | Ok a, Ok b => R a b
  | Raise e1, Raise e2 => e1 = e2
  | OutOfFuel, OutOfFuel => True
  | _, _ => False
  end.

Definition flow_rel {A B} (R : A → B → Prop)
    (f1 : flow A) (f2 : flow B) : Prop :=
  match f1, f2 with
  | Next a, Next b => R a b
  | Break a, Break b => R a b
  | _, _ => False
  end.

Section views.
Context {char : Type} `{!EqDecision char}.

Local Abbreviation str := (list char).
Local Abbreviation truth := (list (list bool)).

(** The variables of [highlightRow] in the two views: the reference
    [tokens] holds the token list, and the store has kept every list
    it held at the call. *)
Definition row_view (h0 : gmap positive (list str))
    (st : truth * list str * Z)
    (st' : truth * positive * Z * gmap positive (list str)) : Prop :=
  let '(tm, tokens, i) := st in
  let '(tm', l, i', h) := st' in
  tm = tm' ∧ i = i' ∧ h !! l = Some tokens ∧ h0 ⊆ h.

Definition grid_view (h0 : gmap positive (list str))
    (st : truth * list str)
    (st' : truth * positive * gmap positive (list str)) : Prop :=
  let '(tm, tokens) := st in
  let '(tm', l, h) := st' in
  tm = tm' ∧ h !! l = Some tokens ∧ h0 ⊆ h.

(** The results of a call in the two views: the same value, and a
    store that has kept every list it held at the call. *)
Definition same_result {A} (h0 : gmap positive (list str))
    (r : truth * A) (r' : truth * A * gmap positive (list str)) : Prop :=
  let '(tm, a) := r in
  let '(tm', a', h) := r' in
  tm = tm' ∧ a = a' ∧ h0 ⊆ h.
End views.

(** ** Layouts and the running example *)

Section layouts.
Context {char : Type} `{!EqDecision char}.

(** The character grid of a layout has [height] rows of [width]
    cells. *)
Definition layout_wf (layout : @Layout char) : Prop :=
  Z.of_nat (length (matrix layout)) = height layout ∧
  Forall (λ charRow, Z.of_nat (length charRow) = width layout)
    (matrix layout).
End layouts.

(** The number of [drawMatrix] calls among the events. *)
Definition is_draw (ev : event) : bool :=
  match ev with DrawMatrix _ => true | _ => false end.
Definition draw_count (evs : list event) : nat :=
  length (List.filter is_draw evs).

(** A string literal as a Python string. *)
Definition text (x : string) : list ascii := list_ascii_of_string x.

(** The row and the tokens of the docstring of [highlightRow]. *)
Definition ahalf_row : list (list ascii) :=
  [text "a"; text "h"; text "a"; text "l"; text "f"].
Definition ahalf_tokens : list (list ascii) := [text "a"; text "half"].
Definition ahalf_layout : Layout :=
  {| height := 1; width := 5; matrix := [ahalf_row]; times := ∅ |}.

(** A clock face on that layout whose solver answers with those
    tokens. *)
Definition ahalf_thread : QlockThread :=
  {| base := {| _stop := false; delay := 300; state := mkTime 0;
                windowSighted := false |};
     layout := ahalf_layout;
     solver := λ _, ahalf_tokens |}.

(** A layout whose rules are at 5, 10 and 15 minutes. *)
Definition quarter_layout : @Layout ascii :=
  {| height := 0; width := 0; matrix := [];
     times := {[ mkTime 300 := text "five";
                 mkTime 600 := text "ten";
                 mkTime 900 := text "quarter" ]} |}.

(** ** Loops that rewrite a list from its head *)

(** The list with [f] applied to its first [n] elements. *)
Definition map_prefix {A} (f : A → A) (n : nat) (l : list A) : list A :=
  (f <$> take n l) ++ drop n l.

(** The grid with every cell lower-cased. *)
Definition lower_matrix {char : Type} (lower_char : char → char)
    (m : list (list (list char))) : list (list (list char)) :=
  (λ charRow : list (list char),
     (λ cell : list char, lower_char <$> cell) <$> charRow) <$> m.

(** The grid holds the cells that the declared dimensions promise: each
    of the first [height] rows is there and has at least [width] cells. *)
Definition covers_dims {char : Type} (layout : @Layout char) : Prop :=
  ∀ r : nat, Z.of_nat r < height layout →
    ∃ charRow, matrix layout !! r = Some charRow ∧
               width layout ≤ Z.of_nat (length charRow).

(** ** The loop of [StateMachine.run] *)

(** What the thread meets on one pass of the loop of [run]: the answer of
    [xbmc.getCondVisibility] in the loop test, the clock reading after
    the step, and whether another thread calls [stop] during the wait.
    [run] holds [waitCondition] except while it waits, and [stop] takes
    it, so a call of [stop] takes effect during a wait and nowhere
    else. *)
Record pass := {
  pass_visible : bool;
  pass_now : datetime;
  pass_stop : bool;
}.

(** What [run] does, pass by pass: it visits a state (log, step, log,
    wait), and at the end it shuts down (log, [cleanup], log). *)
Inductive run_event :=
  | Visit (time : Time) (evs : list event) (sleep : float)
  | Shutdown (evs : list event).

(** [while not self.shouldStop(): ...], over the passes the thread
    meets; a loop that is still running when the passes end is
    [OutOfFuel]. *)
Fixpoint run_loop (step : Time → result (list event)) (passes : list pass)
    (self : StateMachine) : result (StateMachine * list run_event) :=
  match passes with
  | [] => OutOfFuel
  | p :: passes =>
      let '(stopping, self) := shouldStop (pass_visible p) self in
      if stopping then Ok (self, [])
      else
        let time := state self in
        '(self, evs, sleep) ← run_iteration step (pass_now p) self;
        let self := if pass_stop p then stop self else self in
        '(self, trace) ← run_loop step passes self;
        Ok (self, Visit time evs sleep :: trace)
  end.

(** [StateMachine.run]; [step] and [cleanup] are the subclass's
    methods. *)
Definition run (step : Time → result (list event)) (cleanup : list event)
    (passes : list pass) (self : StateMachine)
    : result (StateMachine * list run_event) :=
  '(self, trace) ← run_loop step passes self;
  Ok (self, trace ++ [Shutdown cleanup]).

(** The states of the visits of a trace. *)
Definition visit_time (ev : run_event) : option Time :=
  match ev with Visit time _ _ => Some time | Shutdown _ => None end.
Definition visits (trace : list run_event) : list Time :=
  omap visit_time trace.

(** The first pass at which the loop test of [run] answers true, for a
    machine with the flags [stopped] and [sighted]: the stop flag is
    set, by the caller or during an earlier wait, or the window was
    sighted and is not visible. *)
Fixpoint first_stop (stopped sighted : bool) (passes : list pass)
    : option nat :=
  match passes with
  | [] => None
  | p :: passes =>
      if sighted && negb (pass_visible p) then Some 0%nat
      else if stopped then Some 0%nat
      else S <$> first_stop (stopped || pass_stop p)
                   (sighted || pass_visible p) passes
  end.

(** The state of the [k]-th visit of a machine that starts in [time]
    with delay [delay]. *)
Definition nth_state (time : Time) (delay : Z) (k : nat) : Time :=
  match k with
  | O => time
  | S _ => fromSeconds (toSeconds time + Z.of_nat k * delay)
  end.

(** The grids that the events hand to [drawMatrix], in order. *)
Definition drawn (ev : event) : option (list (list bool)) :=
  match ev with DrawMatrix tm => Some tm | _ => None end.
Definition draws (evs : list event) : list (list (list bool)) :=
  omap drawn evs.

(** What a visit or the shutdown of a clock face draws: one grid of the
    given dimensions, and at the shutdown a blank one. *)
Definition draws_one_grid (dims : list nat) (ev : run_event) : Prop :=
  match ev with
  | Visit _ evs _ => ∃ tm, draws evs = [tm] ∧ shape tm = dims
  | Shutdown evs =>
      ∃ tm, evs = [DrawMatrix tm] ∧ shape tm = dims ∧
            ∀ r c, marked tm r c = false
  end.

(** ** Where the scan of a row finds its tokens *)

Section scans.
Context {char : Type} `{!EqDecision char}.

Local Abbreviation str := (list char).

(** The token is found at column [q]: the text of the row from that
    cell on starts with it. *)
Definition found (charRow : list str) (token : str) (q : nat) : Prop :=
  token `prefix_of` join (drop q charRow).

(** The column at which the scan goes on after the span: right after
    it, and one cell further with [forceSpace]. *)
Definition resume (forceSpace : bool) (sp : span) : nat :=
  (sp_start sp + sp_len sp + if forceSpace then 1 else 0)%nat.

(** A scan of row [r] from column [p] with the tokens [tokens] gives the
    spans [spans] and leaves the tokens [rest]: each span covers the next
    token at the first column, from where the scan stands, at which the
    token is found; the scan goes on from where the span resumes; and the
    token that is left first, if any, is found nowhere in what remains of
    the row. *)
Fixpoint scanned (charRow : list str) (r : nat) (forceSpace : bool)
    (p : nat) (tokens : list str) (spans : list span) (rest : list str)
    {struct spans} : Prop :=
  match spans with
  | [] =>
      rest = tokens ∧
      match tokens with
      | [] => True
      | token :: _ =>
          ∀ q, (p ≤ q < length charRow)%nat → ¬ found charRow token q
      end
  | sp :: spans =>
      match tokens with
      | [] => False
      | token :: tokens =>
          (p ≤ sp_start sp)%nat ∧
          (∀ q, (p ≤ q < sp_start sp)%nat → ¬ found charRow token q) ∧
          row_span charRow r token sp ∧
          scanned charRow r forceSpace (resume forceSpace sp) tokens spans
            rest
      end
  end.

(** Row-major order of spans, with a cell between two spans of one row
    when [forceSpace] is set. *)
Definition span_apart (forceSpace : bool) (sp1 sp2 : span) : Prop :=
  (sp_row sp1 < sp_row sp2)%nat ∨
  (sp_row sp1 = sp_row sp2 ∧ (resume forceSpace sp1 ≤ sp_start sp2)%nat).

(** A placement of the tokens on the first [height] rows of the grid:
    one span per token, covering it, the spans in the tokens' order and
    apart. *)
Definition placement (forceSpace : bool) (height : Z)
    (charMatrix : list (list str)) (tokens : list str)
    (spans : list span) : Prop :=
  Forall2 (span_covers charMatrix) tokens spans ∧
  StronglySorted (span_apart forceSpace) spans ∧
  Forall (λ sp, Z.of_nat (sp_row sp) < height) spans.

(** The loop of [highlight], with the rows [rows] still to visit: the
    tokens gone from the head of the list are placed on the rows
    visited. *)
Definition placed_inv (forceSpace : bool) (height : Z)
    (charMatrix : list (list str)) (tm0 : list (list bool))
    (tokens0 : list str) (rows : list Z)
    (st : list (list bool) * list str) : Prop :=
  let '(tm, tokens) := st in
  StronglySorted Z.lt rows ∧ Forall (λ x, 0 ≤ x < height) rows ∧
  ∃ consumed spans,
    tokens0 = consumed ++ tokens ∧
    placement forceSpace height charMatrix consumed spans ∧
    Forall (λ sp, Forall (λ x, Z.of_nat (sp_row sp) < x) rows) spans ∧
    marks tm0 tm spans.

(** The loop of [highlight], with the rows [rows] still to visit: the
    tokens still in the list can be placed on those rows. *)
Definition ahead_inv (forceSpace : bool) (charMatrix : list (list str))
    (rows : list Z) (st : list (list bool) * list str) : Prop :=
  let '(_, tokens) := st in
  StronglySorted Z.lt rows ∧ Forall (λ x, 0 ≤ x) rows ∧
  ∃ spans,
    Forall2 (span_covers charMatrix) tokens spans ∧
    StronglySorted (span_apart forceSpace) spans ∧
    Forall (λ sp, Z.of_nat (sp_row sp) ∈ rows) spans.
End scans.

(** ** Doubles and the numbers they stand for *)

(** The number that a double stands for. *)
Definition float_value (x : float) : Q :=
  match x with
  | S754_finite s m e => inject_Z (cond_Zopp s (Z.pos m)) * 2 ^ e
  | _ => 0
  end.

(** A double that is a number: a zero, or a finite double whose exponent
    is in the range of the format. *)
Definition float_finite (x : float) : Prop :=
  match x with
  | S754_zero _ => True
  | S754_finite _ _ e => -1074 ≤ e ≤ 971
  | _ => False
  end.

(** The value of a double in units of [2^-1074], the least positive
    double: every double is a whole number of them. *)
Definition scaled (x : float) : Z :=
  match x with
  | S754_finite s m e => cond_Zopp s (Z.pos m * 2 ^ (e + 1074))
  | _ => 0
  end.

(** [z] is a double nearest to the number [X] (in units of [2^-1074])
    whose magnitude is below [2^K]: it is [X] itself, or a multiple of a
    unit in the last place [2^u] that is within half that unit of
    [X]. *)
Definition rounded (z : float) (X K : Z) : Prop :=
  float_finite z ∧
  (scaled z = X ∨
   ∃ u, -1074 ≤ u ≤ K - 53 ∧ (2 ^ (u + 1074) | scaled z) ∧
        2 * Z.abs (scaled z - X) ≤ 2 ^ (u + 1074)).

(** The bits [r] and [s] of a shift record of [SpecFloat] say where the
    real number [m + t/D] lies between [m] and [m + 1]. *)
Definition rs_ok (r s : bool) (t D : Z) : Prop :=
  r = bool_decide (D ≤ 2 * t) ∧ s = bool_decide (t ≠ 0 ∧ 2 * t ≠ D).

(** The location [l] says where the real number [m + t/D] lies between
    [m] and [m + 1]. *)
Definition loc_ok (l : location) (t D : Z) : Prop :=
  match l with
  | loc_Exact => t = 0
  | loc_Inexact c => t ≠ 0 ∧ (2 * t ?= D) = c
  end.

(** The double [1000000.0]. *)
Definition million : float :=
  S754_finite false 8589934592000000 (-33).

(** The clock reading of [run] as a number: the second of the day, with
    the microseconds as a fraction. *)
Definition exact_seconds (now : datetime) : Q :=
  inject_Z (hour now * 60 * 60 + minute now * 60 + second now)
  + (microsecond now # 1000000).

(** The sleep of [run] as a number: the next state minus the clock
    reading, a day later when that is negative. *)
Definition exact_sleep (next : Z) (now : datetime) : Q :=
  let diff := (inject_Z next - exact_seconds now)%Q in
  if Qlt_le_dec diff 0 then (diff + 86400)%Q else diff.

(** The same in whole microseconds, for a clock reading of [secs]
    seconds and [us] microseconds. *)
Definition sleep_micros (us secs next : Z) : Z :=
  let d := (next - secs) * 1000000 - us in
  if bool_decide (d < 0) then d + 86400 * 1000000 else d.

(** The rounding error allowed to the sleep that [run] computes:
    [2^-35] seconds, three half units in the last place of a double
    below [2^17]. *)
Definition float_tolerance : Q := 1 # 34359738368.

(** * Properties *)

(** ** Results *)

Lemma bind_Ok {A B} (m : result A) (f : A → result B) b :
  m ≫= f = Ok b ↔ ∃ a, m = Ok a ∧ f a = Ok b.
Proof.
  destruct m as [a| |]; simpl; split; try (intros [? [? ?]]); eauto;
    try discriminate.
  congruence.
Qed.

Lemma bind_Ok_l {A B} (a : A) (f : A → result B) : Ok a ≫= f = f a.
Proof. done. Qed.

Lemma is_Ok_Ok {A} (a : A) : is_Ok (Ok a).
Proof. by exists a. Qed.

(** Peel the successful binds of a hypothesis [_ = Ok _]. *)
Ltac inv_ok :=
  repeat match goal with
  | H : Ok _ = Ok _ |- _ => injection H as H; try subst
  | H : Raise _ = Ok _ |- _ => discriminate H
  | H : OutOfFuel = Ok _ |- _ => discriminate H
  | H : _ ≫= _ = Ok _ |- _ =>
      let a := fresh "a" in
      let E := fresh "E" in
      apply bind_Ok in H as [a [E H]]
  | H : mret _ = Ok _ |- _ => injection H as H; try subst
  | H : Next _ = Break _ |- _ => discriminate H
  | H : Break _ = Next _ |- _ => discriminate H
  | H : Next _ = Next _ |- _ => injection H as H; try subst
  | H : Break _ = Break _ |- _ => injection H as H; try subst
  end.

(** ** Loop rules *)

Section loop_rules.
Context {S : Type}.

(** Partial correctness of [while] from an invariant. *)
Lemma while_inv (P Q : S → Prop) (cond : S → bool)
    (body : S → result (flow S)) :
  (∀ st, P st → cond st = false → Q st) →
  (∀ st st', P st → cond st = true → body st = Ok (Next st') → P st') →
  (∀ st st', P st → cond st = true → body st = Ok (Break st') → Q st') →
  ∀ fuel st st', P st → while fuel cond body st = Ok st' → Q st'.
Proof.
  intros Hexit Hnext Hbreak fuel.
  induction fuel as [|fuel IH]; intros st st' HP Hrun; simpl in Hrun.
  - discriminate.
  - destruct (cond st) eqn:Hc.
    + apply bind_Ok in Hrun as [[st1|st1] [Hb Hrun]].
      * eapply IH; [|exact Hrun]. eauto.
      * injection Hrun as <-. eauto.
    + injection Hrun as <-. eauto.
Qed.

(** Termination of [while] from a measure that each pass decreases,
    when the body does not raise. *)
Lemma while_total (P : S → Prop) (measure : S → nat) (cond : S → bool)
    (body : S → result (flow S)) :
  (∀ st, P st → cond st = true →
     ∃ r, body st = Ok r ∧
          match r with
          | Next st' => P st' ∧ (measure st' < measure st)%nat
          | Break _ => True
          end) →
  ∀ fuel st, P st → (measure st < fuel)%nat →
    is_Ok (while fuel cond body st).
Proof.
  intros Hbody fuel.
  induction fuel as [|fuel IH]; intros st HP Hm; [lia|]. simpl.
  destruct (cond st) eqn:Hc; [|apply is_Ok_Ok].
  destruct (Hbody st HP Hc) as [[st'|st'] [-> Hr]]; simpl.
  - destruct Hr as [HP' Hlt]. apply IH; [done|lia].
  - apply is_Ok_Ok.
Qed.

(** [while] does not run out of fuel when each pass that goes on
    decreases a measure that the fuel exceeds. *)
Lemma while_terminates (P : S → Prop) (measure : S → nat) (cond : S → bool)
    (body : S → result (flow S)) :
  (∀ st, P st → cond st = true →
     match body st with
     | Ok (Next st') => P st' ∧ (measure st' < measure st)%nat
     | Ok (Break _) | Raise _ => True
     | OutOfFuel => False
     end) →
  ∀ fuel st, P st → (measure st < fuel)%nat →
    terminates (while fuel cond body st).
Proof.
  intros Hbody fuel.
  induction fuel as [|fuel IH]; intros st HP Hm; [lia|]. simpl.
  destruct (cond st) eqn:Hc; [|done].
  specialize (Hbody st HP Hc).
  destruct (body st) as [[st'|st']| |]; simpl; try done.
  destruct Hbody as [HP' Hlt]. apply IH; [done|lia].
Qed.

Lemma for_in_terminates {X} (body : X → S → result (flow S))
    (xs : list X) :
  (∀ x st, x ∈ xs → terminates (body x st)) →
  ∀ st, terminates (for_in xs body st).
Proof.
  induction xs as [|x xs IH]; intros Hbody st; simpl; [done|].
  pose proof (Hbody x st (list_elem_of_here _ _)) as Hx.
  destruct (body x st) as [[st'|st']| |]; simpl; try done.
  apply IH. intros y st1 Hy. apply Hbody. by right.
Qed.

(** Partial correctness of [for ... in] from an invariant indexed by
    the items still to visit. *)
Lemma for_in_inv {X} (P : list X → S → Prop) (Q : S → Prop)
    (body : X → S → result (flow S)) :
  (∀ st, P [] st → Q st) →
  (∀ x xs st st', P (x :: xs) st → body x st = Ok (Next st') → P xs st') →
  (∀ x xs st st', P (x :: xs) st → body x st = Ok (Break st') → Q st') →
  ∀ xs st st', P xs st → for_in xs body st = Ok st' → Q st'.
Proof.
  intros Hexit Hnext Hbreak xs.
  induction xs as [|x xs IH]; intros st st' HP Hrun; simpl in Hrun.
  - injection Hrun as <-. eauto.
  - apply bind_Ok in Hrun as [[st1|st1] [Hb Hrun]].
    + eapply IH; [|exact Hrun]. eauto.
    + injection Hrun as <-. eauto.
Qed.

(** [for ... in] finishes when the body does not raise. *)
Lemma for_in_total {X} (P : S → Prop) (body : X → S → result (flow S))
    (xs : list X) :
  (∀ x st, x ∈ xs → P st →
     ∃ r, body x st = Ok r ∧
          match r with Next st' => P st' | Break _ => True end) →
  ∀ st, P st → is_Ok (for_in xs body st).
Proof.
  induction xs as [|x xs IH]; intros Hbody st HP; simpl.
  - apply is_Ok_Ok.
  - destruct (Hbody x st) as [[st'|st'] [-> Hr]]; [left|done| |]; simpl.
    + apply IH; [|done]. intros y st1 Hy. apply Hbody. by right.
    + apply is_Ok_Ok.
Qed.
End loop_rules.

(** ** Python list primitives at natural indices *)

Section py_facts.
Context {A : Type}.
Implicit Types (l : list A) (k : nat).

Lemma norm_index_nat n k :
  Py.norm_index n (Z.of_nat k) = if decide (k < n)%nat then Some k else None.
Proof.
  unfold Py.norm_index.
  repeat case_bool_decide; case_decide; try lia; try done.
  by rewrite Nat2Z.id.
Qed.

Lemma getitem_nat l k :
  Py.getitem l (Z.of_nat k) =
    match l !! k with Some x => Ok x | None => Raise IndexError end.
Proof.
  unfold Py.getitem. rewrite norm_index_nat. case_decide; [done|].
  by rewrite lookup_ge_None_2 by lia.
Qed.

Lemma setitem_nat l k v :
  Py.setitem l (Z.of_nat k) v =
    if decide (k < length l)%nat then Ok (<[k:=v]> l) else Raise IndexError.
Proof. unfold Py.setitem. rewrite norm_index_nat. by case_decide. Qed.

Lemma slice_from_nat l k : Py.slice_from l (Z.of_nat k) = drop k l.
Proof.
  unfold Py.slice_from. rewrite bool_decide_true by lia.
  by rewrite Nat2Z.id.
Qed.
End py_facts.

(** ** Marking a cell *)

Section truth_facts.
Implicit Types (tm : list (list bool)) (r c : nat).

Lemma set_true_nat tm r c tm' :
  set_true tm (Z.of_nat r) (Z.of_nat c) = Ok tm' ↔
  ∃ row, tm !! r = Some row ∧ (c < length row)%nat ∧
         tm' = <[r := <[c := true]> row]> tm.
Proof.
  unfold set_true. rewrite getitem_nat. split.
  - destruct (tm !! r) as [row|] eqn:Hr; simpl; [|discriminate].
    rewrite setitem_nat. case_decide; simpl; [|discriminate].
    rewrite setitem_nat. pose proof (lookup_lt_Some _ _ _ Hr).
    case_decide; [|lia]. intros [= <-]. eauto.
  - intros (row & Hr & Hc & ->). rewrite Hr. simpl.
    rewrite setitem_nat, decide_True by done. simpl.
    apply lookup_lt_Some in Hr. by rewrite setitem_nat, decide_True.
Qed.

Lemma marked_insert tm r c row r' c' :
  tm !! r = Some row → (c < length row)%nat →
  marked (<[r := <[c := true]> row]> tm) r' c' = true ↔
  marked tm r' c' = true ∨ (r' = r ∧ c' = c).
Proof.
  intros Hr Hc. unfold marked.
  destruct (decide (r' = r)) as [->|Hne].
  - rewrite list_lookup_insert_eq by (by eapply lookup_lt_Some).
    rewrite Hr. destruct (decide (c' = c)) as [->|Hnc].
    + rewrite list_lookup_insert_eq by done. simpl. split; auto.
    + rewrite list_lookup_insert_ne by done.
      split; [auto|]. by intros [?|[_ ?]].
  - rewrite list_lookup_insert_ne by done.
    split; [auto|]. by intros [?|[? _]].
Qed.

Lemma shape_insert tm r c row :
  tm !! r = Some row →
  shape (<[r := <[c := true]> row]> tm) = shape tm.
Proof.
  intros Hr. unfold shape. rewrite list_fmap_insert, length_insert.
  apply list_insert_id. by rewrite list_lookup_fmap, Hr.
Qed.

Lemma shape_lookup {A} (m : list (list A)) r n :
  shape m !! r = Some n ↔ ∃ row, m !! r = Some row ∧ length row = n.
Proof.
  unfold shape. rewrite list_lookup_fmap.
  destruct (m !! r) as [row|]; simpl; split.
  - intros [= <-]. by exists row.
  - by intros (row' & [= <-] & <-).
  - done.
  - by intros (row' & ? & _).
Qed.
End truth_facts.

(** ** The inner loop: marking the cells of one token *)

Section mark_token_facts.
Context {char : Type} `{!EqDecision char}.
Implicit Types (charRow : list (list char)) (token : list char).
Implicit Types (tm : list (list bool)) (r c k n : nat).

Lemma join_take_S charRow k n cell :
  charRow !! (k + n)%nat = Some cell →
  join (take (S n) (drop k charRow)) =
    join (take n (drop k charRow)) ++ cell.
Proof.
  intros Hc. unfold join.
  rewrite (take_S_r _ _ cell) by (by rewrite lookup_drop).
  by rewrite concat_app; simpl; rewrite app_nil_r.
Qed.

Lemma mark_body_inv charRow r tm0 token0 k0 st st' n :
  mark_inv charRow r tm0 token0 k0 st n →
  mark_cond st = true →
  mark_body charRow (Z.of_nat r) st = Ok (Next st') →
  mark_inv charRow r tm0 token0 k0 st' (S n).
Proof.
  destruct st as [[tm token] i], st' as [[tm' token'] i'].
  intros (-> & Hle & -> & Hmin & Hmark & Hshape) Hcond Hbody.
  unfold mark_cond in Hcond. apply negb_true_iff in Hcond.
  apply bool_decide_eq_false in Hcond. unfold Py.len in Hcond.
  rewrite length_drop in Hcond.
  unfold mark_body in Hbody. inv_ok.
  apply set_true_nat in E as (row & Hrow & Hc & ->).
  rewrite getitem_nat in E0.
  destruct (charRow !! (k0 + n)%nat) as [cell|] eqn:Hcell;
    [|discriminate]. injection E0 as <-.
  pose proof (lookup_lt_Some _ _ _ Hcell) as Hlt.
  unfold mark_inv. rewrite (join_take_S _ _ _ cell) by done.
  split_and!.
  - lia.
  - lia.
  - unfold Py.len. by rewrite slice_from_nat, drop_drop, length_app.
  - intros m Hm. destruct (decide (m = n)) as [->|]; [lia|].
    apply Hmin. lia.
  - intros r' c'. rewrite marked_insert by done. rewrite Hmark.
    split; [intros [[?|[? ?]]|[? ?]]|intros [?|[? ?]]]; subst; auto.
    + right. split; [done|lia].
    + right. split; [done|lia].
    + destruct (decide (c' = k0 + n)%nat) as [->|]; [by right|].
      left. right. split; [done|lia].
  - by rewrite shape_insert.
Qed.

(** The inner loop marks a run of [n] cells from the column it starts
    at: the shortest run whose text is at least as long as the token. *)
Lemma mark_token_spec charRow r tm0 token0 k0 tm' i' :
  (k0 ≤ length charRow)%nat →
  mark_token charRow (Z.of_nat r) tm0 token0 (Z.of_nat k0) = Ok (tm', i') →
  ∃ n, i' = Z.of_nat (k0 + n) ∧
       (k0 + n ≤ length charRow)%nat ∧
       (length token0 ≤ length (join (take n (drop k0 charRow))))%nat ∧
       (∀ m, (m < n)%nat →
          (length (join (take m (drop k0 charRow))) < length token0)%nat) ∧
       (∀ r' c', marked tm' r' c' = true ↔
                 marked tm0 r' c' = true ∨
                 (r' = r ∧ (k0 ≤ c' < k0 + n)%nat)) ∧
       shape tm' = shape tm0.
Proof.
  unfold mark_token. intros Hk0 Hrun. inv_ok.
  destruct a as [[tm token] i]. injection Hrun as <- <-.
  revert E.
  apply (while_inv
    (λ st, ∃ n, mark_inv charRow r tm0 token0 k0 st n)
    (λ st, ∃ n, st.2 = Z.of_nat (k0 + n) ∧
       (k0 + n ≤ length charRow)%nat ∧
       (length token0 ≤ length (join (take n (drop k0 charRow))))%nat ∧
       (∀ m, (m < n)%nat →
          (length (join (take m (drop k0 charRow))) < length token0)%nat) ∧
       (∀ r' c', marked st.1.1 r' c' = true ↔
                 marked tm0 r' c' = true ∨
                 (r' = r ∧ (k0 ≤ c' < k0 + n)%nat)) ∧
       shape st.1.1 = shape tm0)).
  - intros [[tm1 token1] i1] [n (-> & Hle & -> & Hmin & Hmark & Hshape)] Hc.
    unfold mark_cond in Hc. apply negb_false_iff in Hc.
    apply bool_decide_eq_true in Hc. unfold Py.len in Hc.
    rewrite length_drop in Hc. exists n. simpl. split_and!; auto. lia.
  - intros st st' [n Hinv] Hc Hb. exists (S n). by eapply mark_body_inv.
  - intros [[tm1 token1] i1] st' _ _ Hb. unfold mark_body in Hb.
    inv_ok.
  - exists 0%nat. unfold mark_inv. simpl.
    split_and!; auto; try lia.
    intros r' c'. split; [auto|]. intros [?|[_ ?]]; [done|lia].
Qed.
End mark_token_facts.

(** ** One pass of the outer loop *)

Section highlightRow_body_facts.
Context {char : Type} `{!EqDecision char}.
Implicit Types (charRow : list (list char)) (token : list char).
Implicit Types (tokens rest : list (list char)).
Implicit Types (tm : list (list bool)) (r c k n : nat).

Lemma prefix_of_app_short {A} (l a b : list A) :
  l `prefix_of` a ++ b → (length l ≤ length a)%nat → l `prefix_of` a.
Proof.
  intros Hl Hlen.
  destruct (prefix_weak_total l a (a ++ b)) as [?|Ha];
    [done|by apply prefix_app_r|done|].
  by rewrite (prefix_length_eq _ _ Ha Hlen).
Qed.

Lemma join_take_drop charRow n :
  join charRow = join (take n charRow) ++ join (drop n charRow).
Proof. unfold join. by rewrite <-concat_app, take_drop. Qed.

Lemma getitem_head tokens token rest :
  tokens = token :: rest → Py.getitem tokens 0 = Ok token.
Proof. intros ->. change 0 with (Z.of_nat 0). by rewrite getitem_nat. Qed.

Lemma slice_from_tail tokens token rest :
  tokens = token :: rest → Py.slice_from tokens 1 = rest.
Proof. intros ->. change 1 with (Z.of_nat 1). by rewrite slice_from_nat. Qed.

(** A pass that does not [break] either finds no match at column [k]
    and moves one cell on, or marks the shortest run of cells from [k]
    that holds the token, drops the token, and resumes after the run:
    right after it without [forceSpace], one cell further with it. *)
Lemma highlightRow_body_step charRow r forceSpace tm token rest k st' :
  (k < length charRow)%nat →
  highlightRow_body charRow (Z.of_nat r) forceSpace
    (tm, token :: rest, Z.of_nat k) = Ok (Next st') →
  (startswith (join (drop k charRow)) token = false ∧
   st' = (tm, token :: rest, Z.of_nat (k + 1)))
  ∨
  (∃ n tm',
     row_covers charRow token k n ∧
     st' = (tm', rest,
            Z.of_nat (k + n + (if forceSpace then 1 else 0))) ∧
     (∀ r' c', marked tm' r' c' = true ↔
               marked tm r' c' = true ∨
               (r' = r ∧ (k ≤ c' < k + n)%nat)) ∧
     shape tm' = shape tm).
Proof.
  intros Hk. unfold highlightRow_body.
  rewrite bool_decide_false by (unfold Py.len; simpl; lia).
  rewrite (getitem_head _ token rest) by done. simpl.
  rewrite slice_from_nat.
  destruct (startswith (join (drop k charRow)) token) eqn:Hs.
  - intros Hrun. right. inv_ok. destruct a as [tm' i'].
    apply mark_token_spec in E as (n & -> & Hle & Hlen & Hmin & Hmark & Hsh);
      [|lia].
    apply bool_decide_eq_true in Hs.
    exists n, tm'. split_and!; try done.
    + split_and!; try done.
      apply (prefix_of_app_short _ _ (join (drop n (drop k charRow))));
        [|done].
      by rewrite <-join_take_drop.
    + injection Hrun as <-.
      rewrite (slice_from_tail _ token rest) by done.
      do 2 f_equal. destruct forceSpace; simpl; lia.
  - intros [= <-]. left. split; [done|]. do 2 f_equal. lia.
Qed.
End highlightRow_body_facts.

(** ** The outer loop: the tokens of one row *)

Section highlightRow_facts.
Context {char : Type} `{!EqDecision char}.
Implicit Types (charRow : list (list char)) (token : list char).
Implicit Types (tokens rest : list (list char)).
Implicit Types (tm : list (list bool)) (r c k n : nat).

Lemma marks_refl tm : marks tm tm [].
Proof.
  split; [|done]. intros r c. split; [auto|].
  intros [?|(sp & Hsp & _)]; [done|]. by apply elem_of_nil in Hsp.
Qed.

(** Marking one more span. *)
Lemma marks_snoc tm0 tm tm' spans r k n :
  marks tm0 tm spans →
  (∀ r' c', marked tm' r' c' = true ↔
            marked tm r' c' = true ∨ (r' = r ∧ (k ≤ c' < k + n)%nat)) →
  shape tm' = shape tm →
  marks tm0 tm' (spans ++ [{| sp_row := r; sp_start := k; sp_len := n |}]).
Proof.
  intros [Hm Hs] Hm' Hs'. split; [|congruence].
  intros r' c'. rewrite Hm', Hm. split.
  - intros [[?|(sp & Hsp & Hin)]|Hnew]; [by left| |].
    + right. exists sp. split; [|done]. apply elem_of_app. by left.
    + right. eexists. split; [apply elem_of_app; right; by left|].
      done.
  - intros [?|(sp & Hsp & Hin)]; [by left; left|].
    apply elem_of_app in Hsp as [Hsp|Hsp].
    + left. right. by exists sp.
    + apply list_elem_of_singleton in Hsp as ->. by right.
Qed.

(** Marking the spans of a further row. *)
Lemma marks_app tm0 tm tm' spans spans' :
  marks tm0 tm spans → marks tm tm' spans' → marks tm0 tm' (spans ++ spans').
Proof.
  intros [Hm Hs] [Hm' Hs']. split; [|congruence].
  intros r c. rewrite Hm', Hm. split.
  - intros [[?|(sp & Hsp & Hin)]|(sp & Hsp & Hin)]; [by left| |];
      right; exists sp; (split; [|done]); apply elem_of_app; auto.
  - intros [?|(sp & [Hsp|Hsp]%elem_of_app & Hin)];
      [by left; left|left; right|right]; by exists sp.
Qed.

Lemma row_inv_step charRow r forceSpace tm0 tokens0 st st' :
  row_inv charRow r tm0 tokens0 st →
  highlightRow_cond charRow st = true →
  highlightRow_body charRow (Z.of_nat r) forceSpace st = Ok (Next st') →
  row_inv charRow r tm0 tokens0 st'.
Proof.
  destruct st as [[tm tokens] i].
  intros (consumed & spans & k & -> & -> & Hcov & Hsort & Hend & Hmarks).
  unfold highlightRow_cond. intros Hk%bool_decide_eq_true.
  unfold Py.len in Hk. intros Hbody.
  destruct tokens as [|token rest]; [discriminate|].
  apply highlightRow_body_step in Hbody
    as [[_ ->]|(n & tm' & Hrc & -> & Hm' & Hs')]; [| |lia].
  - exists consumed, spans, (k + 1)%nat. split_and!; try done.
    eapply Forall_impl; [exact Hend|]. simpl. intros sp [? ?].
    split; [done|lia].
  - set (sp := {| sp_row := r; sp_start := k; sp_len := n |}).
    exists (consumed ++ [token]), (spans ++ [sp]),
      (k + n + (if forceSpace then 1 else 0))%nat.
    split_and!.
    + done.
    + by rewrite <-app_assoc.
    + apply Forall2_app; [done|]. constructor; [by split|constructor].
    + apply StronglySorted_app_2; [|done|repeat constructor].
      intros sp1 sp2 H1 ->%list_elem_of_singleton.
      rewrite Forall_forall in Hend. destruct (Hend _ H1) as [? ?].
      right. simpl. split; [done|lia].
    + apply Forall_app. split.
      * eapply Forall_impl; [exact Hend|]. simpl. intros ? [? ?].
        split; [done|lia].
      * repeat constructor. simpl. lia.
    + by eapply marks_snoc.
Qed.

(** [highlightRow] removes tokens from the head of the list, each
    covered by a span of row [row]; the spans run left to right without
    overlap and are what the call has marked. *)
Lemma highlightRow_spec charRow r tm0 tokens0 forceSpace tm' consumed :
  highlightRow charRow (Z.of_nat r) tm0 tokens0 forceSpace
    = Ok (tm', consumed) →
  ∃ rest,
    row_post charRow r tm0 tokens0 tm' rest ∧
    (length rest ≤ length tokens0)%nat ∧
    consumed = Z.of_nat (length tokens0 - length rest).
Proof.
  unfold highlightRow. intros Hrun. inv_ok.
  destruct a as [[tm tokens] i]. injection Hrun as <- <-.
  exists tokens.
  assert (row_post charRow r tm0 tokens0 tm tokens) as Hpost.
  { revert E.
    apply (while_inv (row_inv charRow r tm0 tokens0)
             (λ st, row_post charRow r tm0 tokens0 st.1.1 st.1.2)).
    - intros [[tm1 tokens1] i1]
        (cs & spans & k & _ & -> & Hcov & Hsort & _ & Hmarks) _.
      by exists cs, spans.
    - intros st st'. apply row_inv_step.
    - intros [[tm1 tokens1] i1] st'
        (cs & spans & k & _ & -> & Hcov & Hsort & _ & Hmarks) _ Hb.
      unfold highlightRow_body in Hb. case_bool_decide.
      + inv_ok. by exists cs, spans.
      + inv_ok. destruct (startswith _ _); inv_ok.
        destruct a0. inv_ok.
    - exists [], [], 0%nat.
      split_and!;
        [done|done|constructor|constructor|constructor|apply marks_refl]. }
  split; [done|]. destruct Hpost as (cs & spans & -> & _).
  rewrite length_app. split; [lia|]. unfold Py.len.
  rewrite length_app. lia.
Qed.
End highlightRow_facts.

(** ** The loop over the rows *)

Section highlight_facts.
Context {char : Type} `{!EqDecision char}.
Implicit Types (charMatrix : list (list (list char))).
Implicit Types (tokens rest : list (list char)).
Implicit Types (tm : list (list bool)) (r c k n : nat).

Lemma range_sorted (m len : Z) :
  StronglySorted Z.lt (seqZ m len) ∧ Forall (λ x, m ≤ x) (seqZ m len).
Proof.
  remember (Z.to_nat len) as j eqn:Hj. revert m len Hj.
  induction j as [|j IH]; intros m n Hj.
  - rewrite seqZ_nil by lia. split; constructor.
  - rewrite seqZ_cons by lia.
    destruct (IH (Z.succ m) (Z.pred n)) as [Hs Hf]; [lia|].
    split.
    + constructor; [done|]. eapply Forall_impl; [exact Hf|].
      simpl. intros. lia.
    + constructor; [lia|]. eapply Forall_impl; [exact Hf|].
      simpl. intros. lia.
Qed.

Lemma Forall2_elem_of_r {A B} (P : A → B → Prop)
    (l : list A) (l' : list B) y :
  Forall2 P l l' → y ∈ l' → ∃ x, x ∈ l ∧ P x y.
Proof.
  intros HF (i & Hi)%list_elem_of_lookup.
  destruct (Forall2_lookup_r _ _ _ _ _ HF Hi) as (x & Hx & HP).
  exists x. split; [|done]. apply list_elem_of_lookup. eauto.
Qed.

Lemma grid_inv_step charMatrix forceSpace tm0 tokens0 x xs st st' :
  grid_inv charMatrix tm0 tokens0 (x :: xs) st →
  highlight_body charMatrix forceSpace x st = Ok (Next st') →
  grid_inv charMatrix tm0 tokens0 xs st'.
Proof.
  destruct st as [tm tokens].
  intros (Hrows & Hpos & cs & spans & -> & Hcov & Hsort & Hbound & Hmarks).
  apply StronglySorted_cons in Hrows as [Hx Hrows].
  apply Forall_cons in Hpos as [Hx0 Hpos].
  unfold highlight_body. case_bool_decide; [intros; inv_ok|].
  intros Hb. inv_ok. destruct a0 as [tm' consumed]. inv_ok.
  rewrite <-(Z2Nat.id x) in E, E0 by done.
  set (r := Z.to_nat x) in *.
  rewrite getitem_nat in E.
  destruct (charMatrix !! r) as [charRow|] eqn:Hrow; [|discriminate].
  injection E as <-.
  apply highlightRow_spec in E0
    as (rest & (cs' & spans' & -> & Hcov' & Hsort' & Hmarks') & _ & ->).
  split; [done|]. split; [done|].
  exists (cs ++ cs'), (spans ++ spans').
  assert (∀ sp, sp ∈ spans' → sp_row sp = r) as Hrow'.
  { intros sp Hsp.
    by destruct (Forall2_elem_of_r _ _ _ _ Hcov' Hsp) as (? & _ & ? & _). }
  split_and!.
  - rewrite slice_from_nat, length_app, Nat.add_sub, drop_app_length.
    by rewrite <-app_assoc.
  - apply Forall2_app; [done|].
    eapply Forall2_impl; [exact Hcov'|]. intros tok sp [Hr Hc].
    exists charRow. by rewrite Hr.
  - apply StronglySorted_app_2; [|done|done].
    intros sp1 sp2 H1 H2. left.
    rewrite Forall_forall in Hbound.
    pose proof (Hbound _ H1) as Hb1. apply Forall_cons in Hb1 as [Hb1 _].
    rewrite (Hrow' _ H2). unfold r. lia.
  - apply Forall_app. split.
    + eapply Forall_impl; [exact Hbound|]. simpl.
      by intros sp [_ ?]%Forall_cons.
    + apply Forall_forall. intros sp Hsp. rewrite (Hrow' _ Hsp).
      eapply Forall_impl; [exact Hx|]. simpl. unfold r. intros. lia.
  - by eapply marks_app.
Qed.

(** The row loop removes tokens from the head of the list, each covered
    by a span, in row-major order; the spans are what the loop has
    marked. *)
Lemma highlight_loop_spec height charMatrix forceSpace tm0 tokens0 st' :
  for_in (Py.range height) (highlight_body charMatrix forceSpace)
    (tm0, tokens0) = Ok st' →
  grid_post charMatrix tm0 tokens0 st'.
Proof.
  apply (for_in_inv (grid_inv charMatrix tm0 tokens0)
           (grid_post charMatrix tm0 tokens0)).
  - intros [tm tokens] (_ & _ & cs & spans & -> & ? & ? & _ & ?).
    by exists cs, spans.
  - intros x xs st st1. apply grid_inv_step.
  - intros x xs [tm tokens] st1
      (_ & _ & cs & spans & -> & ? & ? & _ & ?) Hb.
    unfold highlight_body in Hb. case_bool_decide.
    + inv_ok. by exists cs, spans.
    + inv_ok. destruct a0. inv_ok.
  - destruct (range_sorted 0 height) as [Hs Hf].
    split; [done|]. split; [done|].
    exists [], []. split_and!; [done|constructor|constructor|constructor|].
    apply marks_refl.
Qed.

Lemma highlight_covers height charMatrix tm tokens forceSpace :
  covers_in_order height charMatrix tm tokens forceSpace.
Proof.
  intros tm'. unfold highlight. intros Hrun. inv_ok.
  destruct a as [tm1 rest]. injection Hrun as <- Hrest.
  apply bool_decide_eq_true in Hrest. unfold Py.len in Hrest.
  destruct rest; [|simpl in Hrest; lia].
  apply highlight_loop_spec in E as (cs & spans & -> & Hcov & Hsort & Hm).
  rewrite app_nil_r. exists spans. split_and!; [done|done|apply Hm].
Qed.
End highlight_facts.

(** ** The fuel of the loops is enough *)

Section termination.
Context {char : Type} `{!EqDecision char}.
Implicit Types (charRow : list (list char)) (token : list char).
Implicit Types (charMatrix : list (list (list char))).
Implicit Types (tokens rest : list (list char)).
Implicit Types (tm : list (list bool)) (r c k n : nat).

Lemma getitem_terminates {A} (l : list A) i : terminates (Py.getitem l i).
Proof.
  unfold Py.getitem. destruct (Py.norm_index _ _) as [j|]; [|done].
  by destruct (l !! j).
Qed.

Lemma set_true_terminates tm row i : terminates (set_true tm row i).
Proof.
  unfold set_true, Py.getitem, Py.setitem.
  destruct (Py.norm_index (length tm) row) as [j|]; [|done].
  destruct (tm !! j) as [rw|]; [|done]. simpl.
  by destruct (Py.norm_index (length rw) i).
Qed.

Lemma mark_token_terminates charRow r tm token k :
  terminates (mark_token charRow (Z.of_nat r) tm token (Z.of_nat k)).
Proof.
  unfold mark_token.
  assert (terminates (while (S (2 * length charRow)) mark_cond
                        (mark_body charRow (Z.of_nat r))
                        (tm, token, Z.of_nat k))) as Hw.
  { apply (while_terminates
      (λ '(_, _, i1), ∃ k1, i1 = Z.of_nat k1)
      (λ '(_, _, i1), length charRow - Z.to_nat i1)%nat).
    - intros [[tm1 tok1] i1] [k1 ->] _. unfold mark_body.
      pose proof (set_true_terminates tm1 (Z.of_nat r) (Z.of_nat k1)) as Hs.
      destruct (set_true tm1 _ _) as [tm2| |]; simpl; try done.
      rewrite getitem_nat.
      destruct (charRow !! k1) as [cell|] eqn:Hcell; simpl; [|done].
      apply lookup_lt_Some in Hcell.
      split; [exists (S k1); lia|lia].
    - by exists k.
    - lia. }
  by destruct (while _ _ _ _) as [[[? ?] ?]| |].
Qed.

Lemma highlightRow_terminates charRow r tm tokens forceSpace :
  terminates (highlightRow charRow (Z.of_nat r) tm tokens forceSpace).
Proof.
  unfold highlightRow.
  assert (terminates (while (S (length charRow + length tokens))
                        (highlightRow_cond charRow)
                        (highlightRow_body charRow (Z.of_nat r) forceSpace)
                        (tm, tokens, 0))) as Hw.
  { apply (while_terminates
      (λ '(_, _, i1), ∃ k1, i1 = Z.of_nat k1)
      (λ '(_, toks1, i1),
         (length charRow - Z.to_nat i1) + length toks1)%nat).
    - intros [[tm1 toks1] i1] [k1 ->] Hc.
      unfold highlightRow_cond in Hc. apply bool_decide_eq_true in Hc.
      unfold Py.len in Hc.
      destruct toks1 as [|token rest]; [done|].
      unfold highlightRow_body.
      rewrite bool_decide_false by (unfold Py.len; simpl; lia).
      rewrite (getitem_head _ token rest) by done. simpl.
      rewrite (slice_from_tail _ token rest) by done.
      destruct (startswith _ token).
      + pose proof (mark_token_terminates charRow r tm1 token k1) as Ht.
        destruct (mark_token charRow _ tm1 token _) as [[tm2 i2]| |] eqn:Hmt;
          simpl; try done.
        apply mark_token_spec in Hmt as (n & -> & _); [|lia].
        split.
        * exists (k1 + n + (if forceSpace then 1 else 0))%nat.
          destruct forceSpace; simpl; lia.
        * destruct forceSpace; simpl; lia.
      + simpl. split; [exists (k1 + 1)%nat; lia|lia].
    - by exists 0%nat.
    - simpl. lia. }
  by destruct (while _ _ _ _) as [[[? ?] ?]| |].
Qed.

(** [highlight] returns or raises, whatever the grids. *)
Lemma highlight_terminates height charMatrix tm tokens forceSpace :
  terminates (highlight height charMatrix tm tokens forceSpace).
Proof.
  unfold highlight.
  assert (terminates (for_in (Py.range height)
                        (highlight_body charMatrix forceSpace)
                        (tm, tokens))) as Hw.
  { apply for_in_terminates. intros x [tm1 toks1] Hx.
    unfold Py.range in Hx. apply elem_of_seqZ in Hx.
    unfold highlight_body. case_bool_decide; [done|].
    pose proof (getitem_terminates charMatrix x) as Hg.
    destruct (Py.getitem charMatrix x) as [charRow| |]; simpl; try done.
    rewrite <-(Z2Nat.id x) by lia.
    pose proof (highlightRow_terminates charRow (Z.to_nat x) tm1 toks1
                  forceSpace) as Ht.
    by destruct (highlightRow _ _ _ _ _) as [[? ?]| |]. }
  by destruct (for_in _ _ _) as [[? ?]| |].
Qed.
End termination.

(** ** The highlighter returns on a well-formed grid *)

Section totality.
Context {char : Type} `{!EqDecision char}.
Implicit Types (charRow : list (list char)) (token : list char).
Implicit Types (charMatrix : list (list (list char))).
Implicit Types (tokens rest : list (list char)).
Implicit Types (tm : list (list bool)) (r c k n w : nat).

Lemma prefix_drop_app {A} (l a b : list A) :
  l `prefix_of` a ++ b → drop (length a) l `prefix_of` b.
Proof.
  revert l. induction a as [|x a IH]; intros l Hl; [done|].
  destruct l as [|y l]; simpl; [apply prefix_nil|].
  apply IH. by eapply prefix_cons_inv_2.
Qed.

Lemma join_drop_cons charRow k cell :
  charRow !! k = Some cell →
  join (drop k charRow) = cell ++ join (drop (S k) charRow).
Proof. intros Hc. by rewrite (drop_S _ _ _ Hc). Qed.

Lemma prefix_join_drop_lt charRow k token :
  token ≠ [] → token `prefix_of` join (drop k charRow) →
  (k < length charRow)%nat.
Proof.
  intros Hne Hp. destruct (decide (k < length charRow)%nat); [done|].
  rewrite drop_ge in Hp by lia. by apply prefix_nil_inv in Hp.
Qed.

Lemma mark_token_total charRow r tm token k :
  row_wide tm r charRow →
  token `prefix_of` join (drop k charRow) →
  is_Ok (mark_token charRow (Z.of_nat r) tm token (Z.of_nat k)).
Proof.
  intros Hw Hp. unfold mark_token.
  assert (is_Ok (while (S (2 * length charRow)) mark_cond
                   (mark_body charRow (Z.of_nat r))
                   (tm, token, Z.of_nat k))) as [[[tm1 tok1] i1] ->];
    [|apply is_Ok_Ok].
  apply (while_total
    (λ '(tm1, tok1, i1), ∃ k1,
       i1 = Z.of_nat k1 ∧ row_wide tm1 r charRow ∧
       tok1 `prefix_of` join (drop k1 charRow))
    (λ '(_, _, i1), length charRow - Z.to_nat i1)%nat).
  - intros [[tm1 tok1] i1] (k1 & -> & (w & Hw1 & Hlen) & Hp1) Hc.
    unfold mark_cond in Hc. apply negb_true_iff in Hc.
    apply bool_decide_eq_false in Hc.
    assert (tok1 ≠ []) as Hne by (intros ->; by apply Hc).
    pose proof (prefix_join_drop_lt _ _ _ Hne Hp1) as Hlt.
    destruct (lookup_lt_is_Some_2 charRow k1 Hlt) as [cell Hcell].
    apply shape_lookup in Hw1 as (row & Hrow & <-).
    eexists. split.
    + unfold mark_body.
      erewrite (proj2 (set_true_nat tm1 r k1 _)); simpl.
      2:{ exists row. split_and!; [done|lia|done]. }
      by rewrite getitem_nat, Hcell.
    + simpl. split; [|lia]. exists (S k1). split_and!.
      * lia.
      * exists (length row). rewrite shape_insert by done.
        split; [|done]. apply shape_lookup. eauto.
      * unfold Py.len. rewrite slice_from_nat.
        apply prefix_drop_app. by rewrite <-join_drop_cons.
  - by exists k.
  - lia.
Qed.

Lemma highlightRow_total charRow r tm tokens forceSpace :
  row_wide tm r charRow →
  is_Ok (highlightRow charRow (Z.of_nat r) tm tokens forceSpace).
Proof.
  intros Hw. unfold highlightRow.
  assert (is_Ok (while (S (length charRow + length tokens))
                   (highlightRow_cond charRow)
                   (highlightRow_body charRow (Z.of_nat r) forceSpace)
                   (tm, tokens, 0))) as [[[tm1 toks1] i1] ->];
    [|apply is_Ok_Ok].
  apply (while_total
    (λ '(tm1, _, i1), ∃ k1, i1 = Z.of_nat k1 ∧ row_wide tm1 r charRow)
    (λ '(_, toks1, i1),
       (length charRow - Z.to_nat i1) + length toks1)%nat).
  - intros [[tm1 toks1] i1] (k1 & -> & Hw1) Hc.
    unfold highlightRow_cond in Hc. apply bool_decide_eq_true in Hc.
    unfold Py.len in Hc.
    destruct toks1 as [|token rest]; [by eexists|].
    destruct (startswith (join (drop k1 charRow)) token) eqn:Hs.
    + destruct (mark_token_total charRow r tm1 token k1 Hw1)
        as [[tm2 i2] Hmt]; [by apply bool_decide_eq_true in Hs|].
      pose proof Hmt as Hspec.
      apply mark_token_spec in Hspec
        as (n & -> & _ & _ & _ & _ & Hsh); [|lia].
      eexists. split.
      * unfold highlightRow_body.
        rewrite bool_decide_false by (unfold Py.len; simpl; lia).
        rewrite (getitem_head _ token rest) by done. simpl.
        rewrite slice_from_nat, Hs, Hmt. simpl. reflexivity.
      * simpl. split.
        -- exists (k1 + n + (if forceSpace then 1 else 0))%nat.
           split; [destruct forceSpace; simpl; lia|].
           destruct Hw1 as (w & ? & ?). exists w. by rewrite Hsh.
        -- rewrite (slice_from_tail _ token rest) by done.
           destruct forceSpace; simpl; lia.
    + eexists. split.
      * unfold highlightRow_body.
        rewrite bool_decide_false by (unfold Py.len; simpl; lia).
        rewrite (getitem_head _ token rest) by done. simpl.
        rewrite slice_from_nat, Hs. reflexivity.
      * simpl. split; [|lia]. exists (k1 + 1)%nat. split; [lia|done].
  - by exists 0%nat.
  - simpl. lia.
Qed.

Lemma highlight_total height charMatrix tm tokens forceSpace :
  grid_ok height charMatrix tm →
  is_Ok (highlight height charMatrix tm tokens forceSpace).
Proof.
  intros Hok. unfold highlight.
  assert (is_Ok (for_in (Py.range height)
                   (highlight_body charMatrix forceSpace) (tm, tokens)))
    as [[tm1 toks1] ->]; [|apply is_Ok_Ok].
  apply (for_in_total (λ '(tm1, _), shape tm1 = shape tm)); [|done].
  intros x [tm1 toks1] Hx Hsh.
  unfold Py.range in Hx. apply elem_of_seqZ in Hx.
  unfold highlight_body. case_bool_decide; [by eexists|].
  rewrite <-(Z2Nat.id x) by lia. set (r := Z.to_nat x).
  destruct (Hok r) as (charRow & Hrow & (w & Hw & Hlen)); [unfold r; lia|].
  rewrite getitem_nat, Hrow. simpl.
  destruct (highlightRow_total charRow r tm1 toks1 forceSpace)
    as [[tm2 consumed] Hr]; [exists w; by rewrite Hsh|].
  rewrite Hr. simpl. eexists. split; [done|]. simpl.
  apply highlightRow_spec in Hr as (_ & (_ & _ & _ & _ & _ & _ & ?) & _).
  congruence.
Qed.
End totality.

(** ** Tokens that end at a cell boundary *)

Section cell_boundary.
Context {char : Type} `{!EqDecision char}.
Implicit Types (charRow : list (list char)) (token : list char).
Implicit Types (charMatrix : list (list (list char))).

Lemma join_length_unit (cells : list (list char)) :
  Forall (λ cell, length cell = 1%nat) cells →
  length (join cells) = length cells.
Proof.
  induction 1 as [|cell cells Hc _ IH]; [done|].
  unfold join in *. simpl. rewrite length_app. lia.
Qed.

(** Where every cell holds one character a covering span spells its
    token. *)
Lemma row_covers_unit charRow token start len :
  Forall (λ cell, length cell = 1%nat) charRow →
  row_covers charRow token start len →
  join (take len (drop start charRow)) = token.
Proof.
  intros Hunit (_ & Hfit & _ & Hpre & Hmin). symmetry.
  apply prefix_length_eq; [done|].
  assert (∀ m, (m ≤ len)%nat →
            length (join (take m (drop start charRow))) = m) as Hlen.
  { intros m Hm. rewrite join_length_unit.
    - rewrite length_take, length_drop. lia.
    - by apply Forall_take, Forall_drop. }
  rewrite Hlen by done.
  destruct len as [|m]; [lia|].
  specialize (Hmin m). rewrite Hlen in Hmin by lia. lia.
Qed.

Lemma span_covers_unit charMatrix token sp :
  Forall (Forall (λ cell, length cell = 1%nat)) charMatrix →
  span_covers charMatrix token sp → span_spells charMatrix token sp.
Proof.
  intros Hunit (charRow & Hrow & Hc). split.
  - exists charRow. split; [done|]. by destruct Hc as (_ & ? & _).
  - unfold span_text, span_cells. rewrite Hrow.
    eapply row_covers_unit; [|done].
    rewrite Forall_forall in Hunit. apply Hunit.
    apply list_elem_of_lookup. eauto.
Qed.
End cell_boundary.

(** ** Grids with the same marks *)

Lemma marked_ext (tm tm' : list (list bool)) :
  shape tm' = shape tm →
  (∀ r c, marked tm' r c = true ↔ marked tm r c = true) →
  tm' = tm.
Proof.
  intros Hsh Hm. apply list_eq. intros r.
  destruct (tm !! r) as [row|] eqn:Hr.
  - assert (shape tm' !! r = Some (length row)) as Hr'.
    { rewrite Hsh. apply shape_lookup. eauto. }
    apply shape_lookup in Hr' as (row' & Hr' & Hlen).
    rewrite Hr'. f_equal. apply list_eq. intros c.
    specialize (Hm r c). unfold marked in Hm. rewrite Hr, Hr' in Hm.
    destruct (row !! c) as [b|] eqn:Hc.
    + destruct (lookup_lt_is_Some_2 row' c) as [b' Hc'].
      { rewrite Hlen. by eapply lookup_lt_Some. }
      rewrite Hc' in *. simpl in Hm. f_equal.
      by apply eq_true_iff_eq.
    + apply lookup_ge_None. rewrite Hlen. by apply lookup_ge_None.
  - assert (shape tm' !! r = None) as Hr'.
    { rewrite Hsh. unfold shape. by rewrite list_lookup_fmap, Hr. }
    unfold shape in Hr'. rewrite list_lookup_fmap in Hr'.
    by destruct (tm' !! r).
Qed.

(** ** The store of token lists *)

Section sim_rules.
Context {S1 S2 : Type} (R : S1 → S2 → Prop).

Lemma result_rel_bind {A B} (RA : A → B → Prop)
    (m1 : result A) (m2 : result B)
    (f1 : A → result S1) (f2 : B → result S2) :
  result_rel RA m1 m2 →
  (∀ a b, RA a b → result_rel R (f1 a) (f2 b)) →
  result_rel R (m1 ≫= f1) (m2 ≫= f2).
Proof. destruct m1, m2; simpl; try done. auto. Qed.

(** Loops whose tests agree and whose bodies end alike end alike. *)
Lemma while_sim (cond1 : S1 → bool) (cond2 : S2 → bool)
    (body1 : S1 → result (flow S1)) (body2 : S2 → result (flow S2)) :
  (∀ s1 s2, R s1 s2 → cond1 s1 = cond2 s2) →
  (∀ s1 s2, R s1 s2 → cond1 s1 = true →
     result_rel (flow_rel R) (body1 s1) (body2 s2)) →
  ∀ fuel s1 s2, R s1 s2 →
    result_rel R (while fuel cond1 body1 s1) (while fuel cond2 body2 s2).
Proof.
  intros Hcond Hbody fuel.
  induction fuel as [|fuel IH]; intros s1 s2 HR; simpl; [done|].
  rewrite <-(Hcond _ _ HR). destruct (cond1 s1) eqn:Hc; [|done].
  specialize (Hbody _ _ HR Hc).
  destruct (body1 s1) as [[a|a]| |], (body2 s2) as [[b|b]| |];
    simpl in *; try done.
  by apply IH.
Qed.

Lemma for_in_sim {X} (xs : list X)
    (body1 : X → S1 → result (flow S1))
    (body2 : X → S2 → result (flow S2)) :
  (∀ x s1 s2, R s1 s2 →
     result_rel (flow_rel R) (body1 x s1) (body2 x s2)) →
  ∀ s1 s2, R s1 s2 →
    result_rel R (for_in xs body1 s1) (for_in xs body2 s2).
Proof.
  intros Hbody. induction xs as [|x xs IH]; intros s1 s2 HR; simpl;
    [done|].
  specialize (Hbody x _ _ HR).
  destruct (body1 x s1) as [[a|a]| |], (body2 x s2) as [[b|b]| |];
    simpl in *; try done.
  by apply IH.
Qed.
End sim_rules.

Section store_facts.
Context {char : Type} `{!EqDecision char}.
Implicit Types (h : gmap positive (list (list char))).
Implicit Types (tokens : list (list char)) (l : positive).

(** A slice is a new object: the store keeps what it held. *)
Lemma alloc_spec h v :
  (Ref.alloc h v).2 !! (Ref.alloc h v).1 = Some v ∧ h ⊆ (Ref.alloc h v).2.
Proof.
  unfold Ref.alloc. simpl. split.
  - apply lookup_insert_eq.
  - apply insert_subseteq, not_elem_of_dom, is_fresh.
Qed.

Lemma len_deref h l tokens :
  h !! l = Some tokens → Ref.len h l = Ok (Py.len tokens).
Proof. unfold Ref.len, Ref.deref. by intros ->. Qed.

Lemma getitem_deref h l tokens i :
  h !! l = Some tokens → Ref.getitem h l i = Py.getitem tokens i.
Proof. unfold Ref.getitem, Ref.deref. by intros ->. Qed.

Lemma slice_from_deref h l tokens i :
  h !! l = Some tokens →
  Ref.slice_from h l i = Ok (Ref.alloc h (Py.slice_from tokens i)).
Proof. unfold Ref.slice_from, Ref.deref. by intros ->. Qed.

Lemma highlightRow_body_view charRow row forceSpace h0 st st' :
  row_view h0 st st' →
  result_rel (flow_rel (row_view h0))
    (highlightRow_body charRow row forceSpace st)
    (Ref.highlightRow_body charRow row forceSpace st').
Proof.
  destruct st as [[tm tokens] i], st' as [[[tm' l] i'] h].
  intros (<- & <- & Hl & Hsub).
  unfold highlightRow_body, Ref.highlightRow_body.
  rewrite (len_deref _ _ _ Hl). simpl.
  case_bool_decide; simpl; [done|].
  rewrite (getitem_deref _ _ _ _ Hl).
  destruct (Py.getitem tokens 0) as [token| |]; simpl; try done.
  destruct (startswith _ token); simpl; [|done].
  destruct (mark_token charRow row tm token i) as [[tm1 i1]| |];
    simpl; try done.
  rewrite (slice_from_deref _ _ _ _ Hl). simpl.
  destruct (alloc_spec h (Py.slice_from tokens 1)) as [Ha Hh].
  split_and!; [done|done|exact Ha|by etrans].
Qed.

(** [highlightRow] on a reference does what it does on the list the
    reference holds, and the store keeps what it held. *)
Lemma highlightRow_view charRow row tm tokens forceSpace h l :
  h !! l = Some tokens →
  result_rel (same_result h)
    (highlightRow charRow row tm tokens forceSpace)
    (Ref.highlightRow charRow row tm l forceSpace h).
Proof.
  intros Hl. unfold highlightRow, Ref.highlightRow. rewrite Hl. simpl default.
  apply (result_rel_bind _ (row_view h)).
  - apply while_sim; [| |done].
    + by intros [[? ?] ?] [[[? ?] ?] ?] (_ & <- & _).
    + intros s1 s2 Hv _. by apply highlightRow_body_view.
  - intros [[tm1 toks1] i1] [[[tm2 l2] i2] h2] (<- & <- & Hl2 & Hsub).
    rewrite (len_deref h2 l tokens) by (by eapply lookup_weaken).
    rewrite (len_deref _ _ _ Hl2). simpl. done.
Qed.

Lemma highlight_body_view charMatrix forceSpace row h0 st st' :
  grid_view h0 st st' →
  result_rel (flow_rel (grid_view h0))
    (highlight_body charMatrix forceSpace row st)
    (Ref.highlight_body charMatrix forceSpace row st').
Proof.
  destruct st as [tm tokens], st' as [[tm' l] h].
  intros (<- & Hl & Hsub).
  unfold highlight_body, Ref.highlight_body.
  rewrite (len_deref _ _ _ Hl). simpl.
  case_bool_decide; simpl; [done|].
  destruct (Py.getitem charMatrix row) as [charRow| |]; simpl; try done.
  pose proof (highlightRow_view charRow row tm tokens forceSpace h l Hl)
    as Hrow.
  destruct (highlightRow charRow row tm tokens forceSpace)
    as [[tm1 c1]| |],
    (Ref.highlightRow charRow row tm l forceSpace h)
    as [[[tm2 c2] h2]| |]; simpl in *; try done.
  destruct Hrow as (<- & <- & Hsub2).
  rewrite (slice_from_deref h2 l tokens) by (by eapply lookup_weaken).
  simpl.
  destruct (alloc_spec h2 (Py.slice_from tokens c1)) as [Ha Hh].
  split_and!; [done|exact Ha|]. etrans; [exact Hsub|]. by etrans.
Qed.

(** The same for [highlight]. *)
Lemma highlight_view height charMatrix tm tokens forceSpace h l :
  h !! l = Some tokens →
  result_rel (same_result h)
    (highlight height charMatrix tm tokens forceSpace)
    (Ref.highlight height charMatrix tm l forceSpace h).
Proof.
  intros Hl. unfold highlight, Ref.highlight.
  apply (result_rel_bind _ (grid_view h)).
  - apply for_in_sim; [|done].
    intros x s1 s2. apply highlight_body_view.
  - intros [tm1 toks1] [[tm2 l2] h2] (<- & Hl2 & Hsub).
    rewrite (len_deref _ _ _ Hl2). simpl. done.
Qed.
End store_facts.

(** * The claims *)

(** ** Highlighting *)

(** C1, as the specification words it, fails: on the one-cell grid
    [["ab"]] with the token ["a"], [highlight] succeeds and marks the
    cell, yet no run of cells of the grid spells ["a"]. *)
Lemma highlight_marks_partial_cell :
  ¬ spells_in_order 1 [[text "ab"]] [[false]] [text "a"] true.
Proof.
  intros Hclaim.
  destruct (Hclaim [[true]]) as (spans & Hspell & _ & Hin);
    [by vm_compute|].
  apply Forall2_cons_inv_l in Hspell as (sp & spans' & Hsp & Hnil & ->).
  apply Forall2_nil_inv_l in Hnil as ->.
  destruct (Hin 0%nat 0%nat) as (sp' & ->%list_elem_of_singleton & Hr & Hc);
    [by split|].
  destruct Hsp as [(charRow & Hrow & Hfit) Htext].
  unfold span_text, span_cells in Htext.
  destruct sp as [r start len]. simpl in *. subst r.
  simpl in Hrow. injection Hrow as <-. simpl in *.
  assert (start = 0%nat) as -> by lia. assert (len = 1%nat) as -> by lia.
  discriminate Htext.
Qed.

(** C1 (amended): when [highlight] succeeds there is one span of cells
    per token, in the tokens' order, row-major and without overlap; each
    token is found at its span's first cell and the span is the shortest
    run of cells of that row that holds it; the cells of these spans are
    exactly what the call has marked; and where every cell of the grid
    holds one character, each span spells its token. *)
Theorem highlight_success_spans {char : Type} `{!EqDecision char}
    (height : Z) (charMatrix : list (list (list char)))
    (truthMatrix truthMatrix' : list (list bool))
    (tokens : list (list char)) (forceSpace : bool) :
  highlight height charMatrix truthMatrix tokens forceSpace
    = Ok (truthMatrix', true) →
  ∃ spans,
    Forall2 (span_covers charMatrix) tokens spans ∧
    StronglySorted span_before spans ∧
    (∀ r c, marked truthMatrix' r c = true ↔
            marked truthMatrix r c = true ∨
            ∃ sp, sp ∈ spans ∧ in_span sp r c) ∧
    (Forall (Forall (λ cell, length cell = 1%nat)) charMatrix →
     Forall2 (span_spells charMatrix) tokens spans).
Proof.
  intros Hrun.
  destruct (highlight_covers height charMatrix truthMatrix tokens forceSpace
              truthMatrix' Hrun) as (spans & Hcov & Hsort & Hmarks).
  exists spans. split_and!; try done.
  intros Hunit. eapply Forall2_impl; [exact Hcov|].
  intros token sp. by apply span_covers_unit.
Qed.

Lemma highlight_success_spans_witness :
  highlight 1 [ahalf_row] [[false; false; false; false; false]]
    ahalf_tokens false
    = Ok ([[true; true; true; true; true]], true) ∧
  ∃ spans,
    Forall2 (span_covers [ahalf_row]) ahalf_tokens spans ∧
    StronglySorted span_before spans ∧
    (∀ r c, marked [[true; true; true; true; true]] r c = true ↔
            marked [[false; false; false; false; false]] r c = true ∨
            ∃ sp, sp ∈ spans ∧ in_span sp r c) ∧
    (Forall (Forall (λ cell, length cell = 1%nat)) [ahalf_row] →
     Forall2 (span_spells [ahalf_row]) ahalf_tokens spans).
Proof.
  split; [vm_compute; reflexivity|].
  apply (highlight_success_spans 1 [ahalf_row]
           [[false; false; false; false; false]]
           [[true; true; true; true; true]] ahalf_tokens false).
  vm_compute; reflexivity.
Defined.

(** C2: on the row [a h a l f] with the tokens [a], [half] and
    [forceSpace] set, [highlightRow] marks cell 0 only and consumes one
    token, and [highlight] reports failure; in general a pass of the loop
    that finds its token at column [k] with [forceSpace] set marks a run
    of [n] cells and resumes at column [k + n + 1], one cell beyond the
    run. *)
Theorem forceSpace_skips_a_cell :
  highlightRow ahalf_row 0 [[false; false; false; false; false]]
    ahalf_tokens true
    = Ok ([[true; false; false; false; false]], 1) ∧
  highlight 1 [ahalf_row] [[false; false; false; false; false]]
    ahalf_tokens true
    = Ok ([[true; false; false; false; false]], false) ∧
  ∀ (char : Type) (eq_dec : EqDecision char)
    (charRow : list (list char)) (r : nat) (tm : list (list bool))
    (token : list char) (rest : list (list char)) (k : nat) st',
    (k < length charRow)%nat →
    startswith (join (drop k charRow)) token = true →
    highlightRow_body charRow (Z.of_nat r) true
      (tm, token :: rest, Z.of_nat k) = Ok (Next st') →
    ∃ n tm',
      row_covers charRow token k n ∧
      (∀ r' c', marked tm' r' c' = true ↔
                marked tm r' c' = true ∨ (r' = r ∧ (k ≤ c' < k + n)%nat)) ∧
      st' = (tm', rest, Z.of_nat (k + n + 1)).
Proof.
  split; [vm_compute; reflexivity|]. split; [vm_compute; reflexivity|].
  intros char eq_dec charRow r tm token rest k st' Hk Hs Hbody.
  apply highlightRow_body_step in Hbody
    as [[Hs' _]|(n & tm' & Hcov & -> & Hm & _)]; [congruence| |done].
  by exists n, tm'.
Qed.

Lemma forceSpace_skips_a_cell_witness :
  ∃ n tm',
    row_covers ahalf_row (text "a") 0 n ∧
    (∀ r' c', marked tm' r' c' = true ↔
              marked [[false; false; false; false; false]] r' c' = true ∨
              (r' = 0%nat ∧ (0 ≤ c' < 0 + n)%nat)) ∧
    ([[true; false; false; false; false]], [text "half"], 2)
      = (tm', [text "half"], Z.of_nat (0 + n + 1)).
Proof.
  destruct forceSpace_skips_a_cell as (_ & _ & Hgeneral).
  apply (Hgeneral ascii _ ahalf_row 0%nat
           [[false; false; false; false; false]] (text "a") [text "half"]
           0%nat).
  - simpl. lia.
  - vm_compute; reflexivity.
  - vm_compute; reflexivity.
Defined.

(** C3: on the same row and tokens without [forceSpace], [highlightRow]
    consumes both tokens and marks all five cells. *)
Theorem adjacent_tokens_without_forceSpace :
  highlightRow ahalf_row 0 [[false; false; false; false; false]]
    ahalf_tokens false
    = Ok ([[true; true; true; true; true]], 2).
Proof. vm_compute; reflexivity. Qed.

Section rows_facts.
Context {char : Type} `{!EqDecision char}.
Implicit Types (charMatrix : list (list (list char))).

(** A pass of the loop of [highlight] that goes on to the next row. *)
Lemma highlight_body_row charMatrix forceSpace r tm tokens tm' tokens' :
  highlight_body charMatrix forceSpace (Z.of_nat r) (tm, tokens)
    = Ok (Next (tm', tokens')) →
  ∃ charRow consumed spans,
    charMatrix !! r = Some charRow ∧
    tokens = consumed ++ tokens' ∧
    highlightRow charRow (Z.of_nat r) tm tokens forceSpace
      = Ok (tm', Z.of_nat (length consumed)) ∧
    Forall2 (row_span charRow r) consumed spans ∧
    marks tm tm' spans.
Proof.
  intros Hb. unfold highlight_body in Hb. case_bool_decide; [inv_ok|].
  inv_ok. destruct a0 as [tm1 c]. inv_ok.
  rewrite getitem_nat in E.
  destruct (charMatrix !! r) as [charRow|] eqn:Hrow; [|discriminate].
  injection E as <-. pose proof E0 as Hrun.
  apply highlightRow_spec in E0
    as (rest & (cs & spans & -> & Hcov & _ & Hmarks) & _ & ->).
  rewrite length_app, Nat.add_sub in *.
  exists charRow, cs, spans.
  by rewrite slice_from_nat, drop_app_length.
Qed.

(** The loop of [highlight] visits the rows as the specification
    says. *)
Lemma highlight_loop_visited charMatrix forceSpace rows st st' :
  Forall (λ x, 0 ≤ x) rows →
  for_in rows (highlight_body charMatrix forceSpace) st = Ok st' →
  rows_visited charMatrix forceSpace rows st st'.
Proof.
  revert st. induction rows as [|x rows IH]; intros [tm tokens] Hpos Hrun.
  { injection Hrun as <-. constructor. }
  apply Forall_cons in Hpos as [Hx Hpos]. simpl in Hrun.
  apply bind_Ok in Hrun as (fl & Hb & Hrun).
  destruct fl as [[tm1 tokens1]|st1].
  - rewrite <-(Z2Nat.id x) in Hb |- * by done.
    assert (tokens ≠ []) as Hne.
    { intros ->. unfold highlight_body in Hb.
      by rewrite bool_decide_true in Hb by done. }
    apply highlight_body_row in Hb
      as (charRow & consumed & spans & Hrow & -> & Hr & Hcov & Hm).
    eapply rows_visit; eauto.
  - injection Hrun as <-. unfold highlight_body in Hb.
    case_bool_decide as Hlen.
    + injection Hb as <-. destruct tokens; [constructor|done].
    + inv_ok. destruct a0. inv_ok.
Qed.
End rows_facts.

(** C5: [highlight] takes the rows top to bottom.  (1) With no token
    left it visits no further row.  (2) A row that is visited consumes
    tokens from the head of the list, each in a span of that row, and
    hands the rest of the list on as it is.  (3) Over the whole call the
    consumed tokens are a prefix of the list, each covered by a span that
    lies within one row, the spans in row-major order.  (4) A token that
    is found at no column of a row is not consumed in that row, and the
    row's marks stay as they were.  (5) Called with no token, [highlight]
    returns at once with success, whatever the grids.  (6) Every call
    that returns has visited the rows [0, 1, ...] in order, each while
    tokens were left, each through [highlightRow] with the tokens the
    rows above have left; the result is the grid of the last visit, and
    success when no token is left.  (7) On grids that fit, the call
    returns. *)
Theorem highlight_row_by_row {char : Type} `{!EqDecision char} :
  (∀ (charMatrix : list (list (list char))) forceSpace rows tm,
     for_in rows (highlight_body charMatrix forceSpace) (tm, [])
       = Ok (tm, [])) ∧
  (∀ (charMatrix : list (list (list char))) forceSpace r tm tokens
     tm' tokens',
     highlight_body charMatrix forceSpace (Z.of_nat r) (tm, tokens)
       = Ok (Next (tm', tokens')) →
     ∃ charRow consumed spans,
       charMatrix !! r = Some charRow ∧
       tokens = consumed ++ tokens' ∧
       highlightRow charRow (Z.of_nat r) tm tokens forceSpace
         = Ok (tm', Z.of_nat (length consumed)) ∧
       Forall2 (row_span charRow r) consumed spans ∧
       marks tm tm' spans) ∧
  (∀ height (charMatrix : list (list (list char))) tm tokens forceSpace
     tm' ok,
     highlight height charMatrix tm tokens forceSpace = Ok (tm', ok) →
     ∃ consumed rest spans,
       tokens = consumed ++ rest ∧
       ok = bool_decide (rest = []) ∧
       Forall2 (span_covers charMatrix) consumed spans ∧
       StronglySorted span_before spans ∧
       marks tm tm' spans) ∧
  (∀ (charRow : list (list char)) r tm token rest forceSpace tm' consumed,
     highlightRow charRow (Z.of_nat r) tm (token :: rest) forceSpace
       = Ok (tm', consumed) →
     (∀ k, (k < length charRow)%nat →
           ¬ token `prefix_of` join (drop k charRow)) →
     consumed = 0 ∧ tm' = tm) ∧
  (∀ height (charMatrix : list (list (list char))) tm forceSpace,
     highlight height charMatrix tm [] forceSpace = Ok (tm, true)) ∧
  (∀ height (charMatrix : list (list (list char))) tm tokens forceSpace
     tm' ok,
     highlight height charMatrix tm tokens forceSpace = Ok (tm', ok) →
     ∃ rest,
       rows_visited charMatrix forceSpace (Py.range height) (tm, tokens)
         (tm', rest) ∧
       ok = bool_decide (rest = [])) ∧
  (∀ height (charMatrix : list (list (list char))) tm tokens forceSpace,
     grid_ok height charMatrix tm →
     is_Ok (highlight height charMatrix tm tokens forceSpace)).
Proof.
  split_and!.
  - by intros charMatrix forceSpace [|x xs] tm.
  - intros charMatrix forceSpace r tm tokens tm' tokens'.
    apply highlight_body_row.
  - intros height charMatrix tm tokens forceSpace tm' ok Hrun.
    unfold highlight in Hrun. inv_ok. destruct a as [tm1 rest].
    injection Hrun as <- <-.
    apply highlight_loop_spec in E as (cs & spans & -> & ? & ? & ?).
    exists cs, rest, spans. split_and!; try done.
    unfold Py.len. destruct rest; by repeat case_bool_decide.
  - intros charRow r tm token rest forceSpace tm' consumed Hrun Hnone.
    apply highlightRow_spec in Hrun
      as (rest' & (cs & spans & Heq & Hcov & _ & Hm & Hsh) & _ & ->).
    destruct Hcov as [|tok sp cs spans [_ (Hk & _ & Hp & _)] _].
    + simpl in Heq. subst rest'. split; [lia|].
      apply marked_ext; [done|]. intros r' c'. rewrite Hm.
      split; [|auto]. intros [?|(sp & Hsp & _)]; [done|].
      by apply elem_of_nil in Hsp.
    + injection Heq as -> _. by destruct (Hnone _ Hk).
  - intros height charMatrix tm forceSpace. unfold highlight.
    by destruct (Py.range height).
  - intros height charMatrix tm tokens forceSpace tm' ok Hrun.
    unfold highlight in Hrun. inv_ok. destruct a as [tm1 rest].
    injection Hrun as <- <-. exists rest. split.
    + apply highlight_loop_visited; [|done].
      by destruct (range_sorted 0 height).
    + unfold Py.len. destruct rest; by repeat case_bool_decide.
  - intros height charMatrix tm tokens forceSpace.
    apply highlight_total.
Qed.

(** A grid of two rows, asked for three: [a] is found in the first row
    and [half] is not, so [half] goes on to the second row and is found
    there; with no token left the third row, which the grid does not
    have, is not looked at. *)
Lemma highlight_row_by_row_witness :
  let charMatrix :=
    [[text "a"; text "x"]; [text "h"; text "a"; text "l"; text "f"]] in
  let blank := [[false; false]; [false; false; false; false]] in
  let first := [[true; false]; [false; false; false; false]] in
  let both := [[true; false]; [true; true; true; true]] in
  (highlight 3 charMatrix blank ahalf_tokens true = Ok (both, true) ∧
   highlightRow [text "a"; text "x"] 0 blank ahalf_tokens true
     = Ok (first, 1) ∧
   highlightRow [text "h"; text "a"; text "l"; text "f"] 1 first
     [text "half"] true = Ok (both, 1) ∧
   ∃ rest,
     rows_visited charMatrix true (Py.range 3) (blank, ahalf_tokens)
       (both, rest) ∧
     true = bool_decide (rest = [])) ∧
  (highlight 1 [ahalf_row] [[false; false; false; false; false]]
     ahalf_tokens true
     = Ok ([[true; false; false; false; false]], false) ∧
   ∃ consumed rest spans,
     ahalf_tokens = consumed ++ rest ∧
     false = bool_decide (rest = []) ∧
     Forall2 (span_covers [ahalf_row]) consumed spans ∧
     StronglySorted span_before spans ∧
     marks [[false; false; false; false; false]]
       [[true; false; false; false; false]] spans) ∧
  (highlightRow [text "h"; text "a"] 0 [[false; false]]
     [text "half"; text "a"] true = Ok ([[false; false]], 0) ∧
   (∀ k, (k < 2)%nat →
         ¬ text "half" `prefix_of` join (drop k [text "h"; text "a"])) ∧
   0 = 0 ∧ [[false; false]] = [[false; false]]).
Proof.
  intros charMatrix blank first both.
  destruct (@highlight_row_by_row ascii _)
    as (_ & _ & Hcall & Hrow & _ & Hrows & _).
  assert (∀ k, (k < 2)%nat →
            ¬ text "half" `prefix_of` join (drop k [text "h"; text "a"]))
    as Hnone.
  { intros k Hk [suffix Hs].
    destruct k as [|[|k]]; [discriminate Hs|discriminate Hs|lia]. }
  split; [|split].
  - split; [vm_compute; reflexivity|].
    split; [vm_compute; reflexivity|].
    split; [vm_compute; reflexivity|].
    apply (Hrows 3 charMatrix blank ahalf_tokens true).
    vm_compute; reflexivity.
  - split; [vm_compute; reflexivity|].
    apply (Hcall 1 [ahalf_row] [[false; false; false; false; false]]
             ahalf_tokens true).
    vm_compute; reflexivity.
  - split; [vm_compute; reflexivity|]. split; [exact Hnone|].
    apply (Hrow [text "h"; text "a"] 0%nat [[false; false]]
             (text "half") [text "a"] true).
    + vm_compute; reflexivity.
    + exact Hnone.
Defined.

(** ** The tick of the clock face *)

Section step_facts.
Context {char : Type} `{!EqDecision char}.

Lemma createTruthMatrix_blank height width r c :
  marked (createTruthMatrix height width) r c = false.
Proof.
  unfold marked, createTruthMatrix.
  destruct (replicate _ _ !! r) as [row|] eqn:Hr; [|done].
  apply lookup_replicate in Hr as [-> _].
  destruct (replicate _ _ !! c) as [b|] eqn:Hc; [|done].
  by apply lookup_replicate in Hc as [-> _].
Qed.

Lemma createTruthMatrix_fits (layout : @Layout char) :
  layout_wf layout →
  grid_ok (height layout) (matrix layout)
    (createTruthMatrix (height layout) (width layout)).
Proof.
  intros [Hh Hw] r Hr.
  destruct (lookup_lt_is_Some_2 (matrix layout) r) as [charRow Hrow];
    [lia|].
  exists charRow. split; [done|].
  exists (Z.to_nat (width layout)). split.
  - apply shape_lookup. eexists. split.
    + unfold createTruthMatrix. apply lookup_replicate_2. lia.
    + by rewrite length_replicate.
  - rewrite Forall_forall in Hw.
    rewrite <-(Hw charRow) by (apply list_elem_of_lookup; eauto). lia.
Qed.
End step_facts.

(** C4: on a layout whose grid has [height] rows of [width] cells, a
    tick runs [highlight] with [forceSpace] on a blank truth grid; if
    that consumes every token its grid is drawn; otherwise [highlight]
    runs once more, without [forceSpace], on a new blank grid, and the
    grid of this second run is drawn whether or not it succeeded.  The
    tick raises nothing and calls [drawMatrix] once, as its last act. *)
Theorem step_retry_policy {char : Type} `{!EqDecision char}
    (self : @QlockThread char) (time : Time) :
  layout_wf (layout self) →
  let h := height (layout self) in
  let m := matrix (layout self) in
  let blank := createTruthMatrix h (width (layout self)) in
  let solution := solver self time in
  (∀ r c, marked blank r c = false) ∧
  ∃ tm1 ok1 drawn logs,
    highlight h m blank solution true = Ok (tm1, ok1) ∧
    step self time
      = Ok ([Log LogSolving; Log LogSolution] ++ logs ++ [DrawMatrix drawn]) ∧
    draw_count logs = 0%nat ∧
    if ok1 then drawn = tm1 ∧ logs = []
    else ∃ ok2,
      highlight h m blank solution false = Ok (drawn, ok2) ∧
      logs = [Log LogUnable;
              Log (if ok2 then LogSuccess else LogFailedAgain)].
Proof.
  intros Hwf h m blank solution.
  split; [apply createTruthMatrix_blank|].
  pose proof (createTruthMatrix_fits _ Hwf) as Hok.
  destruct (highlight_total h m blank solution true Hok) as [[tm1 ok1] H1].
  destruct (highlight_total h m blank solution false Hok) as [[tm2 ok2] H2].
  unfold step. fold h m blank solution. rewrite H1. simpl.
  destruct ok1; simpl.
  - by exists tm1, true, tm1, [].
  - rewrite H2. simpl.
    exists tm1, false, tm2,
      [Log LogUnable; Log (if ok2 then LogSuccess else LogFailedAgain)].
    split_and!; [done|done| |by exists ok2].
    by destruct ok2.
Qed.

Lemma step_retry_policy_witness :
  layout_wf ahalf_layout ∧
  (∀ r c, marked (createTruthMatrix 1 5) r c = false) ∧
  ∃ tm1 ok1 drawn logs,
    highlight 1 [ahalf_row] (createTruthMatrix 1 5) ahalf_tokens true
      = Ok (tm1, ok1) ∧
    step ahalf_thread (mkTime 0)
      = Ok ([Log LogSolving; Log LogSolution] ++ logs ++ [DrawMatrix drawn]) ∧
    draw_count logs = 0%nat ∧
    if ok1 then drawn = tm1 ∧ logs = []
    else ∃ ok2,
      highlight 1 [ahalf_row] (createTruthMatrix 1 5) ahalf_tokens false
        = Ok (drawn, ok2) ∧
      logs = [Log LogUnable;
              Log (if ok2 then LogSuccess else LogFailedAgain)].
Proof.
  assert (layout_wf ahalf_layout) as Hwf.
  { split; [reflexivity|]. repeat constructor. }
  split; [exact Hwf|].
  exact (step_retry_policy ahalf_thread (mkTime 0) Hwf).
Defined.

(** ** The caller's token list *)

(** C10: a call of [highlightRow] or of [highlight] on a reference to a
    token list leaves that list, like every list object the store held,
    as it was; the call does what it does on the list as a value; and a
    second call of [highlight] on the same reference, as in the retry of
    [step], again runs on the same tokens. *)
Theorem tokens_list_unchanged {char : Type} `{!EqDecision char}
    (h : gmap positive (list (list char))) (l : positive)
    (tokens : list (list char)) :
  h !! l = Some tokens →
  (∀ charRow row tm forceSpace tm' consumed h',
     Ref.highlightRow charRow row tm l forceSpace h
       = Ok (tm', consumed, h') →
     h' !! l = Some tokens ∧ h ⊆ h' ∧
     highlightRow charRow row tm tokens forceSpace = Ok (tm', consumed)) ∧
  (∀ height charMatrix tm forceSpace tm' ok h',
     Ref.highlight height charMatrix tm l forceSpace h = Ok (tm', ok, h') →
     h' !! l = Some tokens ∧ h ⊆ h' ∧
     highlight height charMatrix tm tokens forceSpace = Ok (tm', ok) ∧
     ∀ tm2,
       result_rel (same_result h')
         (highlight height charMatrix tm2 tokens false)
         (Ref.highlight height charMatrix tm2 l false h')).
Proof.
  intros Hl. split.
  - intros charRow row tm forceSpace tm' consumed h' Hrun.
    pose proof (highlightRow_view charRow row tm tokens forceSpace h l Hl)
      as Hv.
    rewrite Hrun in Hv.
    destruct (highlightRow charRow row tm tokens forceSpace)
      as [[tm1 c1]| |]; simpl in Hv; try done.
    destruct Hv as (-> & -> & Hsub).
    split_and!; [by eapply lookup_weaken|done|done].
  - intros height charMatrix tm forceSpace tm' ok h' Hrun.
    pose proof (highlight_view height charMatrix tm tokens forceSpace h l Hl)
      as Hv.
    rewrite Hrun in Hv.
    destruct (highlight height charMatrix tm tokens forceSpace)
      as [[tm1 ok1]| |]; simpl in Hv; try done.
    destruct Hv as (-> & -> & Hsub).
    assert (h' !! l = Some tokens) as Hl' by (by eapply lookup_weaken).
    split_and!; [done|done|done|].
    intros tm2. by apply highlight_view.
Qed.

Lemma tokens_list_unchanged_witness :
  ({[1%positive := ahalf_tokens]} : gmap positive (list (list ascii)))
    !! 1%positive = Some ahalf_tokens ∧
  ∃ h',
    Ref.highlight 1 [ahalf_row] [[false; false; false; false; false]]
      1%positive true {[1%positive := ahalf_tokens]}
      = Ok ([[true; false; false; false; false]], false, h') ∧
    h' !! 1%positive = Some ahalf_tokens.
Proof.
  assert (({[1%positive := ahalf_tokens]} : gmap positive (list (list ascii)))
            !! 1%positive = Some ahalf_tokens) as Hl by reflexivity.
  split; [exact Hl|].
  eexists. split; [vm_compute; reflexivity|].
  destruct (tokens_list_unchanged {[1%positive := ahalf_tokens]} 1%positive
              ahalf_tokens Hl) as [_ Hcall].
  apply (Hcall 1 [ahalf_row] [[false; false; false; false; false]] true
           [[true; false; false; false; false]] false).
  vm_compute; reflexivity.
Defined.

(** ** The state machine *)

(** *** Rounding of doubles *)

Lemma digits2_pos_bounds (p : positive) :
  2 ^ (Z.pos (digits2_pos p) - 1) ≤ Z.pos p < 2 ^ Z.pos (digits2_pos p).
Proof.
  induction p as [p IH|p IH|]; simpl digits2_pos.
  - rewrite Pos2Z.inj_succ, Z.pow_succ_r by lia.
    replace (Z.succ (Z.pos (digits2_pos p)) - 1)
      with (Z.succ (Z.pos (digits2_pos p) - 1)) by lia.
    rewrite Z.pow_succ_r by lia. lia.
  - rewrite Pos2Z.inj_succ, Z.pow_succ_r by lia.
    replace (Z.succ (Z.pos (digits2_pos p)) - 1)
      with (Z.succ (Z.pos (digits2_pos p) - 1)) by lia.
    rewrite Z.pow_succ_r by lia. lia.
  - simpl. lia.
Qed.

Lemma iter_pos_nat {A} (f : A → A) (p : positive) (x : A) :
  SpecFloat.iter_pos f p x = Nat.iter (Pos.to_nat p) f x.
Proof.
  revert x. induction p as [p IH|p IH|]; intros x; simpl SpecFloat.iter_pos.
  - rewrite !IH, Pos2Nat.inj_xI. simpl.
    rewrite Nat.add_0_r, Nat.iter_add, <-Nat.iter_succ_r. simpl.
    by rewrite <-Nat.iter_succ_r.
  - rewrite !IH, Pos2Nat.inj_xO. simpl.
    by rewrite Nat.add_0_r, Nat.iter_add.
  - done.
Qed.

Lemma shr_1_nonneg (m : Z) (r s : bool) :
  0 ≤ m →
  shr_1 {| shr_m := m; shr_r := r; shr_s := s |}
  = {| shr_m := m `div` 2; shr_r := Z.odd m; shr_s := r || s |}.
Proof.
  intros Hm. rewrite <-Z.div2_div.
  destruct m as [|[p|p|]|]; simpl; try done; lia.
Qed.

Lemma shr_iter (k : nat) (m : Z) (r s : bool) (t D : Z) :
  0 ≤ m → 0 ≤ t < D → rs_ok r s t D →
  ∃ t' r' s',
    Nat.iter k shr_1 {| shr_m := m; shr_r := r; shr_s := s |}
    = {| shr_m := m `div` 2 ^ Z.of_nat k; shr_r := r'; shr_s := s' |} ∧
    0 ≤ t' < 2 ^ Z.of_nat k * D ∧
    m `div` 2 ^ Z.of_nat k * (2 ^ Z.of_nat k * D) + t' = m * D + t ∧
    rs_ok r' s' t' (2 ^ Z.of_nat k * D).
Proof.
  intros Hm Ht Hrs. induction k as [|k IH].
  { exists t, r, s. change (2 ^ Z.of_nat 0) with 1. rewrite Z.div_1_r.
    replace (1 * D) with D by lia. split_and!; try done; lia. }
  destruct IH as (tk & rk & sk & Hit & Htk & Heq & [Hrk Hsk]).
  rewrite Nat2Z.inj_succ, Z.pow_succ_r by lia.
  set (P := 2 ^ Z.of_nat k) in *.
  assert (0 < P) as HP by (apply Z.pow_pos_nonneg; lia).
  set (mk := m `div` P) in *.
  assert (0 ≤ mk) as Hmk by (apply Z.div_pos; lia).
  simpl Nat.iter. rewrite Hit, shr_1_nonneg by done.
  assert (m `div` (2 * P) = mk `div` 2) as ->.
  { unfold mk. rewrite Z.div_div by lia. f_equal. lia. }
  pose proof (Z.div_mod mk 2 ltac:(lia)) as Hdm.
  pose proof (Zmod_odd mk) as Hodd.
  exists (mk `mod` 2 * (P * D) + tk), (Z.odd mk), (rk || sk).
  split; [done|].
  assert (0 < P * D) as HPD by lia.
  destruct (Z.odd mk); (split_and!; [nia|nia|nia|split]).
  - symmetry. apply bool_decide_eq_true. nia.
  - rewrite Hrk, Hsk. repeat case_bool_decide; simpl; try done; exfalso; nia.
  - symmetry. apply bool_decide_eq_false. nia.
  - rewrite Hrk, Hsk. repeat case_bool_decide; simpl; try done; exfalso; nia.
Qed.

Lemma shr_record_of_loc_ok (m : Z) (l : location) (t D : Z) :
  0 ≤ t < D → loc_ok l t D →
  ∃ r s, shr_record_of_loc m l
         = {| shr_m := m; shr_r := r; shr_s := s |} ∧ rs_ok r s t D.
Proof.
  intros Ht Hl. unfold rs_ok. destruct l as [|[]]; simpl in *.
  - exists false, false. split; [done|]. subst t.
    split; symmetry; [apply bool_decide_eq_false|apply bool_decide_eq_false];
      lia.
  - destruct Hl as [Ht0 Hc%Z.compare_eq_iff]. exists true, false.
    split; [done|].
    split; symmetry; [apply bool_decide_eq_true|apply bool_decide_eq_false];
      lia.
  - destruct Hl as [Ht0 Hc]. rewrite Z.compare_lt_iff in Hc.
    exists false, true. split; [done|].
    split; symmetry; [apply bool_decide_eq_false|apply bool_decide_eq_true];
      lia.
  - destruct Hl as [Ht0 Hc]. rewrite Z.compare_gt_iff in Hc.
    exists true, true. split; [done|].
    split; symmetry; [apply bool_decide_eq_true|apply bool_decide_eq_true];
      lia.
Qed.

Lemma round_nearest_even_rs (m : Z) (r s : bool) (t D : Z) :
  0 ≤ t < D → rs_ok r s t D →
  let R := round_nearest_even m
             (loc_of_shr_record {| shr_m := m; shr_r := r; shr_s := s |}) in
  (R = m ∧ 2 * t ≤ D) ∨ (R = m + 1 ∧ D ≤ 2 * t).
Proof.
  intros Ht [-> ->]. simpl.
  repeat case_bool_decide; simpl; try (left; split; [done|lia]);
    try (right; split; [done|lia]).
  destruct (Z.even m); [left|right]; split; try done; lia.
Qed.

(** The first half of [binary_round_aux]: the mantissa is shifted right
    by [k] bits and rounded; the result is within half a unit of the
    number the mantissa and the location stand for. *)
Lemma shr_fexp_round (p : positive) (e : Z) (l : location) (t D : Z) :
  0 ≤ t < D → loc_ok l t D →
  let k := Z.max 0 (fexp 53 1024 (Z.pos (digits2_pos p) + e) - e) in
  ∃ mrs,
    shr_fexp 53 1024 (Z.pos p) e l = (mrs, e + k) ∧
    shr_m mrs = Z.pos p `div` 2 ^ k ∧
    let R := round_nearest_even (shr_m mrs) (loc_of_shr_record mrs) in
    (R = shr_m mrs ∨ R = shr_m mrs + 1) ∧
    2 * Z.abs (R * (2 ^ k * D) - (Z.pos p * D + t)) ≤ 2 ^ k * D.
Proof.
  intros Ht Hl k. unfold shr_fexp, shr. simpl Zdigits2.
  destruct (shr_record_of_loc_ok (Z.pos p) l t D Ht Hl) as (r & s & -> & Hrs).
  destruct (fexp 53 1024 (Z.pos (digits2_pos p) + e) - e) as [|n|n] eqn:Hn.
  1,3: (eexists; split; [f_equal; lia|]; cbn [shr_m]; subst k;
        rewrite ?Z.max_l by lia; change (2 ^ 0) with 1;
        rewrite Z.div_1_r; split; [done|];
        destruct (round_nearest_even_rs (Z.pos p) r s t D Ht Hrs)
          as [[-> ?]|[-> ?]]; (split; [auto|lia])).
  subst k. rewrite Z.max_r by lia. rewrite iter_pos_nat.
  destruct (shr_iter (Pos.to_nat n) (Z.pos p) r s t D ltac:(lia) Ht Hrs)
    as (t' & r' & s' & -> & Ht' & Heq & Hrs').
  rewrite positive_nat_Z in *.
  eexists. split; [done|]. cbn [shr_m]. split; [done|].
  destruct (round_nearest_even_rs (Z.pos p `div` 2 ^ Z.pos n) r' s' t' _
              Ht' Hrs') as [[-> ?]|[-> ?]]; (split; [auto|lia]).
Qed.

Lemma digits2_pos_le (p : positive) (n : Z) :
  Z.pos p < 2 ^ n → 0 ≤ n → Z.pos (digits2_pos p) ≤ n.
Proof.
  intros Hp Hn. pose proof (digits2_pos_bounds p) as [Hlo _].
  destruct (decide (Z.pos (digits2_pos p) ≤ n)) as [|Hgt]; [done|].
  assert (2 ^ n ≤ 2 ^ (Z.pos (digits2_pos p) - 1))
    by (apply Z.pow_le_mono_r; lia).
  lia.
Qed.

(** [binary_round_aux] on a mantissa [p] at an exponent [e] that is not
    below the least one, when the result does not overflow: the result
    is finite, of the given sign, and within half a unit in the last
    place (at exponent [e + k]) of the number that the mantissa and the
    location stand for. *)
Lemma binary_round_aux_spec (sx : bool) (p : positive) (e : Z)
    (l : location) (t D : Z) :
  -1074 ≤ e → 0 ≤ t < D → loc_ok l t D →
  let k := Z.max 0 (Z.pos (digits2_pos p) - 53) in
  e + k + 1 ≤ 971 →
  ∃ m'' e'',
    binary_round_aux 53 1024 sx (Z.pos p) e l = S754_finite sx m'' e'' ∧
    e + k ≤ e'' ≤ 971 ∧
    2 * Z.abs (Z.pos m'' * 2 ^ (e'' - (e + k)) * (2 ^ k * D)
               - (Z.pos p * D + t)) ≤ 2 ^ k * D.
Proof.
  intros He Ht Hl k Hk. unfold binary_round_aux.
  destruct (shr_fexp_round p e l t D Ht Hl) as (mrs & -> & Hm & HR & Herr).
  cbv zeta in HR, Herr.
  assert (Z.max 0 (fexp 53 1024 (Z.pos (digits2_pos p) + e) - e) = k) as Hkk.
  { unfold fexp, emin, k. lia. }
  rewrite Hkk in *. clear Hkk.
  set (R := round_nearest_even (shr_m mrs) (loc_of_shr_record mrs)) in *.
  pose proof (digits2_pos_bounds p) as [Hlo Hhi].
  assert (0 ≤ k) as Hk0 by (unfold k; lia).
  assert (0 < 2 ^ k) as Hpk by (apply Z.pow_pos_nonneg; lia).
  assert (1 ≤ shr_m mrs < 2 ^ 53) as [Hm1 Hm2].
  { rewrite Hm. destruct (decide (Z.pos (digits2_pos p) ≤ 53)) as [Hd|Hd].
    - assert (k = 0) as -> by (unfold k; lia).
      change (2 ^ 0) with 1. rewrite Z.div_1_r. split; [lia|].
      eapply Z.lt_le_trans; [exact Hhi|]. apply Z.pow_le_mono_r; lia.
    - assert (Z.pos (digits2_pos p) = k + 53) as Hdk by (unfold k; lia).
      rewrite Hdk in Hlo, Hhi.
      replace (k + 53 - 1) with (52 + k) in Hlo by lia.
      rewrite Z.pow_add_r in Hlo, Hhi by lia.
      split.
      + apply Z.div_le_lower_bound; [lia|].
        change (2 ^ 52) with 4503599627370496 in Hlo. lia.
      + apply Z.div_lt_upper_bound; [lia|]. lia. }
  assert (1 ≤ R ≤ 2 ^ 53) as [HR1 HR2] by lia.
  destruct R as [|q|q] eqn:HRq; [lia| |lia].
  destruct (shr_fexp_round q (e + k) loc_Exact 0 1 ltac:(lia) eq_refl)
    as (mrs2 & -> & Hm2' & _).
  destruct (decide (Z.pos q < 2 ^ 53)) as [Hlt|Hge].
  - pose proof (digits2_pos_le q 53 Hlt ltac:(lia)) as Hdq.
    assert (Z.max 0 (fexp 53 1024 (Z.pos (digits2_pos q) + (e + k))
                     - (e + k)) = 0) as Hk2
      by (unfold fexp, emin; lia).
    rewrite Hk2 in *. change (2 ^ 0) with 1 in Hm2'.
    rewrite Z.div_1_r in Hm2'. rewrite Hm2'.
    rewrite Z.add_0_r. rewrite (proj2 (Z.leb_le _ _)) by lia.
    exists q, (e + k). split; [done|]. split; [lia|].
    rewrite Z.sub_diag. change (2 ^ 0) with 1. rewrite Z.mul_1_r. exact Herr.
  - assert (Z.pos q = 2 ^ 53) as Hq by lia.
    assert (q = 9007199254740992%positive) as -> by lia.
    assert (Z.max 0 (fexp 53 1024
                       (Z.pos (digits2_pos 9007199254740992) + (e + k))
                     - (e + k)) = 1) as Hk2
      by (change (Z.pos (digits2_pos 9007199254740992)) with 54;
          unfold fexp, emin; lia).
    rewrite Hk2 in *. rewrite Hm2'.
    change (9007199254740992 `div` 2 ^ 1) with 4503599627370496.
    rewrite (proj2 (Z.leb_le _ _)) by lia.
    exists 4503599627370496%positive, (e + k + 1). split; [done|].
    split; [lia|].
    replace (e + k + 1 - (e + k)) with 1 by lia.
    change (4503599627370496 * 2 ^ 1) with 9007199254740992. exact Herr.
Qed.

Lemma iter_xO_pow (p d : positive) :
  Z.pos (Pos.iter xO p d) = Z.pos p * 2 ^ Z.pos d.
Proof.
  induction d as [|d IH] using Pos.peano_ind.
  - simpl. lia.
  - rewrite Pos.iter_succ, Pos2Z.inj_succ, Z.pow_succ_r by lia.
    rewrite Pos2Z.inj_xO, IH. lia.
Qed.

Lemma digits2_pos_exp (p : positive) (e K : Z) :
  Z.pos p * 2 ^ (e + 1074) < 2 ^ (K + 1074) → -1074 ≤ e →
  Z.pos (digits2_pos p) + e ≤ K.
Proof.
  intros Hp He. pose proof (digits2_pos_bounds p) as [Hlo _].
  destruct (decide (Z.pos (digits2_pos p) + e ≤ K)) as [|Hgt]; [done|].
  assert (2 ^ (K + 1074) ≤ 2 ^ (Z.pos (digits2_pos p) - 1 + (e + 1074)))
    as Hle by (apply Z.pow_le_mono_r; lia).
  rewrite (Z.pow_add_r 2 (Z.pos (digits2_pos p) - 1)) in Hle by lia.
  assert (0 < 2 ^ (e + 1074)) by (apply Z.pow_pos_nonneg; lia).
  nia.
Qed.

(** [binary_round]: the finite double nearest to [p * 2^e].  Values are
    compared in units of [2^-1074], the least positive double. *)
Lemma binary_round_spec (sx : bool) (p : positive) (e K : Z) :
  -1074 ≤ e → K ≤ 1023 →
  Z.pos p * 2 ^ (e + 1074) < 2 ^ (K + 1074) →
  ∃ m'' e'',
    binary_round 53 1024 sx p e = S754_finite sx m'' e'' ∧
    -1074 ≤ e'' ≤ 971 ∧
    let V := Z.pos m'' * 2 ^ (e'' + 1074) in
    let X := Z.pos p * 2 ^ (e + 1074) in
    V = X ∨
    ∃ u, -1074 ≤ u ≤ K - 53 ∧ (2 ^ (u + 1074) | V) ∧
         2 * Z.abs (V - X) ≤ 2 ^ (u + 1074).
Proof.
  intros He HK Hmag. pose proof (digits2_pos_exp p e K Hmag He) as Hd.
  pose proof (digits2_pos_bounds p) as [Hlo Hhi].
  unfold binary_round, shl_align.
  set (d := Z.pos (digits2_pos p)) in *.
  assert (0 ≤ fexp 53 1024 (d + e) - e →
          ∃ m'' e'',
            binary_round_aux 53 1024 sx (Z.pos p) e loc_Exact
              = S754_finite sx m'' e'' ∧
            -1074 ≤ e'' ≤ 971 ∧
            let V := Z.pos m'' * 2 ^ (e'' + 1074) in
            let X := Z.pos p * 2 ^ (e + 1074) in
            V = X ∨
            ∃ u, -1074 ≤ u ≤ K - 53 ∧ (2 ^ (u + 1074) | V) ∧
                 2 * Z.abs (V - X) ≤ 2 ^ (u + 1074)) as Hunshifted.
  { intros Hf.
    destruct (binary_round_aux_spec sx p e loc_Exact 0 1 He
                ltac:(lia) eq_refl) as (m'' & e'' & -> & He'' & Herr).
    { fold d. unfold fexp, emin in Hf. lia. }
    fold d in He'', Herr.
    exists m'', e''. split; [done|]. split; [lia|]. cbv zeta.
    set (k := Z.max 0 (d - 53)) in *.
    assert (0 ≤ k) by (unfold k; lia).
    assert (0 < 2 ^ k) by (apply Z.pow_pos_nonneg; lia).
    assert (0 < 2 ^ (e + 1074)) by (apply Z.pow_pos_nonneg; lia).
    replace (e'' + 1074) with ((e'' - (e + k)) + k + (e + 1074)) by lia.
    rewrite !(Z.pow_add_r 2 _ (e + 1074)), (Z.pow_add_r 2 _ k) by lia.
    set (W := Z.pos m'' * 2 ^ (e'' - (e + k))) in *.
    assert (Z.pos m'' * (2 ^ (e'' - (e + k)) * 2 ^ k * 2 ^ (e + 1074))
            = W * 2 ^ k * 2 ^ (e + 1074)) as -> by (unfold W; ring).
    clearbody W.
    assert (k = 0 ∨ (0 < k ∧ e + k ≤ K - 53)) as Hk by (unfold k; lia).
    clearbody k.
    destruct Hk as [->|[Hk0 Hk1]].
    { left. change (2 ^ 0) with 1 in *. nia. }
    right. exists (e + k). split; [lia|].
    replace (e + k + 1074) with (k + (e + 1074)) by lia.
    rewrite Z.pow_add_r by lia.
    split; [exists W; lia|].
    replace (W * 2 ^ k * 2 ^ (e + 1074) - Z.pos p * 2 ^ (e + 1074))
      with ((W * (2 ^ k * 1) - (Z.pos p * 1 + 0)) * 2 ^ (e + 1074)) by ring.
    rewrite Z.abs_mul, (Z.abs_eq (2 ^ (e + 1074))) by lia. nia. }
  destruct (fexp 53 1024 (d + e) - e) as [|n|n] eqn:Hn.
  1,2: (apply Hunshifted; lia).
  assert (fexp 53 1024 (d + e) - e = - Z.pos n) as Hf by lia.
  clear Hunshifted.
  set (f := fexp 53 1024 (d + e)) in *.
  assert (-1074 ≤ f) as Hf0 by (unfold f, fexp, emin; lia).
  assert (d + e - 53 ≤ f ≤ 970) as Hf1 by (unfold f, fexp, emin; lia).
  pose proof (iter_xO_pow p n) as Hmz.
  set (mz := Pos.iter xO p n) in *.
  assert (0 < 2 ^ Z.pos n) by (apply Z.pow_pos_nonneg; lia).
  assert (Z.pos (digits2_pos mz) ≤ 53) as Hdz.
  { apply digits2_pos_le; [|lia]. rewrite Hmz.
    apply Z.lt_le_trans with (2 ^ d * 2 ^ Z.pos n); [nia|].
    rewrite <-Z.pow_add_r by lia. apply Z.pow_le_mono_r; lia. }
  destruct (binary_round_aux_spec sx mz f loc_Exact 0 1 Hf0
              ltac:(lia) eq_refl) as (m'' & e'' & -> & He'' & Herr);
    [lia|].
  rewrite Z.max_l in He'', Herr by lia.
  change (2 ^ 0) with 1 in Herr.
  exists m'', e''. split; [done|]. split; [lia|]. cbv zeta. left.
  replace (e'' + 1074) with ((e'' - (f + 0)) + (f + 1074)) by lia.
  replace (e + 1074) with (Z.pos n + (f + 1074)) by lia.
  rewrite !Z.pow_add_r by lia.
  assert (Z.pos m'' * 2 ^ (e'' - (f + 0)) = Z.pos mz) as Hex by lia.
  rewrite Z.mul_assoc, Hex, Hmz, ?(Z.pow_add_r 2 (Z.pos n)) by lia. lia.
Qed.

Lemma binary_normalize_spec (M e K : Z) :
  -1074 ≤ e → K ≤ 1023 →
  Z.abs M * 2 ^ (e + 1074) < 2 ^ (K + 1074) →
  rounded (binary_normalize 53 1024 M e false) (M * 2 ^ (e + 1074)) K.
Proof.
  intros He HK Hmag. unfold binary_normalize.
  destruct M as [|p|p].
  - split; [done|]. by left.
  - destruct (binary_round_spec false p e K He HK Hmag)
      as (m'' & e'' & -> & He'' & HV).
    split; [done|]. exact HV.
  - destruct (binary_round_spec true p e K He HK Hmag)
      as (m'' & e'' & -> & He'' & HV).
    split; [done|]. cbv zeta in HV. simpl scaled.
    set (V := Z.pos m'' * 2 ^ (e'' + 1074)) in *.
    set (X := Z.pos p * 2 ^ (e + 1074)) in *.
    replace (Z.neg p * 2 ^ (e + 1074)) with (- X) by (unfold X; lia).
    destruct HV as [->|(u & Hu & [c Hc] & Herr)]; [by left|right].
    exists u. split; [done|]. split; [exists (- c); lia|lia].
Qed.

Lemma rounded_exact (z : float) (X K : Z) :
  rounded z X K → -1074 ≤ K - 53 → (2 ^ (K - 53 + 1074) | X) →
  scaled z = X.
Proof.
  intros [_ [?|(u & Hu & [c Hc] & Herr)]] HK [N HN]; [done|].
  replace (K - 53 + 1074) with ((K - 53 - u) + (u + 1074)) in HN by lia.
  rewrite Z.pow_add_r in HN by lia.
  assert (0 < 2 ^ (u + 1074)) by (apply Z.pow_pos_nonneg; lia).
  set (g := 2 ^ (u + 1074)) in *. set (w := 2 ^ (K - 53 - u)) in *.
  rewrite Hc, HN in *. clearbody g w.
  assert (c = N * w) as -> by nia. lia.
Qed.

Lemma rounded_err (z : float) (X K : Z) :
  rounded z X K → -1074 ≤ K - 53 →
  2 * Z.abs (scaled z - X) ≤ 2 ^ (K - 53 + 1074).
Proof.
  intros [_ [->|(u & Hu & _ & Herr)]] HK.
  - rewrite Z.sub_diag. simpl.
    assert (0 < 2 ^ (K - 53 + 1074)) by (apply Z.pow_pos_nonneg; lia). lia.
  - etrans; [exact Herr|]. apply Z.pow_le_mono_r; lia.
Qed.

Lemma rounded_le (z : float) (X K N : Z) :
  rounded z X K → -1074 ≤ K - 53 →
  X ≤ N * 2 ^ (K - 53 + 1074) → scaled z ≤ N * 2 ^ (K - 53 + 1074).
Proof.
  intros [_ [->|(u & Hu & [c Hc] & Herr)]] HK HN; [done|].
  replace (K - 53 + 1074) with ((K - 53 - u) + (u + 1074)) in * by lia.
  rewrite Z.pow_add_r in * by lia.
  assert (0 < 2 ^ (u + 1074)) by (apply Z.pow_pos_nonneg; lia).
  set (g := 2 ^ (u + 1074)) in *. set (w := 2 ^ (K - 53 - u)) in *.
  rewrite Hc in *. clearbody g w.
  assert (c ≤ N * w) by nia. nia.
Qed.

Lemma rounded_ge (z : float) (X K N : Z) :
  rounded z X K → -1074 ≤ K - 53 →
  N * 2 ^ (K - 53 + 1074) ≤ X → N * 2 ^ (K - 53 + 1074) ≤ scaled z.
Proof.
  intros [_ [->|(u & Hu & [c Hc] & Herr)]] HK HN; [done|].
  replace (K - 53 + 1074) with ((K - 53 - u) + (u + 1074)) in * by lia.
  rewrite Z.pow_add_r in * by lia.
  assert (0 < 2 ^ (u + 1074)) by (apply Z.pow_pos_nonneg; lia).
  set (g := 2 ^ (u + 1074)) in *. set (w := 2 ^ (K - 53 - u)) in *.
  rewrite Hc in *. clearbody g w.
  assert (N * w ≤ c) by nia. nia.
Qed.

Lemma SFltb_zero (x : float) :
  float_finite x → SFltb x (S754_zero false) = bool_decide (scaled x < 0).
Proof.
  destruct x as [s|s| |s m e]; try done; simpl; intros He.
  unfold SFltb. simpl.
  assert (0 < Z.pos m * 2 ^ (e + 1074))
    by (apply Z.mul_pos_pos; [lia|apply Z.pow_pos_nonneg; lia]).
  destruct s; simpl; symmetry;
    [apply bool_decide_eq_true|apply bool_decide_eq_false]; lia.
Qed.

Lemma shl_align_fst (m : positive) (e ez : Z) :
  ez ≤ e → Z.pos (fst (shl_align m e ez)) = Z.pos m * 2 ^ (e - ez).
Proof.
  intros He. unfold shl_align.
  destruct (ez - e) as [|d|d] eqn:Hd; simpl; [|lia|].
  - replace (e - ez) with 0 by lia. simpl. lia.
  - rewrite iter_xO_pow. f_equal. f_equal. lia.
Qed.

Lemma scaled_finite (s : bool) (m : positive) (e ez : Z) :
  -1074 ≤ ez ≤ e →
  scaled (S754_finite s m e)
  = cond_Zopp s (Z.pos (fst (shl_align m e ez))) * 2 ^ (ez + 1074).
Proof.
  intros He. rewrite shl_align_fst by lia. simpl.
  replace (e + 1074) with ((e - ez) + (ez + 1074)) by lia.
  rewrite Z.pow_add_r by lia. destruct s; simpl; lia.
Qed.

Lemma SFadd_spec (x y : float) (K : Z) :
  float_finite x → float_finite y → K ≤ 1023 →
  Z.abs (scaled x + scaled y) < 2 ^ (K + 1074) →
  rounded (SFadd 53 1024 x y) (scaled x + scaled y) K.
Proof.
  intros Hx Hy HK Hmag.
  destruct x as [sx|sx| |sx mx ex], y as [sy|sy| |sy my ey]; try done.
  - split; [by destruct sx, sy|]. left. by destruct sx, sy.
  - split; [done|]. by left.
  - split; [done|]. left. simpl. lia.
  - unfold SFadd. simpl in Hx, Hy.
    set (ez := ex `min` ey) in *.
    rewrite (scaled_finite sx mx ex ez), (scaled_finite sy my ey ez) in *
      by (unfold ez; lia).
    rewrite <-Z.mul_add_distr_r in *.
    apply binary_normalize_spec; [unfold ez; lia|done|].
    by rewrite <-(Z.abs_eq (2 ^ (ez + 1074))), <-Z.abs_mul
      by (apply Z.pow_nonneg; lia).
Qed.

Lemma SFsub_spec (x y : float) (K : Z) :
  float_finite x → float_finite y → K ≤ 1023 →
  Z.abs (scaled x - scaled y) < 2 ^ (K + 1074) →
  rounded (SFsub 53 1024 x y) (scaled x - scaled y) K.
Proof.
  intros Hx Hy HK Hmag.
  destruct x as [sx|sx| |sx mx ex], y as [sy|sy| |sy my ey]; try done.
  - split; [by destruct sx, sy|]. left. by destruct sx, sy.
  - split; [done|]. left. simpl. destruct sy; simpl; lia.
  - split; [done|]. left. simpl. lia.
  - unfold SFsub. simpl in Hx, Hy.
    set (ez := ex `min` ey) in *.
    rewrite (scaled_finite sx mx ex ez), (scaled_finite sy my ey ez) in *
      by (unfold ez; lia).
    rewrite <-Z.mul_sub_distr_r in *.
    apply binary_normalize_spec; [unfold ez; lia|done|].
    by rewrite <-(Z.abs_eq (2 ^ (ez + 1074))), <-Z.abs_mul
      by (apply Z.pow_nonneg; lia).
Qed.

(** [float(n)] for an integer of at most 53 bits is exact. *)
Lemma binary_normalize_int (n : Z) :
  Z.abs n < 2 ^ 53 →
  float_finite (binary_normalize 53 1024 n 0 false) ∧
  scaled (binary_normalize 53 1024 n 0 false) = n * 2 ^ 1074.
Proof.
  intros Hn.
  assert (rounded (binary_normalize 53 1024 n 0 false)
            (n * 2 ^ (0 + 1074)) 53) as Hr.
  { apply binary_normalize_spec; [lia|lia|].
    change (2 ^ (53 + 1074)) with (2 ^ 53 * 2 ^ (0 + 1074)).
    apply Z.mul_lt_mono_pos_r; [done|lia]. }
  split; [apply Hr|].
  apply (rounded_exact _ _ 53 Hr); [lia|].
  exists n. reflexivity.
Qed.

(** Division of a positive double by [1000000.0], for a quotient below
    [2^K] that is not subnormal. *)
Lemma SFdiv_million_spec (mx : positive) (ex K : Z) :
  -1074 ≤ ex ≤ 971 → K ≤ 1000 →
  2 ^ 1074 ≤ Z.pos mx * 2 ^ (ex + 1074) →
  Z.pos mx * 2 ^ (ex + 1074) < 1000000 * 2 ^ (K + 1074) →
  ∃ m'' e'' u,
    SFdiv 53 1024 (S754_finite false mx ex) million
      = S754_finite false m'' e'' ∧
    -1074 ≤ u ≤ e'' ∧ e'' ≤ 971 ∧ u ≤ K - 53 ∧
    2 * Z.abs (1000000 * (Z.pos m'' * 2 ^ (e'' + 1074))
               - Z.pos mx * 2 ^ (ex + 1074))
      ≤ 1000000 * 2 ^ (u + 1074).
Proof.
  intros Hex HK Hone Hmag. unfold SFdiv, million, SFdiv_core_binary.
  change (Zdigits2 8589934592000000) with 53. simpl Zdigits2.
  change (xorb false false) with false.
  pose proof (digits2_pos_bounds mx) as [Hlo Hhi].
  set (d := Z.pos (digits2_pos mx)) in *.
  assert (1 ≤ d + ex) as Hdex.
  { destruct (decide (1 ≤ d + ex)) as [|Hn]; [done|].
    assert (0 < 2 ^ (ex + 1074)) by (apply Z.pow_pos_nonneg; lia).
    assert (2 ^ d * 2 ^ (ex + 1074) ≤ 2 ^ 1074)
      by (rewrite <-Z.pow_add_r by (unfold d; lia);
          apply Z.pow_le_mono_r; lia).
    nia. }
  set (e' := fexp 53 1024 (d + ex - (53 + -33)) `min` (ex - -33)).
  assert (e' = (d + ex - 73) `min` (ex + 33)) as He'
    by (unfold e', fexp, emin; lia).
  set (s := ex - -33 - e').
  assert (0 ≤ s ∧ 106 - d ≤ s) as [Hs0 Hs1] by (unfold s; lia).
  set (m' := match s with
             | 0 => Z.pos mx
             | Z.pos _ => Z.shiftl (Z.pos mx) s
             | Z.neg _ => 0
             end).
  assert (m' = Z.pos mx * 2 ^ s) as Hm'.
  { unfold m'. destruct s as [|s'|s'] eqn:Hs; [simpl; lia| |lia].
    by rewrite Z.shiftl_mul_pow2 by lia. }
  clearbody m'.
  set (my := 8589934592000000) in *.
  assert (my = 1000000 * 2 ^ 33) as Hmy by reflexivity.
  assert (0 < my < 2 ^ 53) as Hmy' by (unfold my; lia).
  pose proof (Z_div_mod m' my ltac:(lia)) as Hdm.
  destruct (Z.div_eucl m' my) as [q r]. destruct Hdm as [Hdm Hr].
  assert (0 < 2 ^ s) as Hps by (apply Z.pow_pos_nonneg; lia).
  assert (2 ^ 52 ≤ q) as Hq.
  { assert (2 ^ 105 ≤ m') as Hm105.
    { rewrite Hm'. apply Z.le_trans with (2 ^ (d - 1) * 2 ^ s); [|nia].
      rewrite <-Z.pow_add_r by lia. apply Z.pow_le_mono_r; lia. }
    change (2 ^ 105) with (2 ^ 53 * 2 ^ 52) in Hm105.
    clearbody my. nia. }
  destruct q as [|q|q]; [lia| |lia].
  assert (loc_ok (new_location my r) r my) as Hl.
  { change (new_location my) with (new_location_even my).
    unfold new_location_even. destruct (Z.eqb_spec r 0) as [->|Hr0]; simpl;
      [done|]. split; [done|]. reflexivity. }
  assert (-1074 ≤ e') as He'0 by lia.
  assert (Z.pos q * 2 ^ (e' + 1074) < 2 ^ (K + 1074)) as Hqmag.
  { assert (Z.pos q * my ≤ Z.pos mx * 2 ^ s) by lia.
    assert (0 < 2 ^ (e' + 1074)) by (apply Z.pow_pos_nonneg; lia).
    assert (2 ^ s * 2 ^ (e' + 1074) = 2 ^ 33 * 2 ^ (ex + 1074)) as Hpow.
    { rewrite <-!Z.pow_add_r by lia. f_equal. unfold s. lia. }
    assert (0 < 2 ^ (ex + 1074)) by (apply Z.pow_pos_nonneg; lia).
    rewrite Hmy in *. clearbody my s e'.
    apply Z.mul_lt_mono_pos_r with (1000000 * 2 ^ 33); [lia|]. nia. }
  pose proof (digits2_pos_exp q e' K Hqmag He'0) as Hdq.
  assert (53 ≤ Z.pos (digits2_pos q)) as Hdq53.
  { pose proof (digits2_pos_bounds q) as [_ Hqhi].
    destruct (decide (53 ≤ Z.pos (digits2_pos q))) as [|Hn]; [done|].
    assert (2 ^ Z.pos (digits2_pos q) ≤ 2 ^ 52)
      by (apply Z.pow_le_mono_r; lia). lia. }
  destruct (binary_round_aux_spec false q e' (new_location my r) r my
              He'0 Hr Hl) as (m'' & e'' & -> & He'' & Herr); [lia|].
  rewrite Z.max_r in He'', Herr by lia.
  set (k := Z.pos (digits2_pos q) - 53) in *.
  exists m'', e'', (e' + k). split; [done|].
  split; [lia|]. split; [lia|]. split; [lia|].
  assert (0 < 2 ^ k) by (apply Z.pow_pos_nonneg; lia).
  assert (0 < 2 ^ (e' + 1074)) as Hpe by (apply Z.pow_pos_nonneg; lia).
  assert (0 < 2 ^ (ex + 1074)) as Hpx by (apply Z.pow_pos_nonneg; lia).
  assert (2 ^ s * 2 ^ (e' + 1074) = 2 ^ 33 * 2 ^ (ex + 1074)) as Hpow.
  { rewrite <-!Z.pow_add_r by lia. f_equal. unfold s. lia. }
  replace (e'' + 1074) with ((e'' - (e' + k)) + k + (e' + 1074)) by lia.
  replace (e' + k + 1074) with (k + (e' + 1074)) by lia.
  rewrite (Z.pow_add_r 2 _ (e' + 1074)), (Z.pow_add_r 2 _ k),
    (Z.pow_add_r 2 k) by lia.
  replace (Z.pos q * my + r) with m' in Herr by lia.
  rewrite Hm', Hmy in Herr.
  set (W := Z.pos m'' * 2 ^ (e'' - (e' + k))) in *.
  set (A := 2 ^ (e' + 1074)) in *. set (B := 2 ^ k) in *.
  set (E := 2 ^ (ex + 1074)) in *. set (P := 2 ^ s) in *.
  replace (Z.pos m'' * (2 ^ (e'' - (e' + k)) * B * A)) with (W * B * A)
    by (unfold W; lia).
  apply Z.mul_le_mono_pos_r with (2 ^ 33); [lia|].
  rewrite <-Z.mul_assoc, <-(Z.abs_eq (2 ^ 33)) at 1 by lia.
  rewrite <-Z.abs_mul.
  replace ((1000000 * (W * B * A) - Z.pos mx * E) * 2 ^ 33)
    with ((W * (B * (1000000 * 2 ^ 33)) - Z.pos mx * P) * A).
  2: { rewrite !Z.mul_sub_distr_r.
       replace (Z.pos mx * P * A) with (Z.pos mx * (P * A)) by lia.
       rewrite Hpow. lia. }
  rewrite Z.abs_mul, (Z.abs_eq A) by lia.
  replace (1000000 * (B * A) * 2 ^ 33) with (B * (1000000 * 2 ^ 33) * A)
    by lia.
  rewrite Z.mul_assoc. apply Z.mul_le_mono_nonneg_r; [lia|]. exact Herr.
Qed.

Lemma float_of_int_spec (n : Z) :
  Z.abs n < 2 ^ 53 →
  float_finite (float_of_int n) ∧ scaled (float_of_int n) = n * 2 ^ 1074.
Proof. apply binary_normalize_int. Qed.

(** [us / 1000000.0] for a microsecond count. *)
Lemma micro_spec (us : Z) :
  0 ≤ us < 1000000 →
  let a := SFdiv 53 1024 (float_of_int us) (float_of_int 1000000) in
  float_finite a ∧ 0 ≤ scaled a ∧ (us = 0 → scaled a = 0) ∧
  2 * Z.abs (1000000 * scaled a - us * 2 ^ 1074) ≤ 1000000 * 2 ^ 1021.
Proof.
  intros Hus a. subst a.
  change (float_of_int 1000000) with million.
  destruct (float_of_int_spec us ltac:(lia)) as [Hfin Hval].
  destruct (float_of_int us) as [sx|sx| |sx mx ex] eqn:Hx; try done.
  - simpl in Hval.
    assert (us = 0) as -> by lia. simpl. split_and!; try done; lia.
  - simpl in Hfin, Hval.
    assert (0 < 2 ^ (ex + 1074)) by (apply Z.pow_pos_nonneg; lia).
    destruct sx; simpl in Hval; [lia|].
    destruct (SFdiv_million_spec mx ex 0 Hfin ltac:(lia))
      as (m'' & e'' & u & -> & Hu & He'' & Hu0 & Herr).
    { rewrite Hval. lia. }
    { rewrite Hval. change (2 ^ (0 + 1074)) with (2 ^ 1074). lia. }
    simpl. rewrite Hval in Herr.
    assert (0 < 2 ^ (e'' + 1074)) by (apply Z.pow_pos_nonneg; lia).
    split; [lia|]. split; [lia|]. split; [lia|].
    etrans; [exact Herr|]. apply Z.mul_le_mono_nonneg_l; [lia|].
    apply Z.pow_le_mono_r; lia.
Qed.

(** The float computation of the sleep in [run]. *)
Lemma sleep_spec (us secs next : Z) :
  0 ≤ us < 1000000 → 0 ≤ secs < 86400 → 0 ≤ next < 86400 →
  let a := SFdiv 53 1024 (float_of_int us) (float_of_int 1000000) in
  let seconds := SFadd 53 1024 (float_of_int secs) a in
  let diff := SFsub 53 1024 (float_of_int next) seconds in
  let sleep :=
    if SFltb diff (float_of_int 0)
    then SFadd 53 1024 diff (float_of_int (24 * 60 * 60)) else diff in
  SFltb diff (float_of_int 0)
    = bool_decide ((next - secs) * 1000000 - us < 0) ∧
  float_finite sleep ∧ 0 ≤ scaled sleep ∧
  Z.abs (1000000 * scaled sleep - sleep_micros us secs next * 2 ^ 1074)
    ≤ 1000000 * 2 ^ 1039.
Proof.
  intros Hus Hsecs Hnext a seconds diff sleep.
  destruct (micro_spec us Hus) as (Hfa & Ha0 & Haz & Haerr). fold a in Hfa, Ha0, Haz, Haerr.
  destruct (float_of_int_spec secs ltac:(lia)) as [Hfs Hvs].
  destruct (float_of_int_spec next ltac:(lia)) as [Hfn Hvn].
  destruct (float_of_int_spec 86400 ltac:(lia)) as [Hfd Hvd].
  change (float_of_int 0) with (S754_zero false) in *.
  change (24 * 60 * 60) with 86400 in *.
  assert (2 ^ 1074 = 2 ^ 53 * 2 ^ 1021) as HU by reflexivity.
  assert (2 ^ 1039 = 2 ^ 18 * 2 ^ 1021) as HE by reflexivity.
  assert (2 ^ (17 - 53 + 1074) = 2 ^ 17 * 2 ^ 1021) as HG by reflexivity.
  assert (2 ^ (17 + 1074) = 2 ^ 70 * 2 ^ 1021) as HM by reflexivity.
  assert (0 < 2 ^ 1021) as Hg by (apply Z.pow_pos_nonneg; lia).
  rewrite HU in Haerr, Hvs, Hvn, Hvd |- *. rewrite HE. clear HU HE.
  set (g := 2 ^ 1021) in *.
  set (va := scaled a) in *.
  assert (rounded seconds (scaled (float_of_int secs) + va) 17) as Hsec.
  { apply SFadd_spec; [done|done|lia|]. fold va. rewrite Hvs, HM.
    clearbody g va. lia. }
  pose proof (rounded_err _ _ _ Hsec ltac:(lia)) as Hsec_err.
  pose proof (rounded_le _ _ _ (86400 * 2 ^ 36) Hsec ltac:(lia)) as Hsec_le.
  pose proof (rounded_ge _ _ _ (secs * 2 ^ 36) Hsec ltac:(lia)) as Hsec_ge.
  pose proof (rounded_le _ _ _ (secs * 2 ^ 36) Hsec ltac:(lia)) as Hsec_le0.
  destruct Hsec as [Hfsec _].
  rewrite Hvs, HG in Hsec_err, Hsec_le, Hsec_ge, Hsec_le0.
  set (vs := scaled seconds) in *.
  assert (rounded diff (scaled (float_of_int next) - vs) 17) as Hdiff.
  { apply SFsub_spec; [done|done|lia|]. fold vs. rewrite Hvn, HM.
    clearbody g va vs. lia. }
  pose proof (rounded_err _ _ _ Hdiff ltac:(lia)) as Hdiff_err.
  pose proof (rounded_le _ _ _ (86400 * 2 ^ 36) Hdiff ltac:(lia)) as Hdiff_le.
  pose proof (rounded_ge _ _ _ (- 86400 * 2 ^ 36) Hdiff ltac:(lia))
    as Hdiff_ge.
  pose proof (rounded_le _ _ _ 0 Hdiff ltac:(lia)) as Hdiff_le0.
  pose proof (rounded_ge _ _ _ 0 Hdiff ltac:(lia)) as Hdiff_ge0.
  destruct Hdiff as [Hfdiff _].
  rewrite Hvn, HG in Hdiff_err, Hdiff_le, Hdiff_ge, Hdiff_le0, Hdiff_ge0.
  set (vd := scaled diff) in *.
  assert (SFltb diff (S754_zero false)
          = bool_decide ((next - secs) * 1000000 - us < 0)) as Hlt.
  { rewrite SFltb_zero by done. apply bool_decide_ext. fold vd.
    clearbody g va vs vd. lia. }
  split; [exact Hlt|]. unfold sleep_micros. subst sleep.
  rewrite Hlt. case_bool_decide as Hneg.
  - assert (rounded (SFadd 53 1024 diff (float_of_int 86400))
              (vd + scaled (float_of_int 86400)) 17) as Hsl.
    { apply SFadd_spec; [done|done|lia|]. fold vd. rewrite Hvd, HM.
      clearbody g va vs vd. lia. }
    pose proof (rounded_err _ _ _ Hsl ltac:(lia)) as Hsl_err.
    pose proof (rounded_ge _ _ _ 0 Hsl ltac:(lia)) as Hsl_ge.
    destruct Hsl as [Hfsl _]. rewrite Hvd, HG in Hsl_err, Hsl_ge.
    split; [done|].
    set (vz := scaled (SFadd 53 1024 diff (float_of_int 86400))) in *.
    clearbody g va vs vd vz. lia.
  - split; [done|]. fold vd. clearbody g va vs vd. lia.
Qed.

Lemma float_value_scaled (x : float) :
  float_finite x →
  (float_value x == inject_Z (scaled x) / inject_Z (2 ^ 1074))%Q.
Proof.
  destruct x as [s|s| |s m e]; try done; simpl; intros He.
  replace e with ((e + 1074) + (- 1074)) at 1 by lia.
  rewrite Qpower_plus by done.
  rewrite <-(Zpower_Qpower 2 (e + 1074)) by lia.
  change (2 ^ (- 1074))%Q with (/ inject_Z (2 ^ 1074))%Q.
  unfold Qdiv. rewrite Qmult_assoc. apply Qmult_comp; [|done].
  rewrite <-inject_Z_mult. destruct s; simpl; apply inject_Z_injective; lia.
Qed.

Lemma sleep_micros_range (us secs next : Z) :
  0 ≤ us < 1000000 → 0 ≤ secs < 86400 → 0 ≤ next < 86400 →
  0 ≤ sleep_micros us secs next < 86400 * 1000000.
Proof. intros. unfold sleep_micros. case_bool_decide; lia. Qed.

Lemma Qabs_Qmake_le (a c n : Z) (b d e : positive) :
  Z.abs (a * Z.pos d - c * Z.pos b) * Z.pos e ≤ n * (Z.pos b * Z.pos d) →
  (Qabs ((a # b) - (c # d)) <= n # e)%Q.
Proof.
  intros H. unfold Qminus, Qplus, Qopp, Qabs, Qle. cbn [Qnum Qden].
  rewrite Pos2Z.inj_mul.
  replace (a * Z.pos d + - c * Z.pos b) with (a * Z.pos d - c * Z.pos b)
    by lia.
  done.
Qed.

(** The sleep of [run]: the double that the code computes against the
    number it stands for. *)
Lemma sleep_value (us secs next : Z) :
  0 ≤ us < 1000000 → 0 ≤ secs < 86400 → 0 ≤ next < 86400 →
  let a := SFdiv 53 1024 (float_of_int us) (float_of_int 1000000) in
  let seconds := SFadd 53 1024 (float_of_int secs) a in
  let diff := SFsub 53 1024 (float_of_int next) seconds in
  let sleep :=
    if SFltb diff (float_of_int 0)
    then SFadd 53 1024 diff (float_of_int (24 * 60 * 60)) else diff in
  let d := (inject_Z next - (inject_Z secs + (us # 1000000)))%Q in
  SFltb diff (float_of_int 0) = (if Qlt_le_dec d 0 then true else false) ∧
  float_finite sleep ∧ SFltb sleep (float_of_int 0) = false ∧
  (0 <= float_value sleep)%Q ∧ (float_value sleep < 86400)%Q ∧
  (Qabs (float_value sleep - (if Qlt_le_dec d 0 then d + 86400 else d))
   <= 1 # 34359738368)%Q.
Proof.
  intros Hus Hsecs Hnext a seconds diff sleep d.
  destruct (sleep_spec us secs next Hus Hsecs Hnext)
    as (Hlt & Hfin & H0 & Herr).
  fold a seconds diff sleep in Hlt, Hfin, H0, Herr.
  pose proof (sleep_micros_range us secs next Hus Hsecs Hnext) as Hrange.
  assert (d == ((next - secs) * 1000000 - us) # 1000000)%Q as Hd.
  { unfold d, Qeq, Qminus, Qplus, Qopp, inject_Z. simpl. lia. }
  assert (Z.pos (2 ^ 1074)%positive = 2 ^ 35 * 2 ^ 1039) as HU
    by (rewrite Pos2Z.inj_pow; reflexivity).
  assert (float_value sleep == scaled sleep # (2 ^ 1074)%positive)%Q as Hv.
  { rewrite (float_value_scaled _ Hfin), Qmake_Qdiv.
    by rewrite Pos2Z.inj_pow. }
  assert (SFltb sleep (float_of_int 0) = false) as Hnn.
  { change (float_of_int 0) with (S754_zero false).
    rewrite SFltb_zero by done. apply bool_decide_eq_false. lia. }
  assert (2 ^ 1074 = 2 ^ 35 * 2 ^ 1039) as HU2 by reflexivity.
  rewrite HU2 in Herr. clear HU2.
  assert (0 < 2 ^ 1039) as Hg by (apply Z.pow_pos_nonneg; lia).
  set (U := (2 ^ 1074)%positive) in *. set (g := 2 ^ 1039) in *.
  set (sc := scaled sleep) in *. clearbody U g sc.
  assert ((if Qlt_le_dec d 0 then d + 86400 else d)
          == sleep_micros us secs next # 1000000)%Q as Hex.
  { unfold sleep_micros. destruct (Qlt_le_dec d 0) as [Hneg|Hpos].
    - rewrite Hd in Hneg |- *. unfold Qlt in Hneg. simpl in Hneg.
      rewrite bool_decide_true by lia.
      unfold Qeq, Qplus. simpl. lia.
    - rewrite Hd in Hpos |- *. unfold Qle in Hpos. simpl in Hpos.
      rewrite bool_decide_false by lia. done. }
  split.
  { rewrite Hlt. destruct (Qlt_le_dec d 0) as [Hneg|Hpos].
    - rewrite Hd in Hneg. unfold Qlt in Hneg. simpl in Hneg.
      apply bool_decide_eq_true. lia.
    - rewrite Hd in Hpos. unfold Qle in Hpos. simpl in Hpos.
      apply bool_decide_eq_false. lia. }
  split; [done|]. split; [done|]. rewrite Hex, Hv.
  split; [unfold Qle; simpl; lia|].
  split; [unfold Qlt; simpl; rewrite HU; clear Hv Hex; clearbody d; nia|].
  apply Qabs_Qmake_le. rewrite HU.
  change (Z.pos 34359738368) with (2 ^ 35).
  clear Hv Hex. clearbody d.
  replace (sc * 1000000 - sleep_micros us secs next * (2 ^ 35 * g))
    with (1000000 * sc - sleep_micros us secs next * (2 ^ 35 * g)) by lia.
  set (E := sleep_micros us secs next) in *. clearbody E. nia.
Qed.

(** *** The loop of [run] *)

Lemma wall_seconds_Ok now :
  wall_seconds now
  = Ok (float_add
          (float_of_int (hour now * 60 * 60 + minute now * 60 + second now))
          (SFdiv 53 1024 (float_of_int (microsecond now))
             (float_of_int 1000000))).
Proof. reflexivity. Qed.

Lemma datetime_valid_seconds now :
  datetime_valid now →
  0 ≤ hour now * 60 * 60 + minute now * 60 + second now < 86400.
Proof. intros (? & ? & ? & ?). lia. Qed.

(** A pass of the loop of [run], with the sleep it computes set against
    the number it stands for. *)
Lemma run_iteration_float step now self evs0 :
  datetime_valid now →
  step (state self) = Ok evs0 →
  let next := (toSeconds (state self) + delay self) `mod` 86400 in
  ∃ seconds sleep,
    wall_seconds now = Ok seconds ∧
    run_iteration step now self
      = Ok ({| _stop := _stop self; delay := delay self;
               state := fromSeconds next;
               windowSighted := windowSighted self |},
            Log LogVisiting :: evs0 ++ [Log LogSleeping; Wait sleep],
            sleep) ∧
    (let diff := float_sub (float_of_int next) seconds in
     sleep = (if float_lt diff (float_of_int 0)
              then float_add diff (float_of_int 86400) else diff) ∧
     float_lt diff (float_of_int 0)
       = (if Qlt_le_dec (inject_Z next - exact_seconds now) 0
          then true else false)) ∧
    float_finite sleep ∧ float_lt sleep (float_of_int 0) = false ∧
    (0 <= float_value sleep)%Q ∧ (float_value sleep < 86400)%Q ∧
    (Qabs (float_value sleep - exact_sleep next now) <= float_tolerance)%Q.
Proof.
  intros Hnow Hstep next.
  assert (0 ≤ next < 86400) as Hnext by (by apply Z.mod_pos_bound).
  pose proof (datetime_valid_seconds now Hnow) as Hsecs.
  assert (0 ≤ microsecond now < 1000000) as Hus by apply Hnow.
  destruct (sleep_value (microsecond now) _ next Hus Hsecs Hnext)
    as (Hlt & Hfin & Hnn & H0 & H1 & Herr).
  eexists _, _. split; [apply wall_seconds_Ok|].
  unfold run_iteration. rewrite Hstep, bind_Ok_l, wall_seconds_Ok, bind_Ok_l.
  change (24 * 60 * 60) with 86400 in *. fold next.
  assert (toSeconds (fromSeconds next) = next) as Hnn'
    by (by apply Zmod_mod).
  cbn [state]. rewrite Hnn'.
  split; [reflexivity|]. by split_and!.
Qed.

(** C6: a pass of the loop of [run] moves the state to
    [(state + delay) mod 86400] and sleeps for the new state minus the
    wall-clock seconds of the day, plus 86400 if that is negative, all
    in the float arithmetic of the code: 86400 is added exactly when the
    true difference is negative, the sleep is a number and never
    negative, it is within [2^-35] seconds of the true difference, and
    it is what the pass waits for.  From 86300 with a delay of 300 the
    new state is 200; a clock in second 86350 (23:59:10) then makes the
    difference negative and the sleep positive after 86400 is added,
    and at 23:59:10 sharp the sleep is 250 seconds. *)
Theorem run_iteration_sleep (step : Time → result (list event))
    (now : datetime) (self : StateMachine) (evs0 : list event) :
  datetime_valid now →
  step (state self) = Ok evs0 →
  ∃ self' seconds sleep,
    run_iteration step now self
      = Ok (self', Log LogVisiting :: evs0 ++ [Log LogSleeping; Wait sleep],
            sleep) ∧
    toSeconds (state self')
      = (toSeconds (state self) + delay self) `mod` 86400 ∧
    wall_seconds now = Ok seconds ∧
    (let diff := float_sub (float_of_int (toSeconds (state self'))) seconds in
     sleep = (if float_lt diff (float_of_int 0)
              then float_add diff (float_of_int 86400) else diff) ∧
     float_lt diff (float_of_int 0)
       = (if Qlt_le_dec
               (inject_Z (toSeconds (state self')) - exact_seconds now) 0
          then true else false)) ∧
    float_finite sleep ∧ float_lt sleep (float_of_int 0) = false ∧
    (0 <= float_value sleep)%Q ∧
    (Qabs (float_value sleep - exact_sleep (toSeconds (state self')) now)
     <= float_tolerance)%Q ∧
    (toSeconds (state self) = 86300 → delay self = 300 →
     toSeconds (state self') = 200 ∧
     (hour now * 60 * 60 + minute now * 60 + second now = 86350 →
      float_lt (float_sub (float_of_int 200) seconds) (float_of_int 0)
        = true ∧
      (0 < float_value sleep)%Q ∧
      (microsecond now = 0 → sleep = float_of_int 250))).
Proof.
  intros Hnow Hstep.
  destruct (run_iteration_float step now self evs0 Hnow Hstep)
    as (seconds & sleep & Hwall & Hrun & [Hsleep Hlt] & Hfin & Hnn & H0 & _
        & Herr).
  set (next := (toSeconds (state self) + delay self) `mod` 86400) in *.
  assert (0 ≤ next < 86400) as Hnext by (by apply Z.mod_pos_bound).
  assert (toSeconds (fromSeconds next) = next) as Hnn'
    by (by apply Zmod_mod).
  eexists _, seconds, sleep. split; [exact Hrun|]. cbn [state].
  rewrite !Hnn'. split; [done|]. split; [done|]. split; [by split|].
  split; [done|]. split; [done|]. split; [done|]. split; [done|].
  intros Hcur Hdelay.
  assert (next = 200) as Hn by (unfold next; by rewrite Hcur, Hdelay).
  split; [done|]. rewrite Hn in *. intros Hclock.
  assert (0 ≤ microsecond now < 1000000) as Hus by apply Hnow.
  assert (inject_Z 200 - exact_seconds now < 0)%Q as Hneg.
  { unfold exact_seconds. rewrite Hclock.
    unfold Qlt, Qminus, Qplus, Qopp, inject_Z. simpl. lia. }
  split; [|split].
  - rewrite Hlt. by destruct (Qlt_le_dec _ 0) as [?|Hle%Qle_not_lt].
  - apply Qabs_Qle_condition in Herr as [Hlo _].
    unfold exact_sleep in Hlo.
    destruct (Qlt_le_dec _ 0) as [_|Hle%Qle_not_lt]; [|done].
    unfold exact_seconds in Hlo. rewrite Hclock in Hlo.
    assert (microsecond now # 1000000 < 1)%Q as Hfrac
      by (unfold Qlt; simpl; lia).
    unfold float_tolerance in Hlo.
    change (inject_Z 200) with 200%Q in Hlo.
    change (inject_Z 86350) with 86350%Q in Hlo.
    generalize dependent (microsecond now # 1000000)%Q.
    generalize dependent (float_value sleep). intros. lra.
  - intros Hmicro. rewrite Hsleep.
    rewrite wall_seconds_Ok, Hclock, Hmicro in Hwall.
    injection Hwall as <-. vm_compute. reflexivity.
Qed.

Lemma run_iteration_sleep_witness :
  let now := {| hour := 23; minute := 59; second := 10; microsecond := 0 |} in
  let self := {| _stop := false; delay := 300; state := mkTime 86300;
                 windowSighted := true |} in
  datetime_valid now ∧
  ∃ self' sleep,
    run_iteration (λ _, Ok []) now self
      = Ok (self', [Log LogVisiting; Log LogSleeping; Wait sleep], sleep) ∧
    toSeconds (state self') = 200 ∧
    sleep = float_of_int 250 ∧
    float_finite sleep ∧ float_lt sleep (float_of_int 0) = false ∧
    (0 < float_value sleep)%Q ∧
    (Qabs (float_value sleep - exact_sleep (toSeconds (state self')) now)
     <= float_tolerance)%Q.
Proof.
  intros now self.
  assert (datetime_valid now) as Hnow by (unfold datetime_valid; simpl; lia).
  split; [exact Hnow|].
  destruct (run_iteration_sleep (λ _, Ok []) now self [] Hnow eq_refl)
    as (self' & seconds & sleep & Hrun & _ & _ & _ & Hfin & Hnn & _ & Herr
        & Hex).
  destruct (Hex eq_refl eq_refl) as [Hnext Hclock].
  destruct (Hclock eq_refl) as (_ & Hpos & Hsharp).
  exists self', sleep. split; [exact Hrun|]. split; [exact Hnext|].
  split; [exact (Hsharp eq_refl)|]. split; [exact Hfin|].
  split; [exact Hnn|]. split; [exact Hpos|exact Herr].
Defined.

(** The model rounds as CPython does: a microsecond past 23:59:10 the
    sleep is the double [0x1.f3ffffde72200p+7], printed
    [249.99999900000694], and not the fraction 249.999999. *)
Lemma run_iteration_sleep_rounds :
  let now := {| hour := 23; minute := 59; second := 10; microsecond := 1 |} in
  let self := {| _stop := false; delay := 300; state := mkTime 86300;
                 windowSighted := true |} in
  let sleep := S754_finite false 8796092987023872 (-45) in
  run_iteration (λ _, Ok []) now self
    = Ok ({| _stop := false; delay := 300; state := mkTime 200;
             windowSighted := true |},
          [Log LogVisiting; Log LogSleeping; Wait sleep], sleep) ∧
  ¬ (float_value sleep == 249999999 # 1000000)%Q.
Proof.
  split; [vm_compute; reflexivity|].
  unfold Qeq. vm_compute. discriminate.
Qed.

Lemma exec_flags step o self :
  (windowSighted self = true → windowSighted (exec step o self) = true) ∧
  (_stop self = true → _stop (exec step o self) = true).
Proof.
  destruct o as [visible| |now]; simpl.
  - unfold shouldStop.
    destruct (windowSighted self) eqn:Hw, visible; simpl;
      split; auto; discriminate.
  - auto.
  - unfold run_iteration. rewrite wall_seconds_Ok.
    destruct (step (state self)); simpl; auto.
Qed.

(** C7: [shouldStop] answers true when the window has been sighted and
    is no longer visible, whatever the stop flag; a call that finds the
    window visible records the sighting; in every other case the answer
    is the stop flag.  No operation of the machine clears the sighting or
    the stop flag once it is set. *)
Theorem shouldStop_policy :
  (∀ self, windowSighted self = true → (shouldStop false self).1 = true) ∧
  (∀ self, windowSighted (shouldStop true self).2 = true) ∧
  (∀ visible self,
     ¬ (windowSighted self = true ∧ visible = false) →
     (shouldStop visible self).1 = _stop self) ∧
  (∀ step ops self,
     let self' := foldl (λ self o, exec step o self) self ops in
     (windowSighted self = true → windowSighted self' = true) ∧
     (_stop self = true → _stop self' = true)).
Proof.
  split_and!.
  - intros self Hs. unfold shouldStop. by rewrite Hs.
  - intros self. unfold shouldStop. rewrite andb_false_r. done.
  - intros visible self Hn. unfold shouldStop.
    destruct (windowSighted self), visible; simpl; try done.
    by destruct Hn.
  - intros step ops. induction ops as [|o ops IH]; intros self; [done|].
    simpl. destruct (exec_flags step o self) as [Hw Hs].
    destruct (IH (exec step o self)) as [Hw' Hs']. split; auto.
Qed.

Lemma shouldStop_policy_witness :
  let self := {| _stop := false; delay := 300; state := mkTime 0;
                 windowSighted := true |} in
  (windowSighted self = true ∧ (shouldStop false self).1 = true) ∧
  (¬ (windowSighted self = true ∧ true = false) ∧
   (shouldStop true self).1 = _stop self) ∧
  (windowSighted self = true ∧
   windowSighted
     (foldl (λ self o, exec (λ _, Ok []) o self) self
        [OpShouldStop false; OpStop; OpShouldStop true]) = true).
Proof.
  intros self.
  destruct shouldStop_policy as (Hlost & _ & Helse & Hkeep).
  split_and!.
  - reflexivity.
  - by apply Hlost.
  - by intros [_ ?].
  - apply Helse. by intros [_ ?].
  - reflexivity.
  - by apply (Hkeep (λ _, Ok [])).
Defined.

(** ** The delay of the clock face *)

Lemma foldl_gcd (l : list Z) (x : Z) :
  let d := foldl gcd x l in
  (d | x) ∧ (∀ y, y ∈ l → (d | y)) ∧
  (∀ e, (e | x) → (∀ y, y ∈ l → (e | y)) → (e | d)) ∧
  (0 ≤ x → 0 ≤ d).
Proof.
  revert x. induction l as [|y l IH]; intros x; simpl.
  - split_and!; [done| |done|done]. intros y Hy. by apply elem_of_nil in Hy.
  - destruct (IH (gcd x y)) as (Hx & Hl & Hgreatest & Hpos).
    unfold gcd in *. split_and!.
    + etrans; [exact Hx|]. apply Z.gcd_divide_l.
    + intros z [->|Hz]%elem_of_cons; [|by apply Hl].
      etrans; [exact Hx|]. apply Z.gcd_divide_r.
    + intros e Hex Hel. apply Hgreatest.
      * apply Z.gcd_greatest; [done|]. apply Hel. by left.
      * intros z Hz. apply Hel. by right.
    + intros _. apply Hpos, Z.gcd_nonneg.
Qed.

Section delay_facts.
Context {char : Type} `{!EqDecision char}.

Lemma elem_of_keys (layout : @Layout char) t :
  t ∈ keys layout ↔ is_Some (times layout !! t).
Proof.
  unfold keys. rewrite list_elem_of_fmap. split.
  - intros ([t' v] & -> & Hin). apply elem_of_map_to_list in Hin.
    by exists v.
  - intros [v Hv]. exists (t, v). split; [done|].
    by apply elem_of_map_to_list.
Qed.

Lemma keys_nil (layout : @Layout char) :
  keys layout = [] ↔ times layout = ∅.
Proof.
  unfold keys. rewrite <-map_to_list_empty_iff. split.
  - apply fmap_nil_inv.
  - by intros ->.
Qed.
End delay_facts.

(** C8: the delay of a clock face is the greatest common divisor of the
    seconds of the times of its layout: it divides each of them, every
    common divisor divides it, and it is not negative; the constructor
    stores it as the delay of the state machine.  For times at 300, 600
    and 900 seconds it is 300. *)
Theorem calcDelay_gcd {char : Type} `{!EqDecision char}
    (layout : @Layout char) :
  times layout ≠ ∅ →
  (∀ t, is_Some (times layout !! t) → 0 ≤ toSeconds t) →
  (∃ d, calcDelay layout = Ok d ∧
        0 ≤ d ∧
        (∀ t, is_Some (times layout !! t) → (d | toSeconds t)) ∧
        (∀ e, (∀ t, is_Some (times layout !! t) → (e | toSeconds t)) →
              (e | d)) ∧
        ∀ lower_char Solver now self,
          QlockThread_init lower_char Solver now layout = Ok self →
          delay (base self) = d) ∧
  calcDelay quarter_layout = Ok 300.
Proof.
  intros Hne Hpos. split; [|vm_compute; reflexivity].
  unfold calcDelay.
  destruct (keys layout) as [|t0 ts] eqn:Hkeys;
    [by apply keys_nil in Hkeys|].
  simpl.
  destruct (foldl_gcd (toSeconds <$> ts) (toSeconds t0))
    as (Hd0 & Hds & Hgreatest & Hnonneg).
  assert (∀ t, is_Some (times layout !! t) ↔ t = t0 ∨ t ∈ ts) as Hin.
  { intros t. by rewrite <-elem_of_keys, Hkeys, elem_of_cons. }
  eexists. split; [reflexivity|]. split_and!.
  - apply Hnonneg, Hpos, Hin. by left.
  - intros t [->|Ht]%Hin; [done|]. apply Hds.
    apply list_elem_of_fmap. by exists t.
  - intros e He. apply Hgreatest.
    + apply He, Hin. by left.
    + intros y (t & -> & Ht)%list_elem_of_fmap. apply He, Hin. by right.
  - intros lower_char Solver now self Hinit.
    unfold QlockThread_init, calcDelay in Hinit. rewrite Hkeys in Hinit.
    simpl in Hinit. unfold StateMachine_init in Hinit. inv_ok. done.
Qed.

Lemma calcDelay_gcd_witness :
  times quarter_layout ≠ ∅ ∧
  (∀ t, is_Some (times quarter_layout !! t) → 0 ≤ toSeconds t) ∧
  (∃ d, calcDelay quarter_layout = Ok d ∧
        0 ≤ d ∧
        (∀ t, is_Some (times quarter_layout !! t) → (d | toSeconds t)) ∧
        (∀ e, (∀ t, is_Some (times quarter_layout !! t) →
                    (e | toSeconds t)) → (e | d)) ∧
        ∀ lower_char Solver now self,
          QlockThread_init lower_char Solver now quarter_layout = Ok self →
          delay (base self) = d) ∧
  calcDelay quarter_layout = Ok 300.
Proof.
  assert (times quarter_layout ≠ ∅) as Hne.
  { intros Hempty.
    assert (times quarter_layout !! mkTime 300 = None) as Hnone
      by (by rewrite Hempty).
    discriminate Hnone. }
  assert (∀ t, is_Some (times quarter_layout !! t) → 0 ≤ toSeconds t)
    as Hpos.
  { intros t [v Hv]. simpl in Hv.
    apply lookup_insert_Some in Hv as [[<- _]|[_ Hv]]; [done|].
    apply lookup_insert_Some in Hv as [[<- _]|[_ Hv]]; [done|].
    by apply lookup_singleton_Some in Hv as [<- _]. }
  split; [exact Hne|]. split; [exact Hpos|].
  exact (calcDelay_gcd quarter_layout Hne Hpos).
Defined.

(** C9: with no times in the layout the delay cannot be computed:
    [calcDelay] raises, and so does the constructor, which computes the
    delay first. *)
Theorem calcDelay_empty {char : Type} `{!EqDecision char}
    (lower_char : char → char)
    (Solver : @Layout char → Z → Time → list (list char))
    (now : datetime) (layout : @Layout char) :
  times layout = ∅ →
  calcDelay layout = Raise TypeError ∧
  QlockThread_init lower_char Solver now layout = Raise TypeError.
Proof.
  intros Hempty%keys_nil. unfold QlockThread_init, calcDelay.
  by rewrite Hempty.
Qed.

Lemma calcDelay_empty_witness :
  times ahalf_layout = ∅ ∧
  calcDelay ahalf_layout = Raise TypeError ∧
  QlockThread_init (λ c, c) (λ _ _ _, [])
    {| hour := 12; minute := 0; second := 0; microsecond := 0 |}
    ahalf_layout = Raise TypeError.
Proof.
  split; [reflexivity|].
  exact (calcDelay_empty (λ c, c) (λ _ _ _, []) _ ahalf_layout eq_refl).
Defined.

(** * Further properties *)

(** ** The state machine from its construction to its shutdown *)

(** X1: [StateMachine.__init__] raises [ZeroDivisionError] for a delay
    of zero.  For a positive delay it returns a machine with both flags
    clear whose state is the wall-clock second of the day rounded down
    to a multiple of the delay: a multiple of the delay, not after the
    clock reading and less than one delay before it. *)
Theorem StateMachine_init_rounds_down :
  (∀ now, StateMachine_init now 0 = Raise ZeroDivisionError) ∧
  (∀ now d,
     datetime_valid now → 0 < d →
     ∃ self,
       StateMachine_init now d = Ok self ∧
       let secs := hour now * 60 * 60 + minute now * 60 + second now in
       toSeconds (state self) = secs - secs `mod` d ∧
       (d | toSeconds (state self)) ∧
       toSeconds (state self) ≤ secs < toSeconds (state self) + d ∧
       delay self = d ∧ _stop self = false ∧ windowSighted self = false).
Proof.
  split; [done|].
  intros now d (Hh & Hm & Hs & _) Hd. unfold StateMachine_init, floordiv.
  rewrite bool_decide_false by lia. rewrite bind_Ok_l.
  eexists. split; [reflexivity|]. cbn [state delay _stop windowSighted].
  set (secs := hour now * 60 * 60 + minute now * 60 + second now).
  assert (0 ≤ secs < 86400) as Hsecs by (unfold secs; lia).
  pose proof (Z.div_mod secs d) as Hdm.
  pose proof (Z.mod_pos_bound secs d Hd) as Hmod.
  pose proof (Z.mod_le secs d (proj1 Hsecs) Hd) as Hle.
  assert (secs `div` d * d = secs - secs `mod` d) as Hq by lia.
  unfold toSeconds, fromSeconds. cbn [seconds].
  rewrite Hq, Z.mod_small by lia.
  split_and!; try done; try lia.
  exists (secs `div` d). lia.
Qed.

Lemma StateMachine_init_rounds_down_witness :
  let now := {| hour := 10; minute := 7; second := 31; microsecond := 5 |} in
  datetime_valid now ∧ 0 < 300 ∧
  ∃ self,
    StateMachine_init now 300 = Ok self ∧
    let secs := hour now * 60 * 60 + minute now * 60 + second now in
    toSeconds (state self) = secs - secs `mod` 300 ∧
    (300 | toSeconds (state self)) ∧
    toSeconds (state self) ≤ secs < toSeconds (state self) + 300 ∧
    delay self = 300 ∧ _stop self = false ∧ windowSighted self = false.
Proof.
  intros now.
  assert (datetime_valid now) as Hnow by (unfold datetime_valid; simpl; lia).
  split; [exact Hnow|]. split; [lia|].
  destruct StateMachine_init_rounds_down as [_ Hround].
  apply (Hround now 300 Hnow). lia.
Defined.

(** X2: a pass of the loop of [run] sleeps for less than a day, and the
    sleep ends when the wall clock reads the new state: the clock reading
    plus the sleep is the new state's second of the day, of this day or
    of the next, up to the rounding of the float arithmetic ([2^-35]
    seconds).  The wait is the last thing the pass does. *)
Theorem run_iteration_wakes_at_state (step : Time → result (list event))
    (now : datetime) (self self' : StateMachine) (evs : list event)
    (sleep : float) :
  datetime_valid now →
  run_iteration step now self = Ok (self', evs, sleep) →
  float_finite sleep ∧
  (0 <= float_value sleep)%Q ∧ (float_value sleep < 86400)%Q ∧
  (Qabs (exact_seconds now + float_value sleep
         - inject_Z (toSeconds (state self'))) <= float_tolerance ∨
   Qabs (exact_seconds now + float_value sleep
         - (inject_Z (toSeconds (state self')) + 86400))
     <= float_tolerance)%Q ∧
  last evs = Some (Wait sleep).
Proof.
  intros Hnow Hrun.
  destruct (step (state self)) as [evs0| |] eqn:Hstep;
    [|by unfold run_iteration in Hrun; rewrite Hstep in Hrun..].
  destruct (run_iteration_float step now self evs0 Hnow Hstep)
    as (seconds & sleep' & _ & Hrun' & _ & Hfin & _ & H0 & H1 & Herr).
  rewrite Hrun' in Hrun. injection Hrun as <- <- <-. cbn [state].
  set (next := (toSeconds (state self) + delay self) `mod` 86400) in *.
  assert (toSeconds (fromSeconds next) = next) as ->
    by (apply Zmod_mod).
  split; [done|]. split; [done|]. split; [done|]. split.
  - unfold exact_sleep in Herr.
    destruct (Qlt_le_dec _ 0) as [_|_]; [right|left];
      (eapply Qle_trans; [|exact Herr]); apply Qle_lteq; right;
      apply Qabs_wd; unfold exact_seconds; ring.
  - by rewrite app_comm_cons, last_app.
Qed.

Lemma run_iteration_wakes_at_state_witness :
  let now := {| hour := 23; minute := 59; second := 10; microsecond := 1 |} in
  let self := {| _stop := false; delay := 300; state := mkTime 86300;
                 windowSighted := true |} in
  datetime_valid now ∧
  ∃ self' evs sleep,
    run_iteration (λ _, Ok []) now self = Ok (self', evs, sleep) ∧
    float_finite sleep ∧
    (0 <= float_value sleep)%Q ∧ (float_value sleep < 86400)%Q ∧
    (Qabs (exact_seconds now + float_value sleep
           - inject_Z (toSeconds (state self'))) <= float_tolerance ∨
     Qabs (exact_seconds now + float_value sleep
           - (inject_Z (toSeconds (state self')) + 86400))
       <= float_tolerance)%Q ∧
    last evs = Some (Wait sleep).
Proof.
  intros now self.
  assert (datetime_valid now) as Hnow by (unfold datetime_valid; simpl; lia).
  split; [exact Hnow|].
  eexists _, _, _. split; [vm_compute; reflexivity|].
  apply (run_iteration_wakes_at_state (λ _, Ok []) now self).
  - exact Hnow.
  - vm_compute; reflexivity.
Defined.

Lemma fromSeconds_mod x : fromSeconds (x `mod` (24 * 60 * 60)) = fromSeconds x.
Proof. unfold fromSeconds. f_equal. by apply Zmod_mod. Qed.

Lemma nth_state_S time d k :
  nth_state (fromSeconds (toSeconds time + d)) d k = nth_state time d (S k).
Proof.
  destruct k as [|k]; unfold nth_state.
  - f_equal. lia.
  - unfold fromSeconds, toSeconds. cbn [seconds]. f_equal.
    rewrite Zplus_mod_idemp_l. f_equal. lia.
Qed.

Lemma run_iteration_Ok step now self evs0 :
  step (state self) = Ok evs0 →
  ∃ evs sleep,
    run_iteration step now self
      = Ok ({| _stop := _stop self; delay := delay self;
               state := fromSeconds (toSeconds (state self) + delay self);
               windowSighted := windowSighted self |}, evs, sleep).
Proof.
  intros Hstep. unfold run_iteration.
  rewrite Hstep, bind_Ok_l, wall_seconds_Ok, bind_Ok_l.
  rewrite fromSeconds_mod. by eexists _, _.
Qed.

Lemma shouldStop_fields visible self b self1 :
  shouldStop visible self = (b, self1) →
  b = windowSighted self && negb visible || _stop self ∧
  state self1 = state self ∧ delay self1 = delay self ∧
  _stop self1 = _stop self ∧
  (b = false → windowSighted self1 = windowSighted self || visible).
Proof.
  unfold shouldStop.
  destruct (windowSighted self) eqn:Hw, visible; simpl; intros [= <- <-];
    simpl; rewrite ?Hw; split_and!; try done.
  all: by destruct (_stop self).
Qed.

(** The loop of [run] makes as many passes as it takes for its test to
    answer true, visiting the states [delay] apart. *)
Lemma run_loop_first_stop step passes self :
  (∀ time, is_Ok (step time)) →
  match first_stop (_stop self) (windowSighted self) passes with
  | Some n =>
      ∃ self' trace,
        run_loop step passes self = Ok (self', trace) ∧
        visits trace = nth_state (state self) (delay self) <$> seq 0 n ∧
        length trace = n
  | None => run_loop step passes self = OutOfFuel
  end.
Proof.
  intros Hstep. revert self.
  induction passes as [|p passes IH]; intros self; [done|].
  cbn [first_stop run_loop].
  destruct (shouldStop (pass_visible p) self) as [b self1] eqn:Hss.
  apply shouldStop_fields in Hss as (-> & Hst & Hd & Hs & Hw).
  destruct (windowSighted self && negb (pass_visible p)) eqn:Hlost.
  { by exists self1, []. }
  destruct (_stop self) eqn:Hstop.
  { by exists self1, []. }
  cbn [orb]. specialize (Hw eq_refl).
  destruct (Hstep (state self1)) as [evs0 Hevs0].
  destruct (run_iteration_Ok step (pass_now p) self1 evs0 Hevs0)
    as (evs & sleep & ->).
  rewrite bind_Ok_l. cbv zeta.
  set (self2 := if pass_stop p then stop _ else _).
  specialize (IH self2).
  assert (state self2 = fromSeconds (toSeconds (state self) + delay self) ∧
          delay self2 = delay self ∧
          _stop self2 = false || pass_stop p ∧
          windowSighted self2 = windowSighted self || pass_visible p)
    as (Hst2 & Hd2 & Hs2 & Hw2).
  { unfold self2. rewrite Hst, Hd, Hs, Hw. by destruct (pass_stop p). }
  rewrite Hs2, Hw2, Hst2, Hd2 in IH.
  destruct (first_stop _ _ passes) as [n|]; simpl.
  - destruct IH as (self' & trace & -> & Hvisits & Hlen).
    rewrite bind_Ok_l. eexists _, _. split; [reflexivity|].
    split; [|simpl; by rewrite Hlen].
    unfold visits in *. cbn [omap list_omap visit_time]. rewrite Hvisits, Hst.
    cbn [seq fmap list_fmap nth_state]. f_equal.
    rewrite <-(fmap_S_seq 0 n), <-list_fmap_compose.
    apply list_fmap_ext. intros _ k _. simpl. apply nth_state_S.
  - by rewrite IH.
Qed.

Lemma visits_shutdown trace cleanup :
  visits (trace ++ [Shutdown cleanup]) = visits trace.
Proof. unfold visits. rewrite omap_app. simpl. apply app_nil_r. Qed.

(** X3: when the steps return, [run] returns at the first pass whose
    loop test answers true (the stop flag is set, or the window was
    sighted and is gone) and is still running when no pass does.  Up to
    there it visits one state per pass: the state it starts in, then the
    states [delay] seconds further on each time, modulo a day; after the
    visits it calls [cleanup], once. *)
Theorem run_visits (step : Time → result (list event))
    (cleanup : list event) (passes : list pass) (self : StateMachine) :
  (∀ time, is_Ok (step time)) →
  match first_stop (_stop self) (windowSighted self) passes with
  | Some n =>
      ∃ self' trace,
        run step cleanup passes self
          = Ok (self', trace ++ [Shutdown cleanup]) ∧
        length trace = n ∧
        visits trace = nth_state (state self) (delay self) <$> seq 0 n
  | None => run step cleanup passes self = OutOfFuel
  end.
Proof.
  intros Hstep. pose proof (run_loop_first_stop step passes self Hstep) as H.
  unfold run. destruct (first_stop _ _ passes) as [n|].
  - destruct H as (self' & trace & -> & Hvisits & Hlen).
    by exists self', trace.
  - by rewrite H.
Qed.

Lemma run_visits_witness :
  let self := {| _stop := false; delay := 300; state := mkTime 86100;
                 windowSighted := false |} in
  let now := {| hour := 0; minute := 0; second := 0; microsecond := 0 |} in
  let passes :=
    [ {| pass_visible := true; pass_now := now; pass_stop := false |};
      {| pass_visible := true; pass_now := now; pass_stop := false |};
      {| pass_visible := true; pass_now := now; pass_stop := true |};
      {| pass_visible := true; pass_now := now; pass_stop := false |} ] in
  (∀ time : Time, is_Ok (Ok [] : result (list event))) ∧
  ∃ self' trace,
    run (λ _, Ok []) [] passes self = Ok (self', trace ++ [Shutdown []]) ∧
    length trace = 3%nat ∧
    visits trace = [mkTime 86100; mkTime 0; mkTime 300].
Proof.
  intros self now passes.
  assert (∀ time : Time, is_Ok (Ok [] : result (list event))) as Hstep
    by (intros _; apply is_Ok_Ok).
  split; [exact Hstep|].
  exact (run_visits (λ _, Ok []) [] passes self Hstep).
Defined.

Lemma first_stop_after_stop stopped sighted passes j p :
  passes !! j = Some p → pass_stop p = true → (S j < length passes)%nat →
  ∃ n, first_stop stopped sighted passes = Some n ∧ (n ≤ S j)%nat.
Proof.
  revert stopped sighted j.
  induction passes as [|p0 passes IH]; intros stopped sighted j Hj Hp Hlen;
    [done|].
  cbn [first_stop].
  destruct (sighted && negb (pass_visible p0)); [exists 0%nat; split; [done|lia]|].
  destruct stopped; [exists 0%nat; split; [done|lia]|].
  destruct j as [|j]; simpl in Hj, Hlen.
  - injection Hj as ->. rewrite Hp. simpl.
    destruct passes as [|p1 passes]; [simpl in Hlen; lia|].
    cbn [first_stop]. exists 1%nat. split; [|lia].
    by destruct (_ && _).
  - destruct (IH (false || pass_stop p0) (sighted || pass_visible p0) j)
      as (n & -> & Hn); [done|done|lia|].
    exists (S n). split; [done|lia].
Qed.

Lemma first_stop_sighted stopped passes j q :
  passes !! j = Some q → pass_visible q = false →
  ∃ n, first_stop stopped true passes = Some n ∧ (n ≤ j)%nat.
Proof.
  revert stopped j.
  induction passes as [|p0 passes IH]; intros stopped j Hj Hq; [done|].
  cbn [first_stop].
  destruct (true && negb (pass_visible p0)) eqn:Hlost;
    [exists 0%nat; split; [done|lia]|].
  destruct stopped; [exists 0%nat; split; [done|lia]|].
  destruct j as [|j]; simpl in Hj.
  - injection Hj as ->. by rewrite Hq in Hlost.
  - destruct (IH (false || pass_stop p0) j) as (n & Hn & Hle); [done|done|].
    change (true || pass_visible p0) with true. rewrite Hn.
    exists (S n). split; [done|lia].
Qed.

Lemma first_stop_after_loss stopped sighted passes i j p q :
  passes !! i = Some p → pass_visible p = true →
  passes !! j = Some q → pass_visible q = false → (i < j)%nat →
  ∃ n, first_stop stopped sighted passes = Some n ∧ (n ≤ j)%nat.
Proof.
  revert stopped sighted i j.
  induction passes as [|p0 passes IH];
    intros stopped sighted i j Hi Hp Hj Hq Hij; [done|].
  cbn [first_stop].
  destruct (sighted && negb (pass_visible p0));
    [exists 0%nat; split; [done|lia]|].
  destruct stopped; [exists 0%nat; split; [done|lia]|].
  destruct j as [|j]; [lia|]. simpl in Hj.
  destruct i as [|i]; simpl in Hi.
  - injection Hi as ->. rewrite Hp, orb_true_r.
    destruct (first_stop_sighted (false || pass_stop p) passes j q)
      as (n & -> & Hle); [done|done|].
    exists (S n). split; [done|lia].
  - destruct (IH (false || pass_stop p0) (sighted || pass_visible p0) i j)
      as (n & -> & Hle); [done|done|done|done|lia|].
    exists (S n). split; [done|lia].
Qed.

(** X4: when the steps return and another thread calls [stop] during
    the wait of pass [j], [run] makes no visit after that pass: it
    returns at the next loop test at the latest, with [cleanup] as its
    last act. *)
Theorem run_ends_after_stop (step : Time → result (list event))
    (cleanup : list event) (passes : list pass) (self : StateMachine)
    (j : nat) (p : pass) :
  (∀ time, is_Ok (step time)) →
  passes !! j = Some p → pass_stop p = true → (S j < length passes)%nat →
  ∃ self' trace,
    run step cleanup passes self = Ok (self', trace) ∧
    (length (visits trace) ≤ S j)%nat ∧
    last trace = Some (Shutdown cleanup).
Proof.
  intros Hstep Hj Hp Hlen.
  destruct (first_stop_after_stop (_stop self) (windowSighted self)
              passes j p Hj Hp Hlen) as (n & Hn & Hle).
  pose proof (run_loop_first_stop step passes self Hstep) as H.
  rewrite Hn in H. destruct H as (self' & trace & Hrun & Hvisits & _).
  unfold run. rewrite Hrun, bind_Ok_l. eexists _, _.
  split; [reflexivity|]. split.
  - by rewrite visits_shutdown, Hvisits, length_fmap, length_seq.
  - apply last_snoc.
Qed.

Lemma run_ends_after_stop_witness :
  let self := {| _stop := false; delay := 300; state := mkTime 86100;
                 windowSighted := false |} in
  let now := {| hour := 0; minute := 0; second := 0; microsecond := 0 |} in
  let stopping :=
    {| pass_visible := true; pass_now := now; pass_stop := true |} in
  let passes :=
    [ {| pass_visible := true; pass_now := now; pass_stop := false |};
      stopping;
      {| pass_visible := true; pass_now := now; pass_stop := false |};
      {| pass_visible := true; pass_now := now; pass_stop := false |} ] in
  (∀ time : Time, is_Ok (Ok [] : result (list event))) ∧
  passes !! 1%nat = Some stopping ∧ pass_stop stopping = true ∧
  (2 < length passes)%nat ∧
  ∃ self' trace,
    run (λ _, Ok []) [] passes self = Ok (self', trace) ∧
    (length (visits trace) ≤ 2)%nat ∧
    last trace = Some (Shutdown []).
Proof.
  intros self now stopping passes.
  assert (∀ time : Time, is_Ok (Ok [] : result (list event))) as Hstep
    by (intros _; apply is_Ok_Ok).
  assert (2 < length passes)%nat as Hlen by (simpl; lia).
  split_and!; [exact Hstep|reflexivity|reflexivity|exact Hlen|].
  exact (run_ends_after_stop (λ _, Ok []) [] passes self 1 stopping
           Hstep eq_refl eq_refl Hlen).
Defined.

(** X5: when the steps return, the window is visible at the loop test
    of pass [i] and is not visible at the loop test of a later pass [j],
    [run] makes no visit at pass [j] or after it, whether or not [stop]
    is ever called, and ends with [cleanup]. *)
Theorem run_ends_after_visibility_loss (step : Time → result (list event))
    (cleanup : list event) (passes : list pass) (self : StateMachine)
    (i j : nat) (p q : pass) :
  (∀ time, is_Ok (step time)) →
  passes !! i = Some p → pass_visible p = true →
  passes !! j = Some q → pass_visible q = false → (i < j)%nat →
  ∃ self' trace,
    run step cleanup passes self = Ok (self', trace) ∧
    (length (visits trace) ≤ j)%nat ∧
    last trace = Some (Shutdown cleanup).
Proof.
  intros Hstep Hi Hp Hj Hq Hij.
  destruct (first_stop_after_loss (_stop self) (windowSighted self)
              passes i j p q Hi Hp Hj Hq Hij) as (n & Hn & Hle).
  pose proof (run_loop_first_stop step passes self Hstep) as H.
  rewrite Hn in H. destruct H as (self' & trace & Hrun & Hvisits & _).
  unfold run. rewrite Hrun, bind_Ok_l. eexists _, _.
  split; [reflexivity|]. split.
  - by rewrite visits_shutdown, Hvisits, length_fmap, length_seq.
  - apply last_snoc.
Qed.

Lemma run_ends_after_visibility_loss_witness :
  let self := {| _stop := false; delay := 300; state := mkTime 86100;
                 windowSighted := false |} in
  let now := {| hour := 0; minute := 0; second := 0; microsecond := 0 |} in
  let seen := {| pass_visible := true; pass_now := now; pass_stop := false |} in
  let gone := {| pass_visible := false; pass_now := now; pass_stop := false |} in
  let passes := [gone; seen; seen; gone; seen] in
  (∀ time : Time, is_Ok (Ok [] : result (list event))) ∧
  passes !! 1%nat = Some seen ∧ pass_visible seen = true ∧
  passes !! 3%nat = Some gone ∧ pass_visible gone = false ∧ (1 < 3)%nat ∧
  ∃ self' trace,
    run (λ _, Ok []) [] passes self = Ok (self', trace) ∧
    (length (visits trace) ≤ 3)%nat ∧
    last trace = Some (Shutdown []).
Proof.
  intros self now seen gone passes.
  assert (∀ time : Time, is_Ok (Ok [] : result (list event))) as Hstep
    by (intros _; apply is_Ok_Ok).
  split_and!; [exact Hstep|reflexivity|reflexivity|reflexivity|reflexivity|lia|].
  exact (run_ends_after_visibility_loss (λ _, Ok []) [] passes self 1 3
           seen gone Hstep eq_refl eq_refl eq_refl eq_refl ltac:(lia)).
Defined.

Lemma aligned_next d s :
  (d | 86400) → (d | s) → (d | toSeconds (fromSeconds (s + d))).
Proof.
  intros Hday Hs. unfold toSeconds, fromSeconds. cbn [seconds].
  rewrite Z.mod_eq by lia.
  apply Z.divide_sub_r; [by apply Z.divide_add_r|].
  by apply Z.divide_mul_l.
Qed.

Lemma run_loop_aligned step passes self self' trace :
  (delay self | 86400) → (delay self | toSeconds (state self)) →
  run_loop step passes self = Ok (self', trace) →
  Forall (λ time, (delay self | toSeconds time)) (visits trace).
Proof.
  intros Hday. revert self trace Hday.
  induction passes as [|p passes IH]; intros self trace Hday Hs Hrun;
    [done|].
  cbn [run_loop] in Hrun.
  destruct (shouldStop (pass_visible p) self) as [b self1] eqn:Hss.
  apply shouldStop_fields in Hss as (_ & Hst & Hd & _).
  destruct b; [injection Hrun as _ <-; constructor|].
  apply bind_Ok in Hrun as ([[self2 evs] sleep] & Hit & Hrun).
  apply bind_Ok in Hrun as ([self3 trace3] & Hloop & Hrun).
  injection Hrun as <- <-.
  unfold run_iteration in Hit. rewrite wall_seconds_Ok in Hit. inv_ok.
  rewrite fromSeconds_mod in *.
  unfold visits. cbn [omap list_omap visit_time]. rewrite Hst.
  constructor; [done|].
  set (self2 := if pass_stop p then stop _ else _) in Hloop.
  assert (state self2 = fromSeconds (toSeconds (state self) + delay self) ∧
          delay self2 = delay self) as [Hst2 Hd2].
  { unfold self2. rewrite Hst, Hd. by destruct (pass_stop p). }
  rewrite <-Hd2. apply (IH self2); rewrite ?Hd2, ?Hst2; try done.
  by apply aligned_next.
Qed.

(** X6: a machine whose delay divides the day and whose state is a
    multiple of the delay, as [__init__] leaves it, visits multiples of
    the delay only: the ticks stay on the delay's boundaries across
    midnight. *)
Theorem run_visits_aligned (step : Time → result (list event))
    (cleanup : list event) (passes : list pass)
    (self self' : StateMachine) (trace : list run_event) :
  (delay self | 86400) → (delay self | toSeconds (state self)) →
  run step cleanup passes self = Ok (self', trace) →
  Forall (λ time, (delay self | toSeconds time)) (visits trace).
Proof.
  intros Hday Hs Hrun. unfold run in Hrun.
  apply bind_Ok in Hrun as ([self1 trace1] & Hloop & Hrun).
  injection Hrun as _ <-. rewrite visits_shutdown.
  by eapply run_loop_aligned.
Qed.

Lemma run_visits_aligned_witness :
  let self := {| _stop := false; delay := 300; state := mkTime 86100;
                 windowSighted := false |} in
  let now := {| hour := 0; minute := 0; second := 0; microsecond := 0 |} in
  let passes :=
    [ {| pass_visible := true; pass_now := now; pass_stop := false |};
      {| pass_visible := true; pass_now := now; pass_stop := false |};
      {| pass_visible := true; pass_now := now; pass_stop := true |};
      {| pass_visible := true; pass_now := now; pass_stop := false |} ] in
  (300 | 86400) ∧ (300 | 86100) ∧
  ∃ self' trace,
    run (λ _, Ok []) [] passes self = Ok (self', trace) ∧
    Forall (λ time, (300 | toSeconds time)) (visits trace).
Proof.
  intros self now passes.
  assert (300 | 86400) as Hday by (by exists 288).
  assert (300 | 86100) as Hs by (by exists 287).
  split; [exact Hday|]. split; [exact Hs|].
  eexists _, _. split; [vm_compute; reflexivity|].
  eapply (run_visits_aligned (λ _, Ok []) [] passes self);
    [exact Hday|exact Hs|vm_compute; reflexivity].
Defined.

(** ** Where the scan finds the tokens *)

Section scan_facts.
Context {char : Type} `{!EqDecision char}.
Implicit Types (charRow : list (list char)) (token : list char).
Implicit Types (charMatrix : list (list (list char))).
Implicit Types (tokens rest : list (list char)).
Implicit Types (tm : list (list bool)) (r c k n p : nat).
Implicit Types (spans : list span).

Lemma while_S {St} fuel (cond : St → bool) (body : St → result (flow St))
    (st : St) :
  while (S fuel) cond body st =
    if cond st then
      body st ≫= λ fl, match fl with
                       | Next st => while fuel cond body st
                       | Break st => Ok st
                       end
    else Ok st.
Proof. done. Qed.

Lemma startswith_found charRow token q :
  startswith (join (drop q charRow)) token = true ↔ found charRow token q.
Proof. unfold startswith, found. apply bool_decide_eq_true. Qed.

Lemma scanned_nomatch charRow r forceSpace p token tokens spans rest :
  ¬ found charRow token p →
  scanned charRow r forceSpace (S p) (token :: tokens) spans rest →
  scanned charRow r forceSpace p (token :: tokens) spans rest.
Proof.
  intros Hnot. destruct spans as [|sp spans]; simpl.
  - intros [-> Hrest]. split; [done|]. intros q Hq.
    destruct (decide (q = p)) as [->|]; [done|]. apply Hrest. lia.
  - intros (Hp & Hbefore & Hcov & Hnext). split_and!; [lia| |done|done].
    intros q Hq. destruct (decide (q = p)) as [->|]; [done|].
    apply Hbefore. lia.
Qed.

Lemma scanned_split charRow r forceSpace p tokens spans rest :
  scanned charRow r forceSpace p tokens spans rest →
  ∃ consumed, tokens = consumed ++ rest ∧
              Forall2 (row_span charRow r) consumed spans.
Proof.
  revert p tokens. induction spans as [|sp spans IH]; intros p tokens; simpl.
  - intros [-> _]. exists []. split; [done|constructor].
  - destruct tokens as [|token tokens]; [done|].
    intros (_ & _ & Hcov & Hnext).
    destruct (IH _ _ Hnext) as (consumed & -> & Hall).
    exists (token :: consumed). split; [done|]. by constructor.
Qed.

Lemma scanned_apart charRow r forceSpace p tokens spans rest :
  scanned charRow r forceSpace p tokens spans rest →
  Forall (λ sp, sp_row sp = r ∧ (p ≤ sp_start sp)%nat) spans ∧
  StronglySorted (span_apart forceSpace) spans.
Proof.
  revert p tokens. induction spans as [|sp spans IH]; intros p tokens; simpl.
  - intros _. split; constructor.
  - destruct tokens as [|token tokens]; [done|].
    intros (Hp & _ & [Hrow _] & Hnext).
    destruct (IH _ _ Hnext) as [Hall Hsorted]. split.
    + constructor; [done|]. eapply Forall_impl; [exact Hall|].
      simpl. intros sp' [? ?]. split; [done|]. unfold resume in *. lia.
    + constructor; [done|]. eapply Forall_impl; [exact Hall|].
      simpl. intros sp' [? ?]. right. split; [congruence|done].
Qed.

Lemma marks_cons tm tm1 tm' r k n spans :
  (∀ r' c', marked tm1 r' c' = true ↔
            marked tm r' c' = true ∨ (r' = r ∧ (k ≤ c' < k + n)%nat)) →
  shape tm1 = shape tm →
  marks tm1 tm' spans →
  marks tm tm' ({| sp_row := r; sp_start := k; sp_len := n |} :: spans).
Proof.
  intros Hm Hs Hrest.
  apply (marks_app tm tm1 tm' [_] spans); [|done].
  apply (marks_snoc tm tm tm1 [] r k n); [apply marks_refl|done|done].
Qed.

(** The outer loop of [highlightRow] from column [p] scans as [scanned]
    says. *)
Lemma highlightRow_loop_scanned charRow r forceSpace fuel tm tokens p
    tm' rest i' :
  while fuel (highlightRow_cond charRow)
    (highlightRow_body charRow (Z.of_nat r) forceSpace)
    (tm, tokens, Z.of_nat p) = Ok (tm', rest, i') →
  ∃ spans, scanned charRow r forceSpace p tokens spans rest ∧
           marks tm tm' spans.
Proof.
  revert tm tokens p.
  induction fuel as [|fuel IH]; intros tm tokens p; [done|].
  rewrite while_S. unfold highlightRow_cond at 1. case_bool_decide as Hp.
  - unfold Py.len in Hp. intros Hrun.
    apply bind_Ok in Hrun as (fl & Hbody & Hrun).
    destruct tokens as [|token tokens].
    { injection Hbody as <-. injection Hrun as <- <- _.
      exists []. split; [done|apply marks_refl]. }
    destruct fl as [st1|st1].
    2:{ unfold highlightRow_body in Hbody.
        rewrite bool_decide_false in Hbody by (unfold Py.len; simpl; lia).
        inv_ok. destruct (startswith _ _); inv_ok. destruct a0. inv_ok. }
    apply highlightRow_body_step in Hbody
      as [[Hs ->]|(n & tm1 & Hcov & -> & Hm & Hsh)]; [| |lia].
    + replace (p + 1)%nat with (S p) in Hrun by lia.
      destruct (IH _ _ _ Hrun) as (spans & Hscan & Hmarks).
      exists spans. split; [|done]. apply scanned_nomatch; [|done].
      rewrite <-startswith_found. by rewrite Hs.
    + destruct (IH _ _ _ Hrun) as (spans & Hscan & Hmarks).
      exists ({| sp_row := r; sp_start := p; sp_len := n |} :: spans).
      split; [|by eapply marks_cons].
      simpl. split_and!; [done| |done|done]. intros q Hq. lia.
  - intros [= <- <- _]. exists []. split; [|apply marks_refl].
    simpl. split; [done|]. destruct tokens; [done|].
    unfold Py.len in Hp. intros q Hq. lia.
Qed.

Lemma highlightRow_scanned charRow r tm tokens forceSpace tm' consumed :
  highlightRow charRow (Z.of_nat r) tm tokens forceSpace
    = Ok (tm', consumed) →
  ∃ spans rest,
    scanned charRow r forceSpace 0 tokens spans rest ∧
    marks tm tm' spans ∧
    consumed = Z.of_nat (length spans) ∧
    rest = drop (length spans) tokens.
Proof.
  unfold highlightRow. intros Hrun.
  apply bind_Ok in Hrun as ([[tm1 rest] i1] & Hloop & Hrun).
  injection Hrun as <- <-.
  apply (highlightRow_loop_scanned _ _ _ _ _ _ 0%nat) in Hloop
    as (spans & Hscan & Hmarks).
  exists spans, rest. split_and!; [done|done| |].
  - destruct (scanned_split _ _ _ _ _ _ _ Hscan) as (cs & -> & Hall).
    apply Forall2_length in Hall. unfold Py.len. rewrite length_app. lia.
  - destruct (scanned_split _ _ _ _ _ _ _ Hscan) as (cs & -> & Hall).
    apply Forall2_length in Hall. by rewrite <-Hall, drop_app_length.
Qed.
End scan_facts.

(** ** Placements: what [highlight] finds and when it succeeds *)

Section placement_facts.
Context {char : Type} `{!EqDecision char}.
Implicit Types (charRow : list (list char)) (token : list char).
Implicit Types (charMatrix : list (list (list char))).
Implicit Types (tokens rest : list (list char)).
Implicit Types (tm : list (list bool)) (r c k n p : nat).
Implicit Types (spans : list span).

Lemma placed_inv_step forceSpace height charMatrix tm0 tokens0 x xs st st' :
  placed_inv forceSpace height charMatrix tm0 tokens0 (x :: xs) st →
  highlight_body charMatrix forceSpace x st = Ok (Next st') →
  placed_inv forceSpace height charMatrix tm0 tokens0 xs st'.
Proof.
  destruct st as [tm tokens].
  intros (Hrows & Hpos & cs & spans & -> & (Hcov & Hsort & Hlt) & Hbound
          & Hmarks).
  apply StronglySorted_cons in Hrows as [Hx Hrows].
  apply Forall_cons in Hpos as [Hx0 Hpos].
  unfold highlight_body. case_bool_decide; [intros; inv_ok|].
  intros Hb. inv_ok. destruct a0 as [tm' consumed]. inv_ok.
  rewrite <-(Z2Nat.id x) in E, E0 by lia.
  set (r := Z.to_nat x) in *.
  rewrite getitem_nat in E.
  destruct (charMatrix !! r) as [charRow|] eqn:Hrow; [|discriminate].
  injection E as <-.
  apply highlightRow_scanned in E0
    as (spans' & rest & Hscan & Hmarks' & -> & ->).
  destruct (scanned_split _ _ _ _ _ _ _ Hscan) as (cs' & Heq & Hcov').
  destruct (scanned_apart _ _ _ _ _ _ _ Hscan) as [Hrow' Hsort'].
  rewrite Forall_forall in Hrow'.
  split; [done|]. split; [done|].
  exists (cs ++ cs'), (spans ++ spans'). split_and!.
  - rewrite slice_from_nat. rewrite Heq at 1. by rewrite <-app_assoc.
  - split_and!.
    + apply Forall2_app; [done|].
      eapply Forall2_impl; [exact Hcov'|]. intros tok sp [Hr Hc].
      exists charRow. by rewrite Hr.
    + apply StronglySorted_app_2; [|done|done].
      intros sp1 sp2 H1 H2. left.
      rewrite Forall_forall in Hbound.
      pose proof (Hbound _ H1) as Hb1. apply Forall_cons in Hb1 as [Hb1 _].
      destruct (Hrow' _ H2) as [-> _]. unfold r. lia.
    + apply Forall_app. split; [done|].
      apply Forall_forall. intros sp Hsp.
      destruct (Hrow' _ Hsp) as [-> _]. unfold r. lia.
  - apply Forall_app. split.
    + eapply Forall_impl; [exact Hbound|]. simpl.
      by intros sp [_ ?]%Forall_cons.
    + apply Forall_forall. intros sp Hsp.
      destruct (Hrow' _ Hsp) as [-> _].
      eapply Forall_impl; [exact Hx|]. simpl. unfold r. intros. lia.
  - by eapply marks_app.
Qed.

(** What [highlight] consumes it has placed. *)
Lemma highlight_loop_placed forceSpace height charMatrix tm0 tokens0
    tm' rest :
  for_in (Py.range height) (highlight_body charMatrix forceSpace)
    (tm0, tokens0) = Ok (tm', rest) →
  ∃ consumed spans,
    tokens0 = consumed ++ rest ∧
    placement forceSpace height charMatrix consumed spans ∧
    marks tm0 tm' spans.
Proof.
  apply (for_in_inv
           (placed_inv forceSpace height charMatrix tm0 tokens0)
           (λ st, ∃ consumed spans,
              tokens0 = consumed ++ st.2 ∧
              placement forceSpace height charMatrix consumed spans ∧
              marks tm0 st.1 spans)).
  - intros [tm tokens] (_ & _ & cs & spans & -> & ? & _ & ?).
    by exists cs, spans.
  - intros x xs st st1. apply placed_inv_step.
  - intros x xs [tm tokens] st1
      (_ & _ & cs & spans & -> & ? & _ & ?) Hb.
    unfold highlight_body in Hb. case_bool_decide.
    + inv_ok. by exists cs, spans.
    + inv_ok. destruct a0. inv_ok.
  - destruct (range_sorted 0 height) as [Hs Hf].
    split; [done|]. split.
    { apply Forall_forall. intros x Hx. by apply elem_of_seqZ in Hx. }
    exists [], []. split_and!; [done| |constructor|apply marks_refl].
    split_and!; constructor.
Qed.

(** The text of a run of cells is no longer than the text of a run that
    contains it. *)
Lemma join_sublist_length charRow s s' n' m :
  (s ≤ s')%nat → (s' + n' ≤ s + m)%nat →
  (length (join (take n' (drop s' charRow)))
   ≤ length (join (take m (drop s charRow))))%nat.
Proof.
  intros Hs Hm.
  replace m with ((s' - s) + (n' + (m - (s' - s) - n')))%nat by lia.
  rewrite <-take_take_drop, drop_drop.
  replace (s + (s' - s))%nat with s' by lia.
  rewrite <-take_take_drop. unfold join.
  rewrite !concat_app, !length_app. lia.
Qed.

(** A token found further right ends further right. *)
Lemma row_covers_end_mono charRow token s n s' n' :
  row_covers charRow token s n → row_covers charRow token s' n' →
  (s ≤ s')%nat → (s + n ≤ s' + n')%nat.
Proof.
  intros (_ & _ & _ & _ & Hmin) (_ & _ & _ & Hpre' & _) Hs.
  destruct (decide (s + n ≤ s' + n')%nat) as [|Hgt]; [done|].
  destruct n as [|m]; [lia|].
  specialize (Hmin m ltac:(lia)). apply prefix_length in Hpre'.
  pose proof (join_sublist_length charRow s s' n' m Hs ltac:(lia)). lia.
Qed.

(** A scan consumes at least as many tokens in its row as any way of
    placing tokens there from the same column on. *)
Lemma scanned_ahead charRow r forceSpace placed later :
  ∀ spans' p spans rest,
    scanned charRow r forceSpace p (placed ++ later) spans rest →
    Forall2 (row_span charRow r) placed spans' →
    StronglySorted (span_apart forceSpace) spans' →
    Forall (λ sp, (p ≤ sp_start sp)%nat) spans' →
    (length spans' ≤ length spans)%nat.
Proof.
  induction placed as [|token placed IH];
    intros spans' p spans rest Hscan Hcov Hsort Hfrom.
  { apply Forall2_nil_inv_l in Hcov as ->. simpl. lia. }
  apply Forall2_cons_inv_l in Hcov as (sq & spans'' & Hq & Hcov & ->).
  apply StronglySorted_cons in Hsort as [Hafter Hsort].
  apply Forall_cons in Hfrom as [Hp Hfrom].
  destruct Hq as [Hrow Hq]. pose proof Hq as (Hlt & _ & Hfound & _).
  destruct spans as [|sp spans]; simpl in Hscan.
  { destruct Hscan as [_ Hnone]. destruct (Hnone (sp_start sq)); [lia|done]. }
  destruct Hscan as (Hp' & Hbefore & [Hrow' Hsp] & Hnext).
  assert (sp_start sp ≤ sp_start sq)%nat as Hstart.
  { destruct (decide (sp_start sp ≤ sp_start sq)%nat); [done|].
    destruct (Hbefore (sp_start sq)); [lia|done]. }
  pose proof (row_covers_end_mono _ _ _ _ _ _ Hsp Hq Hstart) as Hend.
  simpl. apply le_n_S.
  apply (IH spans'' (resume forceSpace sp) spans rest); [done|done|done|].
  assert (Forall (λ sp', sp_row sp' = r) spans'') as Hrows.
  { apply Forall_forall. intros sp' Hsp'.
    by destruct (Forall2_elem_of_r _ _ _ _ Hcov Hsp') as (? & _ & ? & _). }
  rewrite Forall_forall in Hafter. rewrite Forall_forall in Hrows.
  apply Forall_forall.
  intros sp' Hsp'. specialize (Hrows _ Hsp').
  destruct (Hafter _ Hsp') as [?|[_ ?]]; unfold resume in *; lia.
Qed.

(** The spans of a placement on the rows [x :: xs], in order: first
    those of row [x], then those of the rows [xs]. *)
Lemma placement_split_row forceSpace spans x xs :
  StronglySorted (span_apart forceSpace) spans →
  Forall (λ sp, Z.of_nat (sp_row sp) ∈ x :: xs) spans →
  Forall (λ y, x < y) xs →
  ∃ here later,
    spans = here ++ later ∧
    Forall (λ sp, Z.of_nat (sp_row sp) = x) here ∧
    Forall (λ sp, Z.of_nat (sp_row sp) ∈ xs) later.
Proof.
  intros Hsort Hin Hx. induction spans as [|sp spans IH].
  { exists [], []. split_and!; constructor. }
  apply StronglySorted_cons in Hsort as [Hafter Hsort].
  apply Forall_cons in Hin as [Hsp Hin].
  apply elem_of_cons in Hsp as [Hsp|Hsp].
  - destruct (IH Hsort Hin) as (here & later & -> & Hhere & Hlater).
    exists (sp :: here), later. split_and!; [done|by constructor|done].
  - exists [], (sp :: spans). split_and!; [done|constructor|].
    constructor; [done|].
    rewrite Forall_forall in Hafter. rewrite Forall_forall in Hin.
    rewrite Forall_forall in Hx. apply Forall_forall.
    intros sp' Hsp'. specialize (Hx _ Hsp).
    destruct (proj1 (elem_of_cons _ _ _) (Hin _ Hsp')) as [Heq|]; [|done].
    destruct (Hafter _ Hsp') as [?|[? _]]; lia.
Qed.

Lemma ahead_inv_step forceSpace charMatrix x xs st st' :
  ahead_inv forceSpace charMatrix (x :: xs) st →
  highlight_body charMatrix forceSpace x st = Ok (Next st') →
  ahead_inv forceSpace charMatrix xs st'.
Proof.
  destruct st as [tm tokens].
  intros (Hrows & Hpos & spans & Hcov & Hsort & Hin).
  apply StronglySorted_cons in Hrows as [Hx Hrows].
  apply Forall_cons in Hpos as [Hx0 Hpos].
  unfold highlight_body. case_bool_decide; [intros; inv_ok|].
  intros Hb. inv_ok. destruct a0 as [tm' consumed]. inv_ok.
  rewrite <-(Z2Nat.id x) in E, E0 by lia.
  set (r := Z.to_nat x) in *.
  rewrite getitem_nat in E.
  destruct (charMatrix !! r) as [charRow|] eqn:Hrow; [|discriminate].
  injection E as <-.
  apply highlightRow_scanned in E0
    as (found_spans & rest & Hscan & _ & -> & ->).
  split; [done|]. split; [done|].
  destruct (placement_split_row _ _ _ _ Hsort Hin Hx)
    as (here & later & -> & Hhere & Hlater).
  apply Forall2_app_inv_r in Hcov as (placed & tokens' & Hplaced & Hrest & ->).
  apply StronglySorted_app in Hsort as (_ & Hsort_here & Hsort_later).
  assert (length here ≤ length found_spans)%nat as Hahead.
  { apply (scanned_ahead charRow r forceSpace placed tokens' here 0%nat
             found_spans _ Hscan); [|done|].
    - apply Forall2_same_length_lookup_2; [by eapply Forall2_length|].
      intros i token sp Htoken Hsp.
      destruct (Forall2_lookup_lr _ _ _ _ _ _ Hplaced Htoken Hsp)
        as (charRow' & Hrow' & Hc).
      rewrite Forall_forall in Hhere.
      assert (sp_row sp = r) as Hr.
      { apply Nat2Z.inj.
        rewrite (Hhere sp) by (apply list_elem_of_lookup; eauto).
        unfold r. by rewrite Z2Nat.id by lia. }
      rewrite Hr, Hrow in Hrow'. injection Hrow' as <-. by split.
    - apply Forall_forall. intros. lia. }
  pose proof (Forall2_length _ _ _ Hplaced) as Hlen.
  exists (drop (length found_spans - length here) later).
  rewrite slice_from_nat, drop_app_ge by lia. rewrite Hlen.
  split_and!.
  - by apply Forall2_drop.
  - rewrite <-(take_drop (length found_spans - length here) later)
      in Hsort_later.
    by apply StronglySorted_app in Hsort_later as (_ & _ & ?).
  - by apply Forall_drop.
Qed.

(** Tokens that can be placed are all consumed. *)
Lemma highlight_loop_complete forceSpace height charMatrix tm tokens spans
    tm' rest :
  placement forceSpace height charMatrix tokens spans →
  for_in (Py.range height) (highlight_body charMatrix forceSpace)
    (tm, tokens) = Ok (tm', rest) →
  rest = [].
Proof.
  intros (Hcov & Hsort & Hlt).
  apply (for_in_inv (ahead_inv forceSpace charMatrix) (λ st, st.2 = [])).
  - intros [tm1 toks1] (_ & _ & spans1 & Hcov1 & _ & Hin). simpl.
    destruct spans1 as [|sp spans1].
    + by apply Forall2_nil_inv_r in Hcov1.
    + apply Forall_cons in Hin as [Hsp _]. by apply elem_of_nil in Hsp.
  - intros x xs st st1. apply ahead_inv_step.
  - intros x xs [tm1 toks1] st1 _ Hb.
    unfold highlight_body in Hb. case_bool_decide as Hlen.
    + inv_ok. simpl. unfold Py.len in Hlen.
      destruct toks1; [done|simpl in Hlen; lia].
    + inv_ok. destruct a0. inv_ok.
  - destruct (range_sorted 0 height) as [Hs Hf].
    split; [done|]. split; [done|]. exists spans. split_and!; [done|done|].
    eapply Forall_impl; [exact Hlt|]. simpl. intros sp Hsp.
    apply elem_of_seqZ. lia.
Qed.
End placement_facts.

Lemma span_apart_relax (sp1 sp2 : span) :
  span_apart true sp1 sp2 → span_apart false sp1 sp2.
Proof.
  intros [?|[? ?]]; [by left|right]. unfold resume in *. split; [done|lia].
Qed.

Lemma placement_relax {char : Type} height
    (charMatrix : list (list (list char))) tokens spans :
  placement true height charMatrix tokens spans →
  placement false height charMatrix tokens spans.
Proof.
  intros (Hcov & Hsort & Hlt). split_and!; [done| |done].
  clear Hcov Hlt. induction Hsort as [|sp spans _ IH Hafter]; constructor;
    [done|].
  eapply Forall_impl; [exact Hafter|]. apply span_apart_relax.
Qed.

Lemma highlight_placed {char : Type} `{!EqDecision char} forceSpace height
    (charMatrix : list (list (list char))) tm tokens tm' :
  highlight height charMatrix tm tokens forceSpace = Ok (tm', true) →
  ∃ spans, placement forceSpace height charMatrix tokens spans ∧
           marks tm tm' spans.
Proof.
  unfold highlight. intros Hrun.
  apply bind_Ok in Hrun as ([tm1 rest] & Hloop & Hrun).
  injection Hrun as <- Hrest. apply bool_decide_eq_true in Hrest.
  unfold Py.len in Hrest. destruct rest; [|simpl in Hrest; lia].
  apply highlight_loop_placed in Hloop as (cs & spans & -> & Hpl & Hm).
  rewrite app_nil_r. by exists spans.
Qed.

Lemma highlight_complete {char : Type} `{!EqDecision char} forceSpace height
    (charMatrix : list (list (list char))) tm tokens spans :
  grid_ok height charMatrix tm →
  placement forceSpace height charMatrix tokens spans →
  ∃ tm', highlight height charMatrix tm tokens forceSpace = Ok (tm', true).
Proof.
  intros Hok Hpl.
  destruct (highlight_total height charMatrix tm tokens forceSpace Hok)
    as [[tm' ok] Hrun].
  exists tm'. rewrite Hrun. unfold highlight in Hrun.
  apply bind_Ok in Hrun as ([tm1 rest] & Hloop & Hrun).
  injection Hrun as <- <-.
  by rewrite (highlight_loop_complete _ _ _ _ _ _ _ _ Hpl Hloop).
Qed.

(** ** The highlighter, beyond the claims *)

(** X7: [highlightRow] scans its row from the left.  Each token it
    consumes is covered by a span that starts at the first column, from
    where the scan stood, at which the token is found; the scan goes on
    right after the span, or one cell further with [forceSpace]; and the
    first token it leaves, if any, is found at no column of what remained
    of the row.  The spans are what the call has marked, and their number
    is the number it returns. *)
Theorem highlightRow_scans_leftmost {char : Type} `{!EqDecision char}
    (charRow : list (list char)) (r : nat) (tm tm' : list (list bool))
    (tokens : list (list char)) (forceSpace : bool) (consumed : Z) :
  highlightRow charRow (Z.of_nat r) tm tokens forceSpace
    = Ok (tm', consumed) →
  ∃ spans,
    scanned charRow r forceSpace 0 tokens spans
      (drop (length spans) tokens) ∧
    consumed = Z.of_nat (length spans) ∧
    marks tm tm' spans.
Proof.
  intros Hrun.
  apply highlightRow_scanned in Hrun as (spans & rest & ? & ? & ? & ->).
  by exists spans.
Qed.

Lemma highlightRow_scans_leftmost_witness :
  highlightRow [text "x"; text "a"; text "b"; text "a"; text "c"] 0
    [[false; false; false; false; false]] [text "a"; text "c"; text "d"]
    true
    = Ok ([[false; true; false; false; true]], 2) ∧
  ∃ spans,
    scanned [text "x"; text "a"; text "b"; text "a"; text "c"] 0 true 0
      [text "a"; text "c"; text "d"] spans
      (drop (length spans) [text "a"; text "c"; text "d"]) ∧
    2 = Z.of_nat (length spans) ∧
    marks [[false; false; false; false; false]]
      [[false; true; false; false; true]] spans.
Proof.
  split; [vm_compute; reflexivity|].
  apply (highlightRow_scans_leftmost
           [text "x"; text "a"; text "b"; text "a"; text "c"] 0%nat
           [[false; false; false; false; false]]
           [[false; true; false; false; true]]
           [text "a"; text "c"; text "d"] true 2).
  vm_compute; reflexivity.
Defined.

(** X8: with [forceSpace], the spans that [highlightRow] marks in a row
    are a cell apart: each span ends before the cell in front of the
    next one, and the call leaves the cell right after each span as it
    found it. *)
Theorem highlightRow_forceSpace_gap {char : Type} `{!EqDecision char}
    (charRow : list (list char)) (r : nat) (tm tm' : list (list bool))
    (tokens : list (list char)) (consumed : Z) :
  highlightRow charRow (Z.of_nat r) tm tokens true = Ok (tm', consumed) →
  ∃ spans,
    Forall2 (row_span charRow r) (take (Z.to_nat consumed) tokens) spans ∧
    marks tm tm' spans ∧
    (∀ i j sp1 sp2,
       (i < j)%nat → spans !! i = Some sp1 → spans !! j = Some sp2 →
       (sp_start sp1 + sp_len sp1 < sp_start sp2)%nat) ∧
    (∀ sp, sp ∈ spans →
       marked tm' r (sp_start sp + sp_len sp)
       = marked tm r (sp_start sp + sp_len sp)).
Proof.
  intros Hrun.
  apply highlightRow_scanned in Hrun as (spans & rest & Hscan & Hm & -> & ->).
  destruct (scanned_split _ _ _ _ _ _ _ Hscan) as (cs & Heq & Hcov).
  destruct (scanned_apart _ _ _ _ _ _ _ Hscan) as [Hrows Hsort].
  rewrite Forall_forall in Hrows.
  assert (∀ sp1 sp2, sp1 ∈ spans → sp2 ∈ spans →
            span_apart true sp1 sp2 →
            (sp_start sp1 + sp_len sp1 < sp_start sp2)%nat) as Hgap.
  { intros sp1 sp2 H1 H2 [Hlt|[_ Hle]].
    - destruct (Hrows _ H1) as [? _], (Hrows _ H2) as [? _]. lia.
    - unfold resume in Hle. lia. }
  exists spans. split_and!.
  - rewrite Nat2Z.id, <-(Forall2_length _ _ _ Hcov).
    rewrite Heq at 1. by rewrite take_app_length.
  - done.
  - intros i j sp1 sp2 Hij H1 H2.
    apply Hgap; [by eapply list_elem_of_lookup_2..|].
    rewrite <-(take_drop_middle _ _ _ H2) in Hsort, H1.
    apply StronglySorted_app in Hsort as (Hcross & _ & _).
    apply Hcross; [|by left].
    rewrite lookup_app_l in H1
      by (rewrite length_take; apply lookup_lt_Some in H2; lia).
    by eapply list_elem_of_lookup_2.
  - intros sp Hsp. apply eq_true_iff_eq. destruct Hm as [Hm _].
    rewrite Hm. split; [|by left]. intros [?|(sp' & Hsp' & Hr & Hc)]; [done|].
    exfalso. apply list_elem_of_split in Hsp as (l1 & l2 & ->).
    pose proof Hsort as Hsort'.
    apply StronglySorted_app in Hsort as (Hcross & _ & Hsort).
    apply StronglySorted_cons in Hsort as [Hafter _].
    rewrite Forall_forall in Hafter.
    apply elem_of_app in Hsp' as [Hsp'|Hsp'].
    + assert (sp_start sp' + sp_len sp' < sp_start sp)%nat; [|lia].
      apply Hgap; [apply elem_of_app; by left
                  |apply elem_of_app; right; by left|].
      apply Hcross; [done|by left].
    + apply elem_of_cons in Hsp' as [->|Hsp']; [lia|].
      assert (sp_start sp + sp_len sp < sp_start sp')%nat; [|lia].
      apply Hgap; [apply elem_of_app; right; by left
                  |apply elem_of_app; right; by right|].
      by apply Hafter.
Qed.

Lemma highlightRow_forceSpace_gap_witness :
  highlightRow [text "x"; text "a"; text "b"; text "a"; text "c"] 0
    [[false; false; false; false; false]] [text "a"; text "c"; text "d"]
    true
    = Ok ([[false; true; false; false; true]], 2) ∧
  ∃ spans,
    Forall2 (row_span [text "x"; text "a"; text "b"; text "a"; text "c"] 0)
      (take (Z.to_nat 2) [text "a"; text "c"; text "d"]) spans ∧
    marks [[false; false; false; false; false]]
      [[false; true; false; false; true]] spans ∧
    (∀ i j sp1 sp2,
       (i < j)%nat → spans !! i = Some sp1 → spans !! j = Some sp2 →
       (sp_start sp1 + sp_len sp1 < sp_start sp2)%nat) ∧
    (∀ sp, sp ∈ spans →
       marked [[false; true; false; false; true]] 0
         (sp_start sp + sp_len sp)
       = marked [[false; false; false; false; false]] 0
           (sp_start sp + sp_len sp)).
Proof.
  split; [vm_compute; reflexivity|].
  apply (highlightRow_forceSpace_gap
           [text "x"; text "a"; text "b"; text "a"; text "c"] 0%nat
           [[false; false; false; false; false]]
           [[false; true; false; false; true]]
           [text "a"; text "c"; text "d"] 2).
  vm_compute; reflexivity.
Defined.

(** X9: on grids that fit, [highlight] succeeds exactly when the tokens
    can be placed: when there is one span per token on the first
    [height] rows, each covering its token, the spans in the tokens'
    order, row-major, without overlap, and with [forceSpace] a cell apart
    within a row.  The scan from the left misses no placement. *)
Theorem highlight_succeeds_iff_placement {char : Type} `{!EqDecision char}
    (height : Z) (charMatrix : list (list (list char)))
    (tm : list (list bool)) (tokens : list (list char))
    (forceSpace : bool) :
  grid_ok height charMatrix tm →
  (∃ tm', highlight height charMatrix tm tokens forceSpace = Ok (tm', true))
  ↔ ∃ spans, placement forceSpace height charMatrix tokens spans.
Proof.
  intros Hok. split.
  - intros [tm' Hrun].
    apply highlight_placed in Hrun as (spans & Hpl & _). by exists spans.
  - intros [spans Hpl]. by eapply highlight_complete.
Qed.

Lemma highlight_succeeds_iff_placement_witness :
  grid_ok 1 [ahalf_row] [[false; false; false; false; false]] ∧
  ((∃ tm', highlight 1 [ahalf_row] [[false; false; false; false; false]]
             ahalf_tokens true = Ok (tm', true))
   ↔ ∃ spans, placement true 1 [ahalf_row] ahalf_tokens spans).
Proof.
  assert (grid_ok 1 [ahalf_row] [[false; false; false; false; false]])
    as Hok.
  { intros r Hr. destruct r as [|r]; [|lia].
    exists ahalf_row. split; [done|]. exists 5%nat. split; [done|].
    simpl. lia. }
  split; [exact Hok|].
  exact (highlight_succeeds_iff_placement 1 [ahalf_row] _ ahalf_tokens true
           Hok).
Defined.



(** X11: on grids that fit (the first [height] rows exist in both grids
    and each truth row is at least as wide as its character row)
    [highlight] returns without raising, keeps the dimensions of the
    truth grid and clears no cell. *)
Theorem highlight_safe_on_fitting_grids {char : Type} `{!EqDecision char}
    (height : Z) (charMatrix : list (list (list char)))
    (tm : list (list bool)) (tokens : list (list char))
    (forceSpace : bool) :
  grid_ok height charMatrix tm →
  ∃ tm' ok,
    highlight height charMatrix tm tokens forceSpace = Ok (tm', ok) ∧
    shape tm' = shape tm ∧
    ∀ r c, marked tm r c = true → marked tm' r c = true.
Proof.
  intros Hok.
  destruct (highlight_total height charMatrix tm tokens forceSpace Hok)
    as [[tm' ok] Hrun].
  exists tm', ok. split; [done|]. unfold highlight in Hrun.
  apply bind_Ok in Hrun as ([tm1 rest] & Hloop & Hrun).
  injection Hrun as <- _.
  apply highlight_loop_spec in Hloop as (cs & spans & _ & _ & _ & Hm & Hsh).
  split; [done|]. intros r c Hrc. apply Hm. by left.
Qed.

Lemma highlight_safe_on_fitting_grids_witness :
  grid_ok 1 [ahalf_row] [[false; false; true; false; false; false]] ∧
  ∃ tm' ok,
    highlight 1 [ahalf_row] [[false; false; true; false; false; false]]
      ahalf_tokens true = Ok (tm', ok) ∧
    shape tm' = shape [[false; false; true; false; false; false]] ∧
    ∀ r c, marked [[false; false; true; false; false; false]] r c = true →
           marked tm' r c = true.
Proof.
  assert (grid_ok 1 [ahalf_row] [[false; false; true; false; false; false]])
    as Hok.
  { intros r Hr. destruct r as [|r]; [|lia].
    exists ahalf_row. split; [done|]. exists 6%nat. split; [done|].
    simpl. lia. }
  split; [exact Hok|].
  exact (highlight_safe_on_fitting_grids 1 [ahalf_row] _ ahalf_tokens true
           Hok).
Defined.

(** ** The constructor of the clock face *)

Lemma map_prefix_0 {A} (f : A → A) (l : list A) : map_prefix f 0 l = l.
Proof. unfold map_prefix. by rewrite take_0, drop_0. Qed.

Lemma map_prefix_all {A} (f : A → A) (n : nat) (l : list A) :
  (length l ≤ n)%nat → map_prefix f n l = f <$> l.
Proof.
  intros Hn. unfold map_prefix.
  by rewrite take_ge, drop_ge, app_nil_r by done.
Qed.

Lemma map_prefix_length {A} (f : A → A) (n : nat) (l : list A) :
  length (map_prefix f n l) = length l.
Proof.
  unfold map_prefix. rewrite length_app, length_fmap, length_take, length_drop.
  lia.
Qed.

Lemma map_prefix_lookup {A} (f : A → A) (n : nat) (l : list A) (i : nat) :
  (n ≤ i)%nat → map_prefix f n l !! i = l !! i.
Proof.
  intros Hi. unfold map_prefix.
  destruct (decide (n ≤ length l)%nat).
  - rewrite lookup_app_r; rewrite length_fmap, length_take; [|lia].
    rewrite lookup_drop. f_equal. lia.
  - rewrite take_ge, drop_ge, app_nil_r by lia.
    rewrite list_lookup_fmap.
    by rewrite (lookup_ge_None_2 l i) by lia.
Qed.

Lemma map_prefix_S {A} (f : A → A) (n : nat) (l : list A) (x : A) :
  l !! n = Some x →
  <[n := f x]> (map_prefix f n l) = map_prefix f (S n) l.
Proof.
  intros Hx. pose proof (lookup_lt_Some _ _ _ Hx) as Hn. unfold map_prefix.
  rewrite insert_app_r_alt; rewrite length_fmap, length_take; [|lia].
  replace (n - n `min` length l)%nat with 0%nat by lia.
  rewrite (drop_S _ _ _ Hx), (take_S_r _ _ _ Hx), fmap_app. simpl.
  by rewrite <-app_assoc.
Qed.

Lemma for_in_app_next {St X} (body : X → St → result (flow St))
    (xs ys : list X) (st : St) :
  (∀ x s s', body x s ≠ Ok (Break s')) →
  for_in (xs ++ ys) body st = for_in xs body st ≫= for_in ys body.
Proof.
  intros Hnext. revert st. induction xs as [|x xs IH]; intros st; [done|].
  simpl. pose proof (Hnext x st) as Hx.
  destruct (body x st) as [[st'|st']| |]; simpl; try done.
  by destruct (Hx st').
Qed.

Section init_facts.
Context {char : Type} `{!EqDecision char}.
Context (lower_char : char → char).
Implicit Types (m : list (list (list char))) (rowl : list (list char)).

Lemma lower_cell_next row col m s' :
  lower_cell lower_char row col m ≠ Ok (Break s').
Proof. unfold lower_cell. intros H. inv_ok. Qed.

Lemma lower_row_next width row m s' :
  lower_row lower_char width row m ≠ Ok (Break s').
Proof. unfold lower_row. intros H. inv_ok. Qed.

(** The inner loop over the first [c] columns of row [r]. *)
Lemma lower_cols_spec r m rowl c :
  m !! r = Some rowl → (c ≤ length rowl)%nat →
  for_in (seqZ 0 (Z.of_nat c)) (lower_cell lower_char (Z.of_nat r)) m
    = Ok (<[r := map_prefix (fmap lower_char) c rowl]> m).
Proof.
  intros Hr. induction c as [|c IH]; intros Hc.
  - simpl. by rewrite map_prefix_0, list_insert_id.
  - rewrite seqZ_S, Z.add_0_l, for_in_app_next by apply lower_cell_next.
    rewrite IH by lia. rewrite bind_Ok_l. simpl.
    destruct (lookup_lt_is_Some_2 rowl c) as [cell Hcell]; [lia|].
    pose proof (lookup_lt_Some _ _ _ Hr) as Hrlt.
    unfold lower_cell. rewrite getitem_nat.
    rewrite list_lookup_insert_eq by done. rewrite bind_Ok_l.
    rewrite getitem_nat, map_prefix_lookup, Hcell by done.
    rewrite bind_Ok_l, setitem_nat.
    rewrite decide_True by (rewrite map_prefix_length; lia).
    rewrite bind_Ok_l, setitem_nat.
    rewrite decide_True by (by rewrite length_insert).
    rewrite bind_Ok_l. simpl.
    by rewrite list_insert_insert_eq, (map_prefix_S _ _ _ _ Hcell).
Qed.

(** The outer loop over the first [h] rows. *)
Lemma lower_rows_spec m (w h : nat) :
  (h ≤ length m)%nat →
  (∀ r rowl, (r < h)%nat → m !! r = Some rowl → (w ≤ length rowl)%nat) →
  for_in (seqZ 0 (Z.of_nat h)) (lower_row lower_char (Z.of_nat w)) m
    = Ok (map_prefix (map_prefix (fmap lower_char) w) h m).
Proof.
  induction h as [|h IH]; intros Hh Hw.
  - simpl. by rewrite map_prefix_0.
  - rewrite seqZ_S, Z.add_0_l, for_in_app_next by apply lower_row_next.
    rewrite IH; [|lia|intros r' rowl' ? ?; eapply (Hw r'); [lia|done]].
    rewrite bind_Ok_l. simpl.
    destruct (lookup_lt_is_Some_2 m h) as [rowl Hrowl]; [lia|].
    unfold lower_row, Py.range.
    rewrite (lower_cols_spec h _ rowl w).
    + rewrite !bind_Ok_l. simpl.
      by rewrite (map_prefix_S _ _ _ _ Hrowl).
    + by rewrite map_prefix_lookup.
    + apply (Hw h); [lia|done].
Qed.
End init_facts.

(** X12: for a layout whose grid has [height] rows of [width] cells and
    whose delay is not zero, [QlockThread.__init__] returns a clock face
    whose layout is the caller's with every cell of the grid lower-cased,
    dimensions and times as they were (so the copy is as well-formed as
    the original); its delay is the delay of the layout, and its solver
    is built from the caller's layout and that delay. *)
Theorem QlockThread_init_lowers {char : Type} `{!EqDecision char}
    (lower_char : char → char)
    (Solver : @Layout char → Z → Time → list (list char))
    (now : datetime) (given : @Layout char) (d : Z) :
  layout_wf given → calcDelay given = Ok d → d ≠ 0 →
  ∃ self,
    QlockThread_init lower_char Solver now given = Ok self ∧
    matrix (layout self)
      = lower_matrix lower_char (matrix given) ∧
    height (layout self) = height given ∧
    width (layout self) = width given ∧
    times (layout self) = times given ∧
    layout_wf (layout self) ∧
    delay (base self) = d ∧
    solver self = Solver given d.
Proof.
  intros [Hh Hw] Hd Hd0. unfold QlockThread_init.
  rewrite Hd, bind_Ok_l. unfold StateMachine_init, floordiv.
  rewrite bool_decide_false by done. rewrite !bind_Ok_l.
  rewrite Forall_forall in Hw.
  assert (for_in (Py.range (height given))
            (lower_row lower_char (width given)) (matrix given)
          = Ok (lower_matrix lower_char (matrix given))) as ->.
  { destruct (matrix given) as [|row0 rows] eqn:Hm.
    { simpl in Hh. by rewrite <-Hh. }
    assert (width given = Z.of_nat (length row0)) as Hw0
      by (symmetry; apply Hw; by left).
    rewrite <-Hm in *. rewrite <-Hh, Hw0. unfold Py.range.
    rewrite lower_rows_spec; [|done|].
    - f_equal. rewrite map_prefix_all by done. unfold lower_matrix.
      apply list_fmap_ext. intros i rowl Hrowl.
      apply map_prefix_all.
      apply Nat2Z.inj_le. rewrite <-Hw0, (Hw rowl); [done|].
      apply list_elem_of_lookup. eauto.
    - intros r rowl _ Hrowl. apply Nat2Z.inj_le.
      rewrite <-Hw0, (Hw rowl); [done|]. apply list_elem_of_lookup. eauto. }
  rewrite bind_Ok_l. eexists. split; [reflexivity|]. cbn.
  split_and!; try done. unfold lower_matrix. split; cbn [matrix height width].
  - by rewrite length_fmap.
  - apply Forall_fmap, Forall_forall. intros rowl Hrowl. simpl.
    rewrite length_fmap. by apply Hw.
Qed.

Lemma QlockThread_init_lowers_witness :
  let given : @Layout ascii :=
    {| height := 1; width := 2; matrix := [[text "A"; text "o'"]];
       times := {[ mkTime 300 := text "five"; mkTime 900 := text "quarter" ]}
    |} in
  let lower c := if Ascii.eqb c "A"%char then "a"%char else c in
  layout_wf given ∧ calcDelay given = Ok 300 ∧ 300 ≠ 0 ∧
  ∃ self,
    QlockThread_init lower (λ _ _ _, [])
      {| hour := 12; minute := 3; second := 0; microsecond := 0 |} given
      = Ok self ∧
    matrix (layout self)
      = lower_matrix lower (matrix given) ∧
    height (layout self) = height given ∧
    width (layout self) = width given ∧
    times (layout self) = times given ∧
    layout_wf (layout self) ∧
    delay (base self) = 300 ∧
    solver self = (λ _, []).
Proof.
  intros given lower.
  assert (layout_wf given) as Hwf.
  { split; [reflexivity|]. repeat constructor. }
  assert (calcDelay given = Ok 300) as Hd by (vm_compute; reflexivity).
  split; [exact Hwf|]. split; [exact Hd|]. split; [lia|].
  apply (QlockThread_init_lowers lower (λ _ _ _, []) _ given 300 Hwf Hd).
  lia.
Defined.

Lemma foldl_gcd_zero (l : list Z) (x : Z) :
  foldl gcd x l = 0 ↔ x = 0 ∧ Forall (λ y, y = 0) l.
Proof.
  revert x. induction l as [|y l IH]; intros x; simpl.
  - split; [intros ->; by split|by intros [-> _]].
  - rewrite IH, Forall_cons. unfold gcd.
    pose proof (Z.gcd_eq_0 x y) as Hg. split.
    + intros [Hxy Hl]. apply Hg in Hxy as [-> ->]. auto.
    + intros (-> & -> & Hl). split; [by apply Hg|done].
Qed.

(** X13: the delay of a layout is zero exactly when the layout has times
    and all of them are at second zero of the day, as for a layout whose
    only rule is for midnight; the constructor then raises
    [ZeroDivisionError], whatever the grid. *)
Theorem calcDelay_zero {char : Type} `{!EqDecision char}
    (given : @Layout char) :
  (calcDelay given = Ok 0 ↔
   times given ≠ ∅ ∧
   ∀ t, is_Some (times given !! t) → toSeconds t = 0) ∧
  (calcDelay given = Ok 0 →
   ∀ lower_char Solver now,
     QlockThread_init lower_char Solver now given
       = Raise ZeroDivisionError).
Proof.
  split.
  - unfold calcDelay. rewrite <-keys_nil.
    setoid_rewrite <-elem_of_keys.
    destruct (keys given) as [|t0 ts]; simpl.
    { split; [done|]. by intros [? _]. }
    split.
    + intros [= [H0 Hts]%foldl_gcd_zero]. split; [done|].
      intros t [->|Ht]%elem_of_cons; [done|].
      rewrite Forall_forall in Hts. apply Hts.
      apply list_elem_of_fmap. by exists t.
    + intros [_ Hall]. f_equal. apply foldl_gcd_zero. split.
      * apply Hall. by left.
      * apply Forall_forall. intros y (t & -> & Ht)%list_elem_of_fmap.
        apply Hall. by right.
  - intros Hd lower_char Solver now. unfold QlockThread_init.
    by rewrite Hd.
Qed.

Lemma calcDelay_zero_witness :
  let given : @Layout ascii :=
    {| height := 1; width := 5; matrix := [ahalf_row];
       times := {[ mkTime 0 := text "midnight" ]} |} in
  calcDelay given = Ok 0 ∧
  QlockThread_init (λ c, c) (λ _ _ _, [])
    {| hour := 12; minute := 0; second := 0; microsecond := 0 |} given
    = Raise ZeroDivisionError.
Proof.
  intros given.
  assert (calcDelay given = Ok 0) as Hd by (vm_compute; reflexivity).
  split; [exact Hd|].
  destruct (calcDelay_zero given) as [_ Hraise]. by apply Hraise.
Defined.

(** ** The clock face from tick to shutdown *)

Lemma highlight_total_shape {char : Type} `{!EqDecision char} height
    (charMatrix : list (list (list char))) tm tokens forceSpace :
  grid_ok height charMatrix tm →
  ∃ tm' ok, highlight height charMatrix tm tokens forceSpace = Ok (tm', ok) ∧
            shape tm' = shape tm.
Proof.
  intros Hok.
  destruct (highlight_total height charMatrix tm tokens forceSpace Hok)
    as [[tm' ok] Hrun].
  exists tm', ok. split; [done|]. unfold highlight in Hrun.
  apply bind_Ok in Hrun as ([tm1 rest] & Hloop & Hrun).
  injection Hrun as <- _.
  by apply highlight_loop_spec in Hloop as (cs & spans & _ & _ & _ & _ & ?).
Qed.

Lemma step_draws {char : Type} `{!EqDecision char}
    (self : @QlockThread char) (time : Time) :
  layout_wf (layout self) →
  ∃ evs tm,
    step self time = Ok evs ∧ draws evs = [tm] ∧
    shape tm
      = shape (createTruthMatrix (height (layout self))
                 (width (layout self))).
Proof.
  intros Hwf. pose proof (createTruthMatrix_fits _ Hwf) as Hok.
  set (blank := createTruthMatrix _ _) in *.
  destruct (highlight_total_shape _ _ blank (solver self time) true Hok)
    as (tm1 & ok1 & H1 & Hs1).
  destruct (highlight_total_shape _ _ blank (solver self time) false Hok)
    as (tm2 & ok2 & H2 & Hs2).
  unfold step. fold blank. rewrite H1, bind_Ok_l. cbv beta iota.
  destruct ok1; simpl.
  - by exists [Log LogSolving; Log LogSolution; DrawMatrix tm1], tm1.
  - rewrite H2. simpl. eexists _, tm2. split; [reflexivity|]. by split.
Qed.

Lemma run_loop_trace step passes self self' trace (P : list event → Prop) :
  (∀ time evs, step time = Ok evs → P evs) →
  run_loop step passes self = Ok (self', trace) →
  Forall (λ ev, match ev with
                | Visit _ evs _ =>
                    ∃ evs0 sleep,
                      P evs0 ∧
                      evs = Log LogVisiting :: evs0
                              ++ [Log LogSleeping; Wait sleep]
                | Shutdown _ => False
                end) trace.
Proof.
  intros HP. revert self trace.
  induction passes as [|p passes IH]; intros self trace Hrun; [done|].
  cbn [run_loop] in Hrun.
  destruct (shouldStop (pass_visible p) self) as [b self1].
  destruct b; [injection Hrun as _ <-; constructor|].
  apply bind_Ok in Hrun as ([[self2 evs] sleep] & Hit & Hrun).
  apply bind_Ok in Hrun as ([self3 trace3] & Hloop & Hrun).
  injection Hrun as <- <-. constructor; [|by eapply IH].
  unfold run_iteration in Hit. rewrite wall_seconds_Ok in Hit.
  apply bind_Ok in Hit as (evs0 & Hstep & Hit). injection Hit as _ <- _.
  eexists evs0, _. split; [by eapply HP|done].
Qed.

(** X14: a clock face on a layout whose grid has [height] rows of
    [width] cells runs without raising; every visit hands exactly one
    grid to [drawMatrix], of the layout's dimensions, and the run ends
    with the shutdown, which hands it a blank grid of those
    dimensions. *)
Theorem QlockThread_run_draws {char : Type} `{!EqDecision char}
    (self : @QlockThread char) (passes : list pass) :
  layout_wf (layout self) →
  let dims := replicate (Z.to_nat (height (layout self)))
                (Z.to_nat (width (layout self))) in
  (∀ e, run (step self) (cleanup self) passes (base self) ≠ Raise e) ∧
  (∀ self' trace,
     run (step self) (cleanup self) passes (base self) = Ok (self', trace) →
     Forall (draws_one_grid dims) trace ∧
     ∃ evs, last trace = Some (Shutdown evs)).
Proof.
  intros Hwf dims.
  assert (shape (createTruthMatrix (height (layout self))
                   (width (layout self))) = dims) as Hdims.
  { unfold shape, createTruthMatrix, dims.
    by rewrite fmap_replicate, length_replicate. }
  assert (∀ time, is_Ok (step self time)) as Hstep.
  { intros time. destruct (step_draws self time Hwf) as (evs & _ & -> & _).
    apply is_Ok_Ok. }
  assert (∀ time evs, step self time = Ok evs →
            ∃ tm, draws evs = [tm] ∧ shape tm = dims) as Hone.
  { intros time evs Hevs. destruct (step_draws self time Hwf)
      as (evs' & tm & Hevs' & Hdraws & Hshape).
    exists tm. rewrite Hevs in Hevs'. injection Hevs' as <-.
    split; [done|]. by rewrite Hshape. }
  split.
  - intros e Hrun. unfold run in Hrun.
    pose proof (run_loop_first_stop (step self) passes (base self) Hstep) as H.
    destruct (first_stop _ _ passes).
    + destruct H as (? & ? & H & _). by rewrite H in Hrun.
    + by rewrite H in Hrun.
  - intros self' trace Hrun. unfold run in Hrun.
    apply bind_Ok in Hrun as ([self1 trace1] & Hloop & Hrun).
    injection Hrun as <- <-. split; [|rewrite last_snoc; eauto].
    apply Forall_app. split.
    + eapply Forall_impl.
      * apply (run_loop_trace _ _ _ _ _ _ Hone Hloop).
      * intros [time evs sleep|evs]; simpl; [|done].
        intros (evs0 & s & (tm & Hdraws & Hshape) & ->).
        exists tm. split; [|done]. unfold draws in *.
        cbn [omap list_omap drawn]. rewrite omap_app, Hdraws. done.
    + constructor; [|constructor]. simpl. eexists. split; [done|].
      split; [done|]. apply createTruthMatrix_blank.
Qed.

Lemma QlockThread_run_draws_witness :
  let now := {| hour := 0; minute := 0; second := 0; microsecond := 0 |} in
  let passes :=
    [ {| pass_visible := true; pass_now := now; pass_stop := true |};
      {| pass_visible := true; pass_now := now; pass_stop := false |} ] in
  layout_wf (layout ahalf_thread) ∧
  ∃ self' trace,
    run (step ahalf_thread) (cleanup ahalf_thread) passes (base ahalf_thread)
      = Ok (self', trace) ∧
    Forall (draws_one_grid [5%nat]) trace ∧
    ∃ evs, last trace = Some (Shutdown evs).
Proof.
  intros now passes.
  assert (layout_wf (layout ahalf_thread)) as Hwf.
  { split; [reflexivity|]. repeat constructor. }
  split; [exact Hwf|].
  destruct (QlockThread_run_draws ahalf_thread passes Hwf) as [_ Hdraws].
  eexists _, _. split; [vm_compute; reflexivity|].
  eapply Hdraws. vm_compute; reflexivity.
Defined.

(** X15: on a layout whose grid has [height] rows of [width] cells, when
    the tokens of the solver can be placed on the grid at all (in order,
    without overlap), the grid that the tick draws shows all of them: it
    is a blank grid with exactly the cells of such a placement marked,
    found by the first attempt or by the retry. *)
Theorem step_draws_all_tokens {char : Type} `{!EqDecision char}
    (self : @QlockThread char) (time : Time) (spans : list span) :
  layout_wf (layout self) →
  placement false (height (layout self)) (matrix (layout self))
    (solver self time) spans →
  ∃ evs tm spans',
    step self time = Ok evs ∧ draws evs = [tm] ∧
    placement false (height (layout self)) (matrix (layout self))
      (solver self time) spans' ∧
    marks (createTruthMatrix (height (layout self)) (width (layout self)))
      tm spans'.
Proof.
  intros Hwf Hpl. pose proof (createTruthMatrix_fits _ Hwf) as Hok.
  set (blank := createTruthMatrix _ _) in *.
  destruct (highlight_total _ _ blank (solver self time) true Hok)
    as [[tm1 ok1] H1].
  unfold step. fold blank. rewrite H1, bind_Ok_l. cbv beta iota.
  destruct ok1; simpl.
  - apply highlight_placed in H1 as (spans1 & Hpl1 & Hm1).
    eexists _, tm1, spans1. split; [reflexivity|].
    split_and!; [done|by apply placement_relax|done].
  - destruct (highlight_complete false _ _ blank _ _ Hok Hpl) as [tm2 H2].
    rewrite H2. simpl.
    apply highlight_placed in H2 as (spans2 & Hpl2 & Hm2).
    eexists _, tm2, spans2. split; [reflexivity|]. by split_and!.
Qed.

Lemma step_draws_all_tokens_witness :
  let spans := [ {| sp_row := 0; sp_start := 0; sp_len := 1 |};
                 {| sp_row := 0; sp_start := 1; sp_len := 4 |} ] in
  layout_wf (layout ahalf_thread) ∧
  placement false 1 [ahalf_row] ahalf_tokens spans ∧
  ∃ evs tm spans',
    step ahalf_thread (mkTime 0) = Ok evs ∧ draws evs = [tm] ∧
    placement false 1 [ahalf_row] ahalf_tokens spans' ∧
    marks (createTruthMatrix 1 5) tm spans'.
Proof.
  intros spans.
  assert (layout_wf (layout ahalf_thread)) as Hwf.
  { split; [reflexivity|]. repeat constructor. }
  assert (placement false 1 [ahalf_row] ahalf_tokens spans) as Hpl.
  { split_and!.
    - repeat constructor.
      + exists ahalf_row. split; [done|]. unfold row_covers. simpl.
        split_and!; [lia|lia|by eexists|by eexists|].
        intros m Hm. replace m with 0%nat by lia. simpl. lia.
      + exists ahalf_row. split; [done|]. unfold row_covers. simpl.
        split_and!; [lia|lia|by eexists|by eexists|].
        intros m Hm.
        destruct m as [|[|[|[|m]]]]; simpl; lia.
    - apply SSorted_cons; [apply SSorted_cons; constructor|].
      constructor; [|constructor]. right. unfold resume. simpl. lia.
    - unfold spans. repeat constructor; simpl; lia. }
  split; [exact Hwf|]. split; [exact Hpl|].
  exact (step_draws_all_tokens ahalf_thread (mkTime 0) spans Hwf Hpl).
Defined.

Section init_bounds.
Context {char : Type} `{!EqDecision char}.
Context (lower_char : char → char).
Implicit Types (m : list (list (list char))) (rowl : list (list char)).

(** A missing row stops the inner loop at its first column. *)
Lemma lower_cols_no_row r m (w : nat) :
  m !! r = None → (0 < w)%nat →
  for_in (seqZ 0 (Z.of_nat w)) (lower_cell lower_char (Z.of_nat r)) m
    = Raise IndexError.
Proof.
  intros Hr Hw. rewrite seqZ_cons by lia. simpl.
  unfold lower_cell. change 0 with (Z.of_nat 0) at 1.
  by rewrite getitem_nat, Hr.
Qed.

(** A short row stops the inner loop at the first column past its
    end. *)
Lemma lower_cols_short r m rowl (w : nat) :
  m !! r = Some rowl → (length rowl < w)%nat →
  for_in (seqZ 0 (Z.of_nat w)) (lower_cell lower_char (Z.of_nat r)) m
    = Raise IndexError.
Proof.
  intros Hr Hw.
  replace (Z.of_nat w)
    with (Z.of_nat (length rowl) + Z.of_nat (w - length rowl)) by lia.
  rewrite seqZ_app by lia.
  rewrite for_in_app_next by apply lower_cell_next.
  rewrite (lower_cols_spec _ r m rowl) by done. rewrite bind_Ok_l.
  rewrite seqZ_cons by lia. simpl.
  pose proof (lookup_lt_Some _ _ _ Hr) as Hrlt.
  unfold lower_cell. rewrite getitem_nat.
  rewrite list_lookup_insert_eq by done. rewrite bind_Ok_l.
  rewrite Z.add_0_l, getitem_nat.
  by rewrite lookup_ge_None_2 by (rewrite map_prefix_length; lia).
Qed.

(** The outer loop over the first [h] rows either lower-cases the first
    [w] cells of each, or meets a row that is missing or short. *)
Lemma lower_rows_bounds m (w h : nat) :
  (0 < w)%nat →
  ((∀ r, (r < h)%nat → ∃ rowl, m !! r = Some rowl ∧ (w ≤ length rowl)%nat) ∧
   for_in (seqZ 0 (Z.of_nat h)) (lower_row lower_char (Z.of_nat w)) m
     = Ok (map_prefix (map_prefix (fmap lower_char) w) h m)) ∨
  (¬ (∀ r, (r < h)%nat →
        ∃ rowl, m !! r = Some rowl ∧ (w ≤ length rowl)%nat) ∧
   for_in (seqZ 0 (Z.of_nat h)) (lower_row lower_char (Z.of_nat w)) m
     = Raise IndexError).
Proof.
  intros Hw. induction h as [|h IH].
  { left. split; [intros r; lia|]. simpl. by rewrite map_prefix_0. }
  rewrite seqZ_S, Z.add_0_l, for_in_app_next by apply lower_row_next.
  destruct IH as [[Hc ->]|[Hnc ->]]; [|right; split; [|done]].
  2: { intros Hc. apply Hnc. intros r Hr. apply Hc. lia. }
  rewrite bind_Ok_l. simpl. unfold lower_row, Py.range.
  destruct (m !! h) as [rowl|] eqn:Hrow.
  - destruct (decide (w ≤ length rowl)%nat) as [Hlen|Hlen].
    + left. split.
      { intros r Hr. destruct (decide (r = h)) as [->|]; [eauto|].
        apply Hc. lia. }
      rewrite (lower_cols_spec _ h _ rowl w);
        [|by rewrite map_prefix_lookup|done].
      rewrite !bind_Ok_l. simpl. by rewrite (map_prefix_S _ _ _ _ Hrow).
    + right. split.
      { intros Hc'. destruct (Hc' h) as (rowl' & Hrow' & ?); [lia|].
        by simplify_eq. }
      rewrite (lower_cols_short h _ rowl w);
        [done|by rewrite map_prefix_lookup|lia].
  - right. split.
    { intros Hc'. destruct (Hc' h) as (rowl' & Hrow' & ?); [lia|].
      simplify_eq. }
    rewrite (lower_cols_no_row h _ w); [done| |done].
    by rewrite map_prefix_lookup.
Qed.
End init_bounds.

(** X16: with a delay that is not zero and a positive [width],
    [QlockThread.__init__] returns exactly when the grid holds the cells
    that [height] and [width] promise; it then lower-cases the first
    [width] cells of the first [height] rows and leaves the other cells
    as they are.  When a row is missing or short, it raises
    [IndexError]. *)
Theorem QlockThread_init_bounds {char : Type} `{!EqDecision char}
    (lower_char : char → char)
    (Solver : @Layout char → Z → Time → list (list char))
    (now : datetime) (given : @Layout char) (d : Z) :
  calcDelay given = Ok d → d ≠ 0 → 0 < width given →
  (covers_dims given →
   ∃ self,
     QlockThread_init lower_char Solver now given = Ok self ∧
     matrix (layout self)
       = map_prefix (map_prefix (fmap lower_char) (Z.to_nat (width given)))
           (Z.to_nat (height given)) (matrix given)) ∧
  (¬ covers_dims given →
   QlockThread_init lower_char Solver now given = Raise IndexError).
Proof.
  intros Hd Hd0 Hw. unfold QlockThread_init.
  rewrite Hd, bind_Ok_l. unfold StateMachine_init, floordiv.
  rewrite bool_decide_false by done. rewrite !bind_Ok_l.
  assert (Py.range (height given)
          = seqZ 0 (Z.of_nat (Z.to_nat (height given)))) as ->.
  { unfold Py.range, seqZ. by rewrite Nat2Z.id. }
  assert (lower_row lower_char (width given)
          = lower_row lower_char (Z.of_nat (Z.to_nat (width given)))) as ->
    by (by rewrite Z2Nat.id by lia).
  assert (covers_dims given ↔
          ∀ r, (r < Z.to_nat (height given))%nat →
            ∃ rowl, matrix given !! r = Some rowl ∧
                    (Z.to_nat (width given) ≤ length rowl)%nat) as Hcov.
  { unfold covers_dims. split; intros Hc r Hr.
    - destruct (Hc r) as (rowl & ? & ?); [lia|]. exists rowl. split; [done|lia].
    - destruct (Hc r) as (rowl & ? & ?); [lia|]. exists rowl. split; [done|lia]. }
  destruct (lower_rows_bounds lower_char (matrix given)
              (Z.to_nat (width given)) (Z.to_nat (height given)))
    as [[Hc ->]|[Hnc ->]]; [lia| |].
  - split; [|intros Hn; destruct Hn; by apply Hcov].
    intros _. rewrite bind_Ok_l. eexists. split; [reflexivity|done].
  - split; [|done]. intros Hc. destruct Hnc. by apply Hcov.
Qed.

Lemma QlockThread_init_bounds_witness :
  let given : @Layout ascii :=
    {| height := 1; width := 2; matrix := [[text "A"]];
       times := {[ mkTime 300 := text "five"; mkTime 900 := text "quarter" ]}
    |} in
  let lower c := if Ascii.eqb c "A"%char then "a"%char else c in
  let now := {| hour := 12; minute := 3; second := 0; microsecond := 0 |} in
  calcDelay given = Ok 300 ∧ 300 ≠ 0 ∧ 0 < width given ∧
  ¬ covers_dims given ∧
  QlockThread_init lower (λ _ _ _, []) now given = Raise IndexError.
Proof.
  intros given lower now.
  assert (calcDelay given = Ok 300) as Hd by (vm_compute; reflexivity).
  assert (300 ≠ 0) as Hd0 by lia.
  assert (0 < width given) as Hw by (simpl; lia).
  assert (¬ covers_dims given) as Hn.
  { intros Hc. destruct (Hc 0%nat) as (charRow & Hrow & Hlen); [simpl; lia|].
    simpl in Hrow, Hlen. injection Hrow as <-. simpl in Hlen. lia. }
  split; [exact Hd|]. split; [exact Hd0|]. split; [exact Hw|].
  split; [exact Hn|].
  destruct (QlockThread_init_bounds lower (λ _ _ _, []) now given 300
              Hd Hd0 Hw) as [_ Hraise].
  exact (Hraise Hn).
Defined.
